(** * test-genie-mcp: pattern detection and guided remediation

    A shallow embedding of the remediation core of the repository and the
    properties the specification states about it.

    - [Js]: the string and array primitives of JavaScript the code uses.
    - [Diff]: [generateDiff] (utils/codeParser) and [generateUnifiedDiff]
      (tools/fix/applyFix).
    - [Patch]: applying a diff, as the specification words it.
    - [Regex]: a backtracking matcher for the patterns of the rules.
    - [Fs], [Storage]: the file system and the fix store (storage/index).
    - [FixTools]: [confirmFix], [applyFix], [rollbackFix], [validateSyntax].
    - [Trace]: the calls [applyFix] makes to the file system, in their
      order.
    - [Utf8], [OnDisk]: the UTF-8 decoder and encoder, and the fix tools on
      the bytes of the files.
    - [Detection]: [analyzeReactMemoryLeaks], [detectNullReferences] and
      [generateMemoryLeakFix].
    - [RegexOps]: replacement with the [g] flag and patterns with the [i]
      flag.
    - [StoreOps]: the other operations of the store (issues, results,
      statistics, clearing a project).
    - [FixBatch]: [confirmFixes], [applyFixes], [applyConfirmedFixes].
    - [Suggest]: the fix generators and [suggestFixes].
    - [Leaks]: the Kotlin and the Dart leak rules.
    - [Rules]: the Swift leak rule, [detectRaceConditions],
      [detectStateInconsistencies], [detectTypeMismatches],
      [detectAdvancedLogicErrors], and what [detectMemoryLeaks] and
      [detectLogicErrors] do with one file.

    Conventions of the model
    - JavaScript strings are [string]s of 8-bit characters; an [undefined]
      value is [None].
    - The persistent fix store ([fixes.json]) is a list of [StoredFix]
      records kept apart from the source files of the project.
    - The file system is a finite map from paths to contents, the set of
      directories, and the set of paths on which a write throws. A content
      is the text read from the file, except in [OnDisk], where it is the
      bytes of the file and every read decodes them as UTF-8.
    - [Date.now()] is an argument of the tools; [uuidv4()] and the clock of
      the rules are oracles. *)

From Stdlib Require Import String Ascii List ZArith Lia Bool.
From Stdlib Require Import Decimal DecimalString DecimalNat.
From stdpp Require Import base option list gmap strings.

Local Open Scope string_scope.
Local Open Scope Z_scope.
Local Open Scope nat_scope.
Local Open Scope list_scope.

(** ** JavaScript text primitives *)

Module Js.

Definition LF : ascii := "010"%char.

(** [s.split('\n')] *)
Fixpoint split_lines (s : string) : list string :=
  match s with
  | EmptyString => [EmptyString]
  | String c s' =>
      if Ascii.eqb c LF then EmptyString :: split_lines s'
      else match split_lines s' with
           | [] => [String c EmptyString]
           | l :: ls => String c l :: ls
           end
  end.

(** [ls.join('\n')] *)
Definition join_lines (ls : list string) : string :=
  String.concat (String LF EmptyString) ls.

(** The text a template literal prints for a value that may be [undefined]. *)
Definition tmpl (o : option string) : string :=
  match o with Some s => s | None => "undefined" end.

(** Strict equality [===] on values that are a string or [undefined]. *)
Definition strict_eq (a b : option string) : bool :=
  match a, b with
  | Some x, Some y => String.eqb x y
  | None, None => true
  | _, _ => false
  end.

(** Truthiness of a string-or-undefined value: [undefined] and [''] are falsy. *)
Definition truthy (o : option string) : bool :=
  match o with
  | Some EmptyString => false
  | Some _ => true
  | None => false
  end.

(** [s.startsWith(c)] for a one-character prefix. *)
Definition startsWithChar (c : ascii) (s : string) : bool :=
  match s with
  | String c' _ => Ascii.eqb c c'
  | EmptyString => false
  end.

(** Decimal rendering of numbers inside template literals. *)
Definition show_nat (n : nat) : string := NilEmpty.string_of_uint (Nat.to_uint n).

Definition show_Z (z : Z) : string :=
  if (z <? 0)%Z then "-" +:+ show_nat (Z.abs_nat z) else show_nat (Z.to_nat z).

(** [s.includes(t)] *)
Fixpoint includes (s t : string) : bool :=
  if String.prefix t s then true
  else match s with
       | EmptyString => false
       | String _ s' => includes s' t
       end.

(** White space of [\s] and [trim()] within the 8-bit range. *)
Definition is_space (c : ascii) : bool :=
  let n := nat_of_ascii c in
  (n =? 32) || ((9 <=? n) && (n <=? 13)) || (n =? 160).

Fixpoint trim_start (s : string) : string :=
  match s with
  | String c s' => if is_space c then trim_start s' else s
  | EmptyString => EmptyString
  end.

Fixpoint trim_end (s : string) : string :=
  match s with
  | EmptyString => EmptyString
  | String c s' =>
      match trim_end s' with
      | EmptyString => if is_space c then EmptyString else String c EmptyString
      | r => String c r
      end
  end.

(** [s.trim()] *)
Definition trim (s : string) : string := trim_end (trim_start s).

(** [ls.slice(start, end)], with the negative indices of JavaScript. *)
Definition slice_index (len : nat) (k : Z) : nat :=
  if (k <? 0)%Z then Z.to_nat (Z.max 0 (Z.of_nat len + k))
  else Nat.min (Z.to_nat k) len.

Definition slice {A} (ls : list A) (start end_ : Z) : list A :=
  let s := slice_index (length ls) start in
  let e := slice_index (length ls) end_ in
  take (e - s) (drop s ls).

(** Number of occurrences of a character: [(s.match(/c/g) || []).length]. *)
Fixpoint count_char (c : ascii) (s : string) : nat :=
  match s with
  | EmptyString => 0
  | String c' s' => (if Ascii.eqb c c' then 1 else 0) + count_char c s'
  end.

End Js.

(** ** Diff engine *)

Module Diff.
Import Js.

(** *** Positional preview diff ([generateDiff], utils/codeParser) *)

Definition generateDiff_row (origLine modLine : option string) : list string :=
  if strict_eq origLine modLine then
    ["  " +:+ default "" origLine]
  else if truthy origLine && negb (truthy modLine) then
    ["- " +:+ tmpl origLine]
  else if negb (truthy origLine) && truthy modLine then
    ["+ " +:+ tmpl modLine]
  else
    ["- " +:+ tmpl origLine; "+ " +:+ tmpl modLine].

Definition generateDiff (original modified : string) : string :=
  let originalLines := split_lines original in
  let modifiedLines := split_lines modified in
  let maxLen := Nat.max (length originalLines) (length modifiedLines) in
  join_lines
    (flat_map (fun i => generateDiff_row (originalLines !! i) (modifiedLines !! i))
              (seq 0 maxLen)).

(** *** Two-cursor look-ahead diff ([generateUnifiedDiff], tools/fix/applyFix) *)

Inductive lookahead := Removed (n : nat) | Added (n : nat).

(** The [for (lookAhead = 1; lookAhead <= 3; lookAhead++)] search. *)
Fixpoint findMatch (originalLines modifiedLines : list string) (i j : nat)
    (lookAheads : list nat) : option lookahead :=
  match lookAheads with
  | [] => None
  | lookAhead :: rest =>
      if strict_eq (originalLines !! (i + lookAhead)) (modifiedLines !! j)
      then Some (Removed lookAhead)
      else if strict_eq (originalLines !! i) (modifiedLines !! (j + lookAhead))
      then Some (Added lookAhead)
      else findMatch originalLines modifiedLines i j rest
  end.

Definition minusLines (ls : list string) (i n : nat) : list string :=
  map (fun k => "-" +:+ tmpl (ls !! (i + k))) (seq 0 n).

Definition plusLines (ls : list string) (j n : nat) : list string :=
  map (fun k => "+" +:+ tmpl (ls !! (j + k))) (seq 0 n).

Definition countOld (hunk : list string) : nat :=
  length (List.filter (fun l => startsWithChar "-" l || startsWithChar " " l) hunk).

Definition countNew (hunk : list string) : nat :=
  length (List.filter (fun l => startsWithChar "+" l || startsWithChar " " l) hunk).

Definition hunkHeader (hunkStart : Z) (hunk : list string) : string :=
  "@@ -" +:+ show_Z (hunkStart + 1) +:+ "," +:+ show_nat (countOld hunk)
  +:+ " +" +:+ show_Z (hunkStart + 1) +:+ "," +:+ show_nat (countNew hunk) +:+ " @@".

Definition lastHeader (hunkStart : Z) : string :=
  "@@ -" +:+ show_Z (hunkStart + 1) +:+ " +" +:+ show_Z (hunkStart + 1) +:+ " @@".

Record loopState := LoopState {
  ls_i : nat; ls_j : nat; ls_hunkStart : Z;
  ls_hunk : list string; ls_diff : list string }.

(** One iteration of the [while] body (the loop condition holds). *)
Definition loopBody (originalLines modifiedLines : list string) (st : loopState) : loopState :=
  let '(LoopState i j hunkStart hunk diff) := st in
  if strict_eq (originalLines !! i) (modifiedLines !! j) then
    match hunk with
    | _ :: _ =>
        LoopState (i + 1) (j + 1) (-1) [] (diff ++ hunkHeader hunkStart hunk :: hunk)
    | [] => LoopState (i + 1) (j + 1) hunkStart hunk diff
    end
  else
    let hunkStart := if (hunkStart =? -1)%Z then Z.of_nat i else hunkStart in
    match findMatch originalLines modifiedLines i j [1; 2; 3] with
    | Some (Removed lookAhead) =>
        LoopState (i + lookAhead) j hunkStart
                  (hunk ++ minusLines originalLines i lookAhead) diff
    | Some (Added lookAhead) =>
        LoopState i (j + lookAhead) hunkStart
                  (hunk ++ plusLines modifiedLines j lookAhead) diff
    | None =>
        let '(hunk, i) :=
          if i <? length originalLines
          then (hunk ++ ["-" +:+ tmpl (originalLines !! i)], i + 1) else (hunk, i) in
        let '(hunk, j) :=
          if j <? length modifiedLines
          then (hunk ++ ["+" +:+ tmpl (modifiedLines !! j)], j + 1) else (hunk, j) in
        LoopState i j hunkStart hunk diff
    end.

Definition loopCond (originalLines modifiedLines : list string) (st : loopState) : bool :=
  (ls_i st <? length originalLines) || (ls_j st <? length modifiedLines).

Fixpoint loop (fuel : nat) (originalLines modifiedLines : list string)
    (st : loopState) : loopState :=
  match fuel with
  | O => st
  | S fuel' =>
      if loopCond originalLines modifiedLines st
      then loop fuel' originalLines modifiedLines (loopBody originalLines modifiedLines st)
      else st
  end.

(** The array [diff] before it is joined. *)
Definition unifiedDiffLines (originalLines modifiedLines : list string)
    (filename : string) : list string :=
  let st := loop (length originalLines + length modifiedLines)
                 originalLines modifiedLines
                 (LoopState 0 0 (-1) [] ["--- a/" +:+ filename; "+++ b/" +:+ filename]) in
  match ls_hunk st with
  | _ :: _ => ls_diff st ++ lastHeader (ls_hunkStart st) :: ls_hunk st
  | [] => ls_diff st
  end.

Definition generateUnifiedDiff (original modified filename : string) : string :=
  join_lines (unifiedDiffLines (split_lines original) (split_lines modified) filename).

End Diff.

(** ** Applying a diff to the original

    The repository has no function that applies a diff. This is the
    specification's "replace the [-] lines by the [+] lines against
    [original]", made precise: the two file headers are skipped, a hunk
    header moves to its recorded start line copying the untouched lines
    before it, a [-] line must be the next line of the original and is
    dropped, a [+] line is emitted, and what is left of the original is
    copied at the end. *)

Module Patch.
Import Js Diff.

Definition is_digit (c : ascii) : bool :=
  let n := nat_of_ascii c in (48 <=? n) && (n <=? 57).

Fixpoint digits_prefix (s : string) : string :=
  match s with
  | String c s' => if is_digit c then String c (digits_prefix s') else EmptyString
  | EmptyString => EmptyString
  end.

Definition parse_nat (s : string) : option nat :=
  Nat.of_uint <$> NilEmpty.uint_of_string (digits_prefix s).

Definition parseHunkStart (line : string) : option nat :=
  match line with
  | String "@" (String "@" (String " " (String "-" s))) => parse_nat s
  | _ => None
  end.

Record patchState := PatchState {
  p_pos : nat;              (* lines of the original consumed so far *)
  p_rest : list string;    (* lines of the original still to come *)
  p_out : list string }.   (* lines produced so far *)

Definition patchLine (st : patchState) (line : string) : option patchState :=
  let '(PatchState pos rest out) := st in
  match line with
  | String "@" _ =>
      match parseHunkStart line with
      | Some (S start) =>
          if (pos <=? start) && (start - pos <=? length rest)
          then Some (PatchState start (drop (start - pos) rest)
                                (out ++ take (start - pos) rest))
          else None
      | _ => None
      end
  | String "-" s =>
      match rest with
      | r :: rest' => if String.eqb r s then Some (PatchState (pos + 1) rest' out) else None
      | [] => None
      end
  | String "+" s => Some (PatchState pos rest (out ++ [s]))
  | _ => None
  end.

Fixpoint patchLines (st : patchState) (body : list string) : option patchState :=
  match body with
  | [] => Some st
  | line :: body' =>
      match patchLine st line with
      | Some st' => patchLines st' body'
      | None => None
      end
  end.

Definition patch (diffLines originalLines : list string) : option (list string) :=
  match diffLines with
  | _ :: _ :: body =>
      match patchLines (PatchState 0 originalLines []) body with
      | Some st => Some (p_out st ++ p_rest st)
      | None => None
      end
  | _ => None
  end.

Definition applyUnifiedDiff (diffText original : string) : option string :=
  join_lines <$> patch (split_lines diffText) (split_lines original).

End Patch.

(** ** Regular expressions

    The patterns of the detection rules and of the fix templates are
    written as terms of [regex] and run by a backtracking matcher with the
    priorities of the JavaScript engine: a greedy quantifier tries one more
    iteration before it lets the rest of the pattern go on, a lazy one the
    other way round, and an iteration that consumes nothing ends the
    quantifier. *)

Module Regex.
Import Js.

Inductive regex :=
| Empty                                             (* the empty pattern *)
| Chr (c : ascii)                                   (* a literal character *)
| Class (f : ascii -> bool)                         (* \s \w [^}] [a-z] *)
| Seq (r1 r2 : regex)
| Rep (greedy : bool) (min : nat) (max : option nat) (r : regex)
| Group (n : nat) (r : regex)                       (* capturing group n *)
| Backref (n : nat)                                 (* \n *)
| Alt (r1 r2 : regex)                               (* r1|r2 *)
| NotAhead (r : regex)                              (* (?!r) *)
| Assert (f : nat -> bool).                         (* \b: a test on the position *)

Definition captures := list (nat * string).

Fixpoint capture (n : nat) (cs : captures) : option string :=
  match cs with
  | [] => None
  | (k, v) :: cs' => if k =? n then Some v else capture n cs'
  end.

Record cursor := Cursor { c_pos : nat; c_rest : string }.

Definition cont := cursor -> captures -> option (cursor * captures).

Fixpoint take_string (n : nat) (s : string) : string :=
  match n, s with
  | S n', String c s' => String c (take_string n' s')
  | _, _ => EmptyString
  end.

Fixpoint drop_string (n : nat) (s : string) : string :=
  match n, s with
  | S n', String _ s' => drop_string n' s'
  | _, _ => s
  end.

Definition below (n : nat) (max : option nat) : bool :=
  match max with Some m => n <? m | None => true end.

(** The iterations of a quantifier over a body matched by [step]. An
    iteration that does not move the cursor is refused once [min] is
    reached. *)
Fixpoint iterate (step : cursor -> captures -> cont -> option (cursor * captures))
    (greedy : bool) (min : nat) (max : option nat) (k : cont)
    (fuel count : nat) (cur : cursor) (cs : captures) {struct fuel}
    : option (cursor * captures) :=
  let stop := if min <=? count then k cur cs else None in
  match fuel with
  | O => stop
  | S fuel' =>
      let more :=
        if below count max
        then step cur cs (fun cur' cs' =>
               if (c_pos cur <? c_pos cur') || (count <? min)
               then iterate step greedy min max k fuel' (S count) cur' cs'
               else None)
        else None in
      if greedy
      then match more with Some res => Some res | None => stop end
      else match stop with Some res => Some res | None => more end
  end.

Fixpoint run (r : regex) (cur : cursor) (cs : captures) (k : cont) {struct r}
    : option (cursor * captures) :=
  match r with
  | Empty => k cur cs
  | Chr c =>
      match c_rest cur with
      | String c' s' =>
          if Ascii.eqb c c' then k (Cursor (c_pos cur + 1) s') cs else None
      | EmptyString => None
      end
  | Class f =>
      match c_rest cur with
      | String c' s' => if f c' then k (Cursor (c_pos cur + 1) s') cs else None
      | EmptyString => None
      end
  | Seq r1 r2 => run r1 cur cs (fun cur' cs' => run r2 cur' cs' k)
  | Group n r' =>
      run r' cur cs (fun cur' cs' =>
        k cur' ((n, take_string (c_pos cur' - c_pos cur) (c_rest cur)) :: cs'))
  | Backref n =>
      let t := default EmptyString (capture n cs) in
      if String.prefix t (c_rest cur)
      then k (Cursor (c_pos cur + String.length t)
                     (drop_string (String.length t) (c_rest cur))) cs
      else None
  | Rep greedy min max r' =>
      iterate (run r') greedy min max k (String.length (c_rest cur) + min) 0 cur cs
  | Alt r1 r2 =>
      match run r1 cur cs k with
      | Some res => Some res
      | None => run r2 cur cs k
      end
  | NotAhead r' =>
      match run r' cur cs (fun cur' cs' => Some (cur', cs')) with
      | Some _ => None
      | None => k cur cs
      end
  | Assert f => if f (c_pos cur) then k cur cs else None
  end.

(** What [exec] returns: [index], the text of the whole match and the
    groups, together with the [lastIndex] a global pattern is left with. *)
Record matched := Matched {
  m_index : nat; m_text : string; m_groups : captures; m_lastIndex : nat }.

Definition matchAt (r : regex) (pos : nat) (rest : string) : option matched :=
  match run r (Cursor pos rest) [] (fun cur cs => Some (cur, cs)) with
  | Some (cur, cs) =>
      Some (Matched pos (take_string (c_pos cur - pos) rest) cs (c_pos cur))
  | None => None
  end.

(** Leftmost match at or after [pos], [rest] being the subject from [pos] on. *)
Fixpoint search (r : regex) (pos : nat) (rest : string) : option matched :=
  match matchAt r pos rest with
  | Some m => Some m
  | None =>
      match rest with
      | String _ rest' => search r (pos + 1) rest'
      | EmptyString => None
      end
  end.

(** [pattern.exec(content)] for a pattern whose [lastIndex] is [lastIndex]. *)
Definition exec (r : regex) (content : string) (lastIndex : nat) : option matched :=
  if lastIndex <=? String.length content
  then search r lastIndex (drop_string lastIndex content)
  else None.

(** [content.replace(pattern, replacement)] for a pattern without the [g]
    flag; [replacement] gives the text that stands for the match. *)
Definition replaceWith (content : string) (r : regex) (replacement : matched -> string)
    : string :=
  match exec r content 0 with
  | Some m =>
      take_string (m_index m) content +:+ replacement m
      +:+ drop_string (m_lastIndex m) content
  | None => content
  end.

(** A replacement text without [$] patterns. *)
Definition replace (content : string) (r : regex) (replacement : string) : string :=
  replaceWith content r (fun _ => replacement).

(** The replacement text ['$1']. *)
Definition group1 (m : matched) : string := default EmptyString (capture 1 (m_groups m)).

(** The successive matches of [while ((match = pattern.exec(content)) !== null)].
    A match that leaves [lastIndex] where it was would be found again for
    ever; the model answers [None] for such a run. *)
Fixpoint execAll (fuel : nat) (r : regex) (content : string) (lastIndex : nat)
    : option (list matched) :=
  match exec r content lastIndex with
  | None => Some []
  | Some m =>
      match fuel with
      | O => None
      | S fuel' =>
          if lastIndex <? m_lastIndex m
          then cons m <$> execAll fuel' r content (m_lastIndex m)
          else None
      end
  end.

Definition matches (r : regex) (content : string) : option (list matched) :=
  execAll (String.length content) r content 0.

(** Pattern syntax. *)
Fixpoint lit (s : string) : regex :=
  match s with
  | String c EmptyString => Chr c
  | String c s' => Seq (Chr c) (lit s')
  | EmptyString => Empty
  end.

Fixpoint seqs (rs : list regex) : regex :=
  match rs with
  | [] => lit ""
  | [r] => r
  | r :: rs' => Seq r (seqs rs')
  end.

Definition star (r : regex) : regex := Rep true 0 None r.
Definition plus (r : regex) : regex := Rep true 1 None r.
Definition lazy_star (r : regex) : regex := Rep false 0 None r.
Definition lazy_upto (n : nat) (r : regex) : regex := Rep false 0 (Some n) r.

Definition is_word (c : ascii) : bool :=
  let n := nat_of_ascii c in
  ((48 <=? n) && (n <=? 57)) || ((65 <=? n) && (n <=? 90))
  || ((97 <=? n) && (n <=? 122)) || (n =? 95).

Definition is_letter (c : ascii) : bool :=
  let n := nat_of_ascii c in
  ((65 <=? n) && (n <=? 90)) || ((97 <=? n) && (n <=? 122)).

Definition space : regex := Class is_space.                    (* \s *)
Definition word : regex := Class is_word.                      (* \w *)
Definition any : regex := Class (fun _ => true).               (* [\s\S] *)
Definition notChr (c : ascii) : regex := Class (fun c' => negb (Ascii.eqb c c')).

(** [.] without the [s] flag: any character but a line terminator. *)
Definition is_line_terminator (c : ascii) : bool :=
  Ascii.eqb c LF || Ascii.eqb c "013"%char.

Definition dot : regex := Class (fun c => negb (is_line_terminator c)).

(** [\b]. The test looks at the character before the position, which a
    cursor does not hold, so the pattern is built for the subject it runs
    on; positions are those of [exec], counted from the start of the
    subject. *)
Definition isWordChar (content : string) (e : nat) : bool :=
  match String.get e content with
  | Some c => is_word c
  | None => false
  end.

Definition atWordBoundary (content : string) (e : nat) : bool :=
  xorb (match e with O => false | S e' => isWordChar content e' end)
       (isWordChar content e).

Definition wordBoundary (content : string) : regex := Assert (atWordBoundary content).

End Regex.

(** ** Paths and the file system *)

Module Fs.
Import Js.

(** Split at the last occurrence of [c]. *)
Fixpoint rsplit (c : ascii) (s : string) : option (string * string) :=
  match s with
  | EmptyString => None
  | String a s' =>
      match rsplit c s' with
      | Some (x, y) => Some (String a x, y)
      | None => if Ascii.eqb a c then Some (EmptyString, s') else None
      end
  end.

(** [path.dirname], [path.basename], [path.extname] and [path.join] of
    Node on POSIX paths that need no normalisation. *)
Definition dirname (p : string) : string :=
  match rsplit "/" p with
  | Some (EmptyString, _) => "/"
  | Some (d, _) => d
  | None => "."
  end.

Definition basename (p : string) : string :=
  match rsplit "/" p with
  | Some (_, b) => b
  | None => p
  end.

Definition extname (p : string) : string :=
  let b := basename p in
  match rsplit "." b with
  | Some (EmptyString, _) => ""
  | Some (_, e) => if String.eqb b ".." then "" else "." +:+ e
  | None => ""
  end.

Definition join (a b : string) : string := a +:+ "/" +:+ b.

(** Contents by path, the directories that exist, and the paths on which
    [writeFileSync] and [mkdirSync] throw. *)
Record FileSystem := FileSystem_ {
  files : gmap string string;
  dirs : gset string;
  readonly : gset string }.

Definition readFileSync (fs : FileSystem) (p : string) : option string :=
  files fs !! p.

Definition existsSync (fs : FileSystem) (p : string) : bool :=
  bool_decide (is_Some (files fs !! p)) || bool_decide (p ∈ dirs fs).

Definition writeFileSync (fs : FileSystem) (p content : string) : option FileSystem :=
  if bool_decide (p ∈ readonly fs) then None
  else Some (FileSystem_ (<[p := content]> (files fs)) (dirs fs) (readonly fs)).

Definition mkdirSync (fs : FileSystem) (p : string) : option FileSystem :=
  if bool_decide (p ∈ readonly fs) then None
  else Some (FileSystem_ (files fs) ({[p]} ∪ dirs fs) (readonly fs)).

End Fs.

(** ** Fix records and their store ([types], [storage/index]) *)

Module Storage.
Import Js.

Inductive FixStatus := pending | confirmed | rejected | applied | failed.

Inductive ConfirmAction := approve | reject | modify.

(** [FixSuggestion] without [impact] and [alternatives], which the tools
    modelled here never read. *)
Record FixSuggestion := FixSuggestion_ {
  fx_id : string;
  fx_issueId : string;
  fx_title : string;
  fx_description : string;
  fx_confidence : nat;
  fx_file : string;
  fx_line : Z;
  fx_originalCode : string;
  fx_suggestedCode : string;
  fx_diff : string;
  fx_status : FixStatus;
  fx_createdAt : string;
  fx_confirmedAt : option string;
  fx_appliedAt : option string }.

Record FixConfirmation := FixConfirmation_ {
  cf_fixId : string;
  cf_action : ConfirmAction;
  cf_modifiedCode : option string;
  cf_reason : option string;
  cf_confirmedAt : string }.

Record FixApplication := FixApplication_ {
  ap_fixId : string;
  ap_success : bool;
  ap_backupPath : option string;
  ap_error : option string;
  ap_appliedAt : string }.

Record StoredFix := StoredFix_ {
  sf_fix : FixSuggestion;
  sf_confirmation : option FixConfirmation;
  sf_application : option FixApplication;
  sf_projectPath : string;
  sf_createdAt : string;
  sf_updatedAt : string }.

#[global] Instance FixStatus_eq_dec : EqDecision FixStatus.
Proof. solve_decision. Defined.

#[global] Instance ConfirmAction_eq_dec : EqDecision ConfirmAction.
Proof. solve_decision. Defined.

(** [new Date().toISOString()] at the instant [now] (milliseconds). *)
Definition toISOString (now : nat) : string := show_nat now.

Definition set_status (st : FixStatus) (f : FixSuggestion) : FixSuggestion :=
  FixSuggestion_ (fx_id f) (fx_issueId f) (fx_title f) (fx_description f)
    (fx_confidence f) (fx_file f) (fx_line f) (fx_originalCode f)
    (fx_suggestedCode f) (fx_diff f) st (fx_createdAt f)
    (fx_confirmedAt f) (fx_appliedAt f).

Definition set_confirmedAt (t : string) (f : FixSuggestion) : FixSuggestion :=
  FixSuggestion_ (fx_id f) (fx_issueId f) (fx_title f) (fx_description f)
    (fx_confidence f) (fx_file f) (fx_line f) (fx_originalCode f)
    (fx_suggestedCode f) (fx_diff f) (fx_status f) (fx_createdAt f)
    (Some t) (fx_appliedAt f).

Definition set_appliedAt (t : string) (f : FixSuggestion) : FixSuggestion :=
  FixSuggestion_ (fx_id f) (fx_issueId f) (fx_title f) (fx_description f)
    (fx_confidence f) (fx_file f) (fx_line f) (fx_originalCode f)
    (fx_suggestedCode f) (fx_diff f) (fx_status f) (fx_createdAt f)
    (fx_confirmedAt f) (Some t).

Definition has_id (id : string) (f : StoredFix) : bool :=
  String.eqb (fx_id (sf_fix f)) id.

(** [fixes.find(f => f.fix.id === id)] *)
Definition getFixById (fixes : list StoredFix) (id : string) : option StoredFix :=
  List.find (has_id id) fixes.

(** In-place change of the record that [find] returns. *)
Fixpoint update_found (id : string) (g : StoredFix -> StoredFix)
    (fixes : list StoredFix) : list StoredFix :=
  match fixes with
  | [] => []
  | f :: fs => if has_id id f then g f :: fs else f :: update_found id g fs
  end.

Definition updateFixConfirmation (fixes : list StoredFix) (fixId : string)
    (confirmation : FixConfirmation) (now : nat) : list StoredFix * bool :=
  match getFixById fixes fixId with
  | Some _ =>
      (update_found fixId (fun f =>
         StoredFix_
           (set_confirmedAt (cf_confirmedAt confirmation)
              (set_status (if decide (cf_action confirmation = approve)
                           then confirmed else rejected) (sf_fix f)))
           (Some confirmation) (sf_application f)
           (sf_projectPath f) (sf_createdAt f) (toISOString now)) fixes, true)
  | None => (fixes, false)
  end.

Definition updateFixApplication (fixes : list StoredFix) (fixId : string)
    (application : FixApplication) (now : nat) : list StoredFix * bool :=
  match getFixById fixes fixId with
  | Some _ =>
      (update_found fixId (fun f =>
         StoredFix_
           (set_appliedAt (ap_appliedAt application)
              (set_status (if ap_success application then applied else failed)
                          (sf_fix f)))
           (sf_confirmation f) (Some application)
           (sf_projectPath f) (sf_createdAt f) (toISOString now)) fixes, true)
  | None => (fixes, false)
  end.

Definition getFixes (fixes : list StoredFix) (projectPath : option string)
    : list StoredFix :=
  if truthy projectPath
  then List.filter (fun f => strict_eq (Some (sf_projectPath f)) projectPath) fixes
  else fixes.

Definition getPendingFixes (fixes : list StoredFix) (projectPath : option string)
    : list StoredFix :=
  List.filter (fun f => bool_decide (fx_status (sf_fix f) = pending))
              (getFixes fixes projectPath).

Definition getConfirmedFixes (fixes : list StoredFix) (projectPath : option string)
    : list StoredFix :=
  List.filter (fun f => bool_decide (fx_status (sf_fix f) = confirmed))
              (getFixes fixes projectPath).

End Storage.

(** ** Confirming, applying and rolling back a fix ([tools/fix]) *)

Module FixTools.
Import Js Diff Fs Storage.

(** The state the tools act on: the project files and the fix store. *)
Record World := World_ { fs : FileSystem; fixes : list StoredFix }.

(** A call either returns a result or lets an exception escape. *)
Inductive outcome (A : Type) :=
| Returned (result : A) (w : World)
| Threw (w : World).
Arguments Returned {A} result w.
Arguments Threw {A} w.

Definition world_of {A} (o : outcome A) : World :=
  match o with Returned _ w => w | Threw w => w end.

Definition result_of {A} (o : outcome A) : option A :=
  match o with Returned r _ => Some r | Threw _ => None end.

(** *** confirmFix *)

Record ConfirmFixParams := ConfirmFixParams_ {
  cp_fixId : string;
  cp_action : ConfirmAction;
  cp_modifiedCode : option string;
  cp_reason : option string }.

Record ConfirmFixResult := ConfirmFixResult_ {
  cr_success : bool;
  cr_confirmation : FixConfirmation;
  cr_fix : option FixSuggestion;
  cr_message : string }.

Definition confirmFix (params : ConfirmFixParams) (now : nat) (w : World)
    : ConfirmFixResult * World :=
  let '(ConfirmFixParams_ fixId action modifiedCode reason) := params in
  match getFixById (fixes w) fixId with
  | None =>
      (ConfirmFixResult_ false
         (FixConfirmation_ fixId action None None (toISOString now))
         None ("Fix not found: " +:+ fixId), w)
  | Some storedFix =>
      let confirmation :=
        FixConfirmation_ fixId action modifiedCode reason (toISOString now) in
      let '(fixes', updated) :=
        updateFixConfirmation (fixes w) fixId confirmation now in
      if negb updated then
        (ConfirmFixResult_ false confirmation (Some (sf_fix storedFix))
           "Failed to update fix confirmation", World_ (fs w) fixes')
      else
        let title := fx_title (sf_fix storedFix) in
        let message :=
          match action with
          | approve => "Fix approved: " +:+ title +:+ ". Ready to apply."
          | reject =>
              "Fix rejected: " +:+ title +:+ ". "
              +:+ (if truthy reason then tmpl reason else "No reason provided")
          | modify => "Fix modified: " +:+ title +:+ ". Using custom code."
          end in
        (ConfirmFixResult_ true confirmation (Some (sf_fix storedFix)) message,
         World_ (fs w) fixes')
  end.

(** *** validateSyntax *)

Definition validateSyntax (filePath content : string) : option string :=
  let ext := extname filePath in
  if String.eqb ext ".js" || String.eqb ext ".jsx"
     || String.eqb ext ".ts" || String.eqb ext ".tsx" then
    let openBraces := count_char "{" content in
    let closeBraces := count_char "}" content in
    if negb (openBraces =? closeBraces) then Some "Unbalanced braces"
    else
      let openParens := count_char "(" content in
      let closeParens := count_char ")" content in
      if negb (openParens =? closeParens) then Some "Unbalanced parentheses"
      else None
  else None.

(** *** applyFix *)

Record ApplyFixParams := ApplyFixParams_ {
  pp_fixId : string;
  pp_backup : option bool;
  pp_validate : option bool;
  pp_dryRun : option bool }.

Record ApplyFixResult := ApplyFixResult_ {
  ar_success : bool;
  ar_application : FixApplication;
  ar_backupPath : option string;
  ar_error : option string;
  ar_diff : option string }.

Definition notFoundError (fixId : string) : string := "Fix not found: " +:+ fixId.
Definition notConfirmedError : string := "Fix must be confirmed before applying".
Definition readError (file : string) : string := "Failed to read file: " +:+ file.
Definition writeError : string := "Failed to write file: EACCES".
Definition validationError (e : string) : string := "Syntax validation failed: " +:+ e.

Definition failure (fixId : string) (backupPath : option string) (error : string)
    (now : nat) : ApplyFixResult :=
  ApplyFixResult_ false
    (FixApplication_ fixId false backupPath (Some error) (toISOString now))
    None (Some error) None.

(** Does [originalCodeLines] match the trimmed lines of the window at [i]? *)
Definition windowMatches (lines originalCodeLines : list string) (i : nat) : bool :=
  forallb (fun j =>
             negb ((length lines <=? i + j)
                   || negb (strict_eq (trim <$> lines !! (i + j))
                                      (trim <$> originalCodeLines !! j))))
          (seq 0 (length originalCodeLines)).

(** The first [i] whose window matches, or [-1]. *)
Definition findStartLine (lines originalCodeLines : list string) : Z :=
  match List.find (windowMatches lines originalCodeLines) (seq 0 (length lines)) with
  | Some i => Z.of_nat i
  | None => (-1)%Z
  end.

Definition codeToApply (storedFix : StoredFix) : string :=
  match sf_confirmation storedFix with
  | Some c =>
      if bool_decide (cf_action c = modify) && truthy (cf_modifiedCode c)
      then tmpl (cf_modifiedCode c)
      else fx_suggestedCode (sf_fix storedFix)
  | None => fx_suggestedCode (sf_fix storedFix)
  end.

(** The new content: [code] spliced into [originalContent] where
    [originalCode] is found, or else around the reported [line]. *)
Definition spliceContent (originalCode : string) (line : Z)
    (code originalContent : string) : string :=
  let lines := split_lines originalContent in
  let originalCodeLines := split_lines originalCode in
  let newCodeLines := split_lines code in
  let startLine := findStartLine lines originalCodeLines in
  let startLine :=
    if (startLine =? -1)%Z then Z.max 0 (line - 2) else startLine in
  if (0 <=? startLine)%Z then
    let before := take (Z.to_nat startLine) lines in
    let after := drop (Z.to_nat startLine + length originalCodeLines) lines in
    join_lines (before ++ newCodeLines ++ after)
  else
    originalContent +:+ String LF (String LF "// TODO: Apply fix manually")
    +:+ String LF "// " +:+ String.concat (String LF "// ") newCodeLines.

(** The text [applyFix] is going to write, from the current content. *)
Definition newContentOf (storedFix : StoredFix) (originalContent : string) : string :=
  spliceContent (fx_originalCode (sf_fix storedFix)) (fx_line (sf_fix storedFix))
                (codeToApply storedFix) originalContent.

Definition backupDirOf (file : string) : string :=
  join (dirname file) ".test-genie-backups".

Definition backupPathOf (file : string) (now : nat) : string :=
  join (backupDirOf file) (basename file +:+ "." +:+ show_nat now +:+ ".bak").

(** The [try { ... } catch { console.warn }] that takes the backup: the
    file system after it and the value of [backupPath]. *)
Definition createBackup (fs0 : FileSystem) (file originalContent : string) (now : nat)
    : FileSystem * option string :=
  let backupDir := backupDirOf file in
  let made :=
    if negb (existsSync fs0 backupDir) then mkdirSync fs0 backupDir else Some fs0 in
  match made with
  | None => (fs0, None)
  | Some fs1 =>
      let backupPath := backupPathOf file now in
      match writeFileSync fs1 backupPath originalContent with
      | Some fs2 => (fs2, Some backupPath)
      | None => (fs1, Some backupPath)
      end
  end.

(** [if (backupPath && fs.existsSync(backupPath)) fs.writeFileSync(file, originalContent)] *)
Definition restoreFromBackup (fs0 : FileSystem) (backupPath : option string)
    (file originalContent : string) : option FileSystem :=
  if truthy backupPath && existsSync fs0 (tmpl backupPath)
  then writeFileSync fs0 file originalContent
  else Some fs0.

Definition applyFix (params : ApplyFixParams) (now : nat) (w : World)
    : outcome ApplyFixResult :=
  let fixId := pp_fixId params in
  let backup := default true (pp_backup params) in
  let validate := default true (pp_validate params) in
  let dryRun := default false (pp_dryRun params) in
  match getFixById (fixes w) fixId with
  | None => Returned (failure fixId None (notFoundError fixId) now) w
  | Some storedFix =>
      let fix_ := sf_fix storedFix in
      if negb (bool_decide (fx_status fix_ = confirmed))
         && negb (bool_decide (is_Some (sf_confirmation storedFix)))
      then Returned (failure fixId None notConfirmedError now) w
      else
        match readFileSync (fs w) (fx_file fix_) with
        | None => Returned (failure fixId None (readError (fx_file fix_)) now) w
        | Some originalContent =>
            let newContent := newContentOf storedFix originalContent in
            if dryRun then
              Returned
                (ApplyFixResult_ true
                   (FixApplication_ fixId true None None (toISOString now))
                   None None
                   (Some (generateUnifiedDiff originalContent newContent (fx_file fix_))))
                w
            else
              let '(fs1, backupPath) :=
                if backup then createBackup (fs w) (fx_file fix_) originalContent now
                else (fs w, None) in
              match writeFileSync fs1 (fx_file fix_) newContent with
              | None =>
                  match restoreFromBackup fs1 backupPath (fx_file fix_) originalContent with
                  | Some fs2 =>
                      Returned (failure fixId backupPath writeError now)
                               (World_ fs2 (fixes w))
                  | None => Threw (World_ fs1 (fixes w))
                  end
              | Some fs2 =>
                  match (if validate then validateSyntax (fx_file fix_) newContent
                         else None) with
                  | Some e =>
                      match restoreFromBackup fs2 backupPath (fx_file fix_) originalContent with
                      | Some fs3 =>
                          Returned (failure fixId backupPath (validationError e) now)
                                   (World_ fs3 (fixes w))
                      | None => Threw (World_ fs2 (fixes w))
                      end
                  | None =>
                      let application :=
                        FixApplication_ fixId true backupPath None (toISOString now) in
                      let '(fixes', _) :=
                        updateFixApplication (fixes w) fixId application now in
                      Returned
                        (ApplyFixResult_ true application backupPath None
                           (Some (generateUnifiedDiff originalContent newContent
                                    (fx_file fix_))))
                        (World_ fs2 fixes')
                  end
              end
        end
  end.

(** *** rollbackFix *)

Record RollbackResult := RollbackResult_ { rb_success : bool; rb_message : string }.

Definition rollbackFix (fixId : string) (w : World) : RollbackResult * World :=
  match getFixById (fixes w) fixId with
  | None => (RollbackResult_ false "Fix or application record not found", w)
  | Some storedFix =>
      match sf_application storedFix with
      | None => (RollbackResult_ false "Fix or application record not found", w)
      | Some application =>
          if negb (truthy (ap_backupPath application)) then
            (RollbackResult_ false "No backup available for rollback", w)
          else
            match readFileSync (fs w) (tmpl (ap_backupPath application)) with
            | None => (RollbackResult_ false "Rollback failed: ENOENT", w)
            | Some backupContent =>
                match writeFileSync (fs w) (fx_file (sf_fix storedFix)) backupContent with
                | None => (RollbackResult_ false "Rollback failed: EACCES", w)
                | Some fs' =>
                    (RollbackResult_ true
                       ("Successfully rolled back " +:+ fx_file (sf_fix storedFix)),
                     World_ fs' (fixes w))
                end
            end
      end
  end.

End FixTools.

(** ** The calls [applyFix] makes to the file system, in their order *)

Module Trace.
Import Js Diff Fs Storage FixTools.

(** A call of [fs] that returned, that is, one that changed the file
    system. *)
Inductive FsCall :=
| MkdirCall (p : string)
| WriteCall (p content : string).




Definition mkdirSyncL (fs0 : FileSystem) (p : string) : option FileSystem * list FsCall :=
  match mkdirSync fs0 p with
  | Some fs1 => (Some fs1, [MkdirCall p])
  | None => (None, [])
  end.




End Trace.

(** ** UTF-8

    The tools read and write files as UTF-8 text. In the modules above a
    file is the text read from it. Here a file is its bytes: reading
    decodes them, and a text is held as the bytes that writing it
    produces. *)

Module Utf8.
Import Js.

(** The bytes of a file are held as a string of 8-bit characters. *)
Definition byte (n : N) : ascii := ascii_of_N n.

(** What a byte is at the start of a character: one character by itself
    (00 to 7F), the first of two, three or four bytes (C2 to F4), which
    come with the number of bytes still needed and the range the next
    byte must lie in, or a byte that cannot start a character. *)
Inductive lead :=
| One (point : N)
| More (point : N) (needed : nat) (lower upper : N)
| Bad.

Definition classify (b : N) : lead :=
  if (b <=? 0x7F)%N then One b
  else if (0xC2 <=? b)%N && (b <=? 0xDF)%N then More (N.land b 0x1F) 1 0x80 0xBF
  else if (0xE0 <=? b)%N && (b <=? 0xEF)%N then
    More (N.land b 0xF) 2 (if (b =? 0xE0)%N then 0xA0 else 0x80)
         (if (b =? 0xED)%N then 0x9F else 0xBF)
  else if (0xF0 <=? b)%N && (b <=? 0xF4)%N then
    More (N.land b 0x7) 3 (if (b =? 0xF0)%N then 0x90 else 0x80)
         (if (b =? 0xF4)%N then 0x8F else 0xBF)
  else Bad.

(** The replacement character. *)
Definition replacement : N := 0xFFFD%N.

(** The UTF-8 decoder of [buffer.toString('utf-8')]: the code points of
    the bytes, with U+FFFD for every run of bytes that is not the
    beginning of a character; the byte that broke a run is read again as
    the start of the next character. [pending] is the character under
    way: the bits read, the bytes still needed and the range of the next
    byte. *)
Fixpoint decode (pending : option (N * nat * N * N)) (bytes : string) : list N :=
  match bytes with
  | EmptyString =>
      match pending with
      | Some _ => [replacement]
      | None => []
      end
  | String c rest =>
      let b := N_of_ascii c in
      let fresh :=
        match classify b with
        | One point => point :: decode None rest
        | More point needed lower upper => decode (Some (point, needed, lower, upper)) rest
        | Bad => replacement :: decode None rest
        end in
      match pending with
      | None => fresh
      | Some (point, needed, lower, upper) =>
          if (lower <=? b)%N && (b <=? upper)%N then
            let point := N.lor (N.shiftl point 6) (N.land b 0x3F) in
            match needed with
            | S (S needed') => decode (Some (point, S needed', 0x80, 0xBF)%N) rest
            | _ => point :: decode None rest
            end
          else replacement :: fresh
      end
  end.

Definition utf8_decode (bytes : string) : list N := decode None bytes.

(** The bytes of one code point. *)
Definition encode_point (p : N) : string :=
  let tail k := byte (N.lor 0x80 (N.land (N.shiftr p k) 0x3F)) in
  if (p <? 0x80)%N then String (byte p) ""
  else if (p <? 0x800)%N then
    String (byte (N.lor 0xC0 (N.shiftr p 6))) (String (tail 0%N) "")
  else if (p <? 0x10000)%N then
    String (byte (N.lor 0xE0 (N.shiftr p 12))) (String (tail 6%N) (String (tail 0%N) ""))
  else
    String (byte (N.lor 0xF0 (N.shiftr p 18)))
           (String (tail 12%N) (String (tail 6%N) (String (tail 0%N) ""))).

Definition utf8_encode (points : list N) : string :=
  String.concat "" (map encode_point points).

(** The text [fs.readFileSync(p, 'utf-8')] returns for a file with these
    bytes, held as the bytes [fs.writeFileSync] writes for it. *)
Definition readText (bytes : string) : string := utf8_encode (utf8_decode bytes).

(** White space and line ends, as [trim()] knows them. *)
Definition is_space_point (p : N) : bool :=
  ((0x9 <=? p) && (p <=? 0xD) || (p =? 0x20) || (p =? 0xA0) || (p =? 0x1680)
   || (0x2000 <=? p) && (p <=? 0x200A) || (p =? 0x2028) || (p =? 0x2029)
   || (p =? 0x202F) || (p =? 0x205F) || (p =? 0x3000) || (p =? 0xFEFF))%N.

Fixpoint trim_start_points (l : list N) : list N :=
  match l with
  | p :: l' => if is_space_point p then trim_start_points l' else l
  | [] => []
  end.

Definition trim_points (l : list N) : list N :=
  rev (trim_start_points (rev (trim_start_points l))).

(** [s.trim()] on a text held as UTF-8. *)
Definition trimText (s : string) : string := utf8_encode (trim_points (utf8_decode s)).

(** Well-formed UTF-8, by the table of the Unicode standard (table 3-7):
    00..7F | C2..DF 80..BF | E0 A0..BF 80..BF | E1..EC 80..BF 80..BF
    | ED 80..9F 80..BF | EE..EF 80..BF 80..BF | F0 90..BF 80..BF 80..BF
    | F1..F3 80..BF 80..BF 80..BF | F4 80..8F 80..BF 80..BF. *)
Definition between (lo hi : N) (c : ascii) : bool :=
  ((lo <=? N_of_ascii c) && (N_of_ascii c <=? hi))%N.

Definition continuation : ascii -> bool := between 0x80 0xBF.

Definition two (c1 : ascii) : bool := between 0xC2 0xDF c1.

Definition three (c1 c2 : ascii) : bool :=
  between 0xE0 0xE0 c1 && between 0xA0 0xBF c2
  || between 0xE1 0xEC c1 && continuation c2
  || between 0xED 0xED c1 && between 0x80 0x9F c2
  || between 0xEE 0xEF c1 && continuation c2.

Definition four (c1 c2 : ascii) : bool :=
  between 0xF0 0xF0 c1 && between 0x90 0xBF c2
  || between 0xF1 0xF3 c1 && continuation c2
  || between 0xF4 0xF4 c1 && between 0x80 0x8F c2.

Fixpoint wellFormed (bytes : string) : bool :=
  match bytes with
  | EmptyString => true
  | String c1 r1 =>
      if between 0x00 0x7F c1 then wellFormed r1
      else
        match r1 with
        | EmptyString => false
        | String c2 r2 =>
            if two c1 then continuation c2 && wellFormed r2
            else
              match r2 with
              | EmptyString => false
              | String c3 r3 =>
                  if three c1 c2 then continuation c3 && wellFormed r3
                  else
                    match r3 with
                    | EmptyString => false
                    | String c4 r4 =>
                        four c1 c2 && continuation c3 && continuation c4
                        && wellFormed r4
                    end
              end
        end
  end.

End Utf8.


(** ** The fix tools on the bytes of the files *)

Module OnDisk.
Import Js Diff Fs Storage FixTools Utf8.

Section Tools.

(** The text the tools get for the bytes of a file, and [trim()] on a
    line of such a text. *)
Variable decode : string -> string.
Variable trimLine : string -> string.

(** [fs.readFileSync(p, 'utf-8')] *)
Definition readFileSyncWith (fs0 : FileSystem) (p : string) : option string :=
  decode <$> files fs0 !! p.

Definition windowMatchesWith (lines originalCodeLines : list string) (i : nat) : bool :=
  forallb (fun j =>
             negb ((length lines <=? i + j)
                   || negb (strict_eq (trimLine <$> lines !! (i + j))
                                      (trimLine <$> originalCodeLines !! j))))
          (seq 0 (length originalCodeLines)).

Definition findStartLineWith (lines originalCodeLines : list string) : Z :=
  match List.find (windowMatchesWith lines originalCodeLines) (seq 0 (length lines)) with
  | Some i => Z.of_nat i
  | None => (-1)%Z
  end.

Definition spliceContentWith (originalCode : string) (line : Z)
    (code originalContent : string) : string :=
  let lines := split_lines originalContent in
  let originalCodeLines := split_lines originalCode in
  let newCodeLines := split_lines code in
  let startLine := findStartLineWith lines originalCodeLines in
  let startLine :=
    if (startLine =? -1)%Z then Z.max 0 (line - 2) else startLine in
  if (0 <=? startLine)%Z then
    let before := take (Z.to_nat startLine) lines in
    let after := drop (Z.to_nat startLine + length originalCodeLines) lines in
    join_lines (before ++ newCodeLines ++ after)
  else
    originalContent +:+ String LF (String LF "// TODO: Apply fix manually")
    +:+ String LF "// " +:+ String.concat (String LF "// ") newCodeLines.

Definition newContentOfWith (storedFix : StoredFix) (originalContent : string) : string :=
  spliceContentWith (fx_originalCode (sf_fix storedFix)) (fx_line (sf_fix storedFix))
                    (codeToApply storedFix) originalContent.

Definition applyFixWith (params : ApplyFixParams) (now : nat) (w : World)
    : outcome ApplyFixResult :=
  let fixId := pp_fixId params in
  let backup := default true (pp_backup params) in
  let validate := default true (pp_validate params) in
  let dryRun := default false (pp_dryRun params) in
  match getFixById (fixes w) fixId with
  | None => Returned (failure fixId None (notFoundError fixId) now) w
  | Some storedFix =>
      let fix_ := sf_fix storedFix in
      if negb (bool_decide (fx_status fix_ = confirmed))
         && negb (bool_decide (is_Some (sf_confirmation storedFix)))
      then Returned (failure fixId None notConfirmedError now) w
      else
        match readFileSyncWith (fs w) (fx_file fix_) with
        | None => Returned (failure fixId None (readError (fx_file fix_)) now) w
        | Some originalContent =>
            let newContent := newContentOfWith storedFix originalContent in
            if dryRun then
              Returned
                (ApplyFixResult_ true
                   (FixApplication_ fixId true None None (toISOString now))
                   None None
                   (Some (generateUnifiedDiff originalContent newContent (fx_file fix_))))
                w
            else
              let '(fs1, backupPath) :=
                if backup then createBackup (fs w) (fx_file fix_) originalContent now
                else (fs w, None) in
              match writeFileSync fs1 (fx_file fix_) newContent with
              | None =>
                  match restoreFromBackup fs1 backupPath (fx_file fix_) originalContent with
                  | Some fs2 =>
                      Returned (failure fixId backupPath writeError now)
                               (World_ fs2 (fixes w))
                  | None => Threw (World_ fs1 (fixes w))
                  end
              | Some fs2 =>
                  match (if validate then validateSyntax (fx_file fix_) newContent
                         else None) with
                  | Some e =>
                      match restoreFromBackup fs2 backupPath (fx_file fix_) originalContent with
                      | Some fs3 =>
                          Returned (failure fixId backupPath (validationError e) now)
                                   (World_ fs3 (fixes w))
                      | None => Threw (World_ fs2 (fixes w))
                      end
                  | None =>
                      let application :=
                        FixApplication_ fixId true backupPath None (toISOString now) in
                      let '(fixes', _) :=
                        updateFixApplication (fixes w) fixId application now in
                      Returned
                        (ApplyFixResult_ true application backupPath None
                           (Some (generateUnifiedDiff originalContent newContent
                                    (fx_file fix_))))
                        (World_ fs2 fixes')
                  end
              end
        end
  end.

Definition rollbackFixWith (fixId : string) (w : World) : RollbackResult * World :=
  match getFixById (fixes w) fixId with
  | None => (RollbackResult_ false "Fix or application record not found", w)
  | Some storedFix =>
      match sf_application storedFix with
      | None => (RollbackResult_ false "Fix or application record not found", w)
      | Some application =>
          if negb (truthy (ap_backupPath application)) then
            (RollbackResult_ false "No backup available for rollback", w)
          else
            match readFileSyncWith (fs w) (tmpl (ap_backupPath application)) with
            | None => (RollbackResult_ false "Rollback failed: ENOENT", w)
            | Some backupContent =>
                match writeFileSync (fs w) (fx_file (sf_fix storedFix)) backupContent with
                | None => (RollbackResult_ false "Rollback failed: EACCES", w)
                | Some fs' =>
                    (RollbackResult_ true
                       ("Successfully rolled back " +:+ fx_file (sf_fix storedFix)),
                     World_ fs' (fixes w))
                end
            end
      end
  end.

End Tools.

(** The tools on the bytes of the files: a file is read as UTF-8, and
    every text is held as its UTF-8 bytes, which is what is written. *)
Definition readFileSync : FileSystem -> string -> option string :=
  readFileSyncWith readText.

Definition applyFix : ApplyFixParams -> nat -> World -> outcome ApplyFixResult :=
  applyFixWith readText trimText.

Definition rollbackFix : string -> World -> RollbackResult * World :=
  rollbackFixWith readText.


End OnDisk.

(** ** Detection rules and the leak fix template *)

Module Detection.
Import Js Regex.

Inductive Platform := ios | android | flutter | react_native | web.

Inductive Severity := critical | high | medium | low | info.

Inductive IssueType :=
| memory_leak | retain_cycle | unclosed_resource | race_condition
| state_inconsistency | null_reference | type_mismatch | unhandled_error
| performance_bottleneck | unused_code | deprecated_api | security_vulnerability.

#[global] Instance Platform_eq_dec : EqDecision Platform.
Proof. solve_decision. Defined.
#[global] Instance Severity_eq_dec : EqDecision Severity.
Proof. solve_decision. Defined.
#[global] Instance IssueType_eq_dec : EqDecision IssueType.
Proof. solve_decision. Defined.

(** [DetectedIssue] with the fields [MemoryLeakInfo] and [LogicErrorInfo] add. *)
Record DetectedIssue := DetectedIssue_ {
  is_id : string;
  is_type : IssueType;
  is_severity : Severity;
  is_title : string;
  is_description : string;
  is_file : string;
  is_line : Z;
  is_code : option string;
  is_objectType : option string;
  is_retainCycle : option (list string);
  is_context : option string;
  is_possibleCause : option string;
  is_reproducibility : option string;
  is_suggestion : option string;
  is_detectedAt : string }.

(** *** Effects of a rule: fresh ids, the clock, and loops that may not end

    [uuidv4()] and [new Date()] are answered by two oracles, read in the
    order of the calls. A computation yields [None] when one of its loops
    over the matches of a pattern never ends. *)

Record Env := Env_ {
  uuidSource : nat -> string;
  dateSource : nat -> string;
  uuidCalls : nat;
  dateCalls : nat }.

Definition M (A : Type) : Type := Env -> option (A * Env).

Definition ret {A} (a : A) : M A := fun e => Some (a, e).

Definition bind {A B} (m : M A) (f : A -> M B) : M B :=
  fun e => match m e with Some (a, e') => f a e' | None => None end.

Notation "'perform' x <- m ; k" := (bind m (fun x => k))
  (at level 10, x name, m at level 100, k at level 200).

Definition uuidv4 : M string :=
  fun e => Some (uuidSource e (uuidCalls e),
                 Env_ (uuidSource e) (dateSource e) (S (uuidCalls e)) (dateCalls e)).

Definition newDateISO : M string :=
  fun e => Some (dateSource e (dateCalls e),
                 Env_ (uuidSource e) (dateSource e) (uuidCalls e) (S (dateCalls e))).

(** The matches of a global pattern, or no answer. *)
Definition allMatches (r : regex) (content : string) : M (list matched) :=
  fun e => match matches r content with Some ms => Some (ms, e) | None => None end.

(** [for (const m of ms) issues.push(...body(m))] *)
Fixpoint forEach {A B} (body : A -> M (list B)) (xs : list A) : M (list B) :=
  match xs with
  | [] => ret []
  | x :: xs' => perform ys <- body x ; perform zs <- forEach body xs' ; ret (ys ++ zs)
  end.

(** [content.substring(0, index).split('\n').length] *)
Definition lineOf (content : string) (index : nat) : Z :=
  Z.of_nat (length (split_lines (take_string index content))).

(** [lines.findIndex(p)] *)
Fixpoint findIndex (p : string -> bool) (lines : list string) : Z :=
  match lines with
  | [] => (-1)%Z
  | l :: ls =>
      if p l then 0%Z
      else match findIndex p ls with
           | Z.neg _ => (-1)%Z
           | k => (k + 1)%Z
           end
  end.

(** [lines[lineNum - 1]?.trim()] *)
Definition codeAt (lines : list string) (lineNum : Z) : option string :=
  if (1 <=? lineNum)%Z then trim <$> lines !! Z.to_nat (lineNum - 1) else None.

(** *** analyzeReactMemoryLeaks (detectMemoryLeaks) *)

(** The pattern, token by token, with the flags [gs]:
    [useEffect \s* \( \s* \( \s* \) \s* => \s* \{ ( [^}]* (?: \{ [^}]* \} [^}]* )* ) \}] *)
Definition effectPattern : regex :=
  seqs [lit "useEffect"; star space; Chr "("; star space; Chr "("; star space;
        Chr ")"; star space; lit "=>"; star space; Chr "{";
        Group 1 (Seq (star (notChr "}"))
                     (star (seqs [Chr "{"; star (notChr "}"); Chr "}";
                                  star (notChr "}")])));
        Chr "}"].

Definition needsCleanup (effectBody : string) : bool :=
  includes effectBody "addEventListener" || includes effectBody "subscribe"
  || includes effectBody "setInterval" || includes effectBody "setTimeout"
  || includes effectBody "WebSocket".

Definition objectTypeOf (effectBody : string) : string :=
  if includes effectBody "addEventListener" then "EventListener"
  else if includes effectBody "subscribe" then "Subscription"
  else if includes effectBody "setInterval" then "Interval"
  else if includes effectBody "setTimeout" then "Timeout"
  else if includes effectBody "WebSocket" then "WebSocket"
  else "Unknown".

Definition effectIssue (filePath content : string) (m : matched)
    : M (list DetectedIssue) :=
  let effectBody := group1 m in
  let hasCleanup := includes effectBody "return" in
  let lineNum := lineOf content (m_index m) in
  if needsCleanup effectBody && negb hasCleanup then
    let objectType := objectTypeOf effectBody in
    perform id <- uuidv4 ;
    perform detectedAt <- newDateISO ;
    ret [DetectedIssue_ id memory_leak high
           ("useEffect missing cleanup for " +:+ objectType)
           ("useEffect creates " +:+ objectType +:+ " but does not clean it up")
           filePath lineNum (Some (take_string 100 effectBody))
           (Some objectType) None None None None
           (Some ("Add return function to clean up " +:+ objectType))
           detectedAt]
  else ret [].

Definition analyzeReactMemoryLeaks (filePath content : string) (lines : list string)
    : M (list DetectedIssue) :=
  perform ms <- allMatches effectPattern content ;
  perform effects <- forEach (effectIssue filePath content) ms ;
  perform listeners <-
    (if includes content "addEventListener"
        && negb (includes content "removeEventListener") then
       let lineNum := (findIndex (fun l => includes l "addEventListener") lines + 1)%Z in
       perform id <- uuidv4 ;
       perform detectedAt <- newDateISO ;
       ret [DetectedIssue_ id memory_leak high
              "Event listener not removed"
              "Event listener is added but never removed"
              filePath lineNum (codeAt lines lineNum)
              (Some "EventListener") None None None None
              (Some "Add removeEventListener in cleanup function")
              detectedAt]
     else ret []) ;
  perform intervals <-
    (if includes content "setInterval"
        && negb (includes content "clearInterval") then
       let lineNum := (findIndex (fun l => includes l "setInterval") lines + 1)%Z in
       perform id <- uuidv4 ;
       perform detectedAt <- newDateISO ;
       ret [DetectedIssue_ id memory_leak high
              "Interval not cleared"
              "setInterval is used but interval is never cleared"
              filePath lineNum (codeAt lines lineNum)
              (Some "Interval") None None None None
              (Some "Store interval ID and call clearInterval in cleanup")
              detectedAt]
     else ret []) ;
  ret (effects ++ listeners ++ intervals).

(** [analyzeFileForMemoryLeaks] on the two React platforms. *)
Definition analyzeFileForReactLeaks (filePath content : string) : M (list DetectedIssue) :=
  analyzeReactMemoryLeaks filePath content (split_lines content).

(** *** detectNullReferences (detectLogicErrors) *)

(** [/(\w+)!\./g] *)
Definition forceUnwrapPattern : regex := seqs [Group 1 (plus word); Chr "!"; Chr "."].

(** [/(\w+)\?\.[a-zA-Z]+\s*\(/g] *)
Definition nullableAccessPattern : regex :=
  seqs [Group 1 (plus word); Chr "?"; Chr "."; plus (Class is_letter); star space; Chr "("].

(** [/if\s*\(\s*(\w+)\s*\)\s*\{[\s\S]*?\}\s*[\s\S]{0,50}?\1\./g] *)
Definition unsafeAccessPattern : regex :=
  seqs [lit "if"; star space; Chr "("; star space; Group 1 (plus word); star space;
        Chr ")"; star space; Chr "{"; lazy_star any; Chr "}"; star space;
        lazy_upto 50 any; Backref 1; Chr "."].

(** [/(\w+)!/g] *)
Definition swiftForceUnwrapPattern : regex := seqs [Group 1 (plus word); Chr "!"].

(** [/(\w+)!!/g] *)
Definition notNullPattern : regex := seqs [Group 1 (plus word); lit "!!"].

Definition logicIssue (id : string) (severity : Severity) (title description : string)
    (filePath : string) (lineNum : Z) (code : option string)
    (context possibleCause reproducibility suggestion detectedAt : string)
    : DetectedIssue :=
  DetectedIssue_ id null_reference severity title description filePath lineNum code
    None None (Some context) (Some possibleCause) (Some reproducibility)
    (Some suggestion) detectedAt.

Definition detectNullReferences (filePath content : string) (platform : Platform)
    : M (list DetectedIssue) :=
  let lines := split_lines content in
  perform webIssues <-
    (if bool_decide (platform = react_native) || bool_decide (platform = web) then
       perform ms <- allMatches forceUnwrapPattern content ;
       perform unwraps <- forEach (fun m =>
         let lineNum := lineOf content (m_index m) in
         perform id <- uuidv4 ;
         perform detectedAt <- newDateISO ;
         ret [logicIssue id medium "Non-null assertion operator"
                ("Force unwrap of " +:+ tmpl (capture 1 (m_groups m))
                 +:+ " may cause runtime error if null")
                filePath lineNum (codeAt lines lineNum)
                "Force unwrap" "Value may be null at runtime despite assertion"
                "intermittent" "Use optional chaining (?.) or proper null check"
                detectedAt]) ms ;
       perform _ <- allMatches nullableAccessPattern content ;
       perform ms <- allMatches unsafeAccessPattern content ;
       perform unsafe <- forEach (fun m =>
         let lineNum := lineOf content (m_index m) in
         let varName := capture 1 (m_groups m) in
         if negb (includes (m_text m) "return") && negb (includes (m_text m) "throw") then
           perform id <- uuidv4 ;
           perform detectedAt <- newDateISO ;
           ret [logicIssue id low "Potential unsafe access after null check"
                  (tmpl varName +:+ " accessed outside of null-check block")
                  filePath lineNum None
                  "Null check scope" "Variable may be null when accessed outside if block"
                  "always" "Ensure access is within null-check block or add guard clause"
                  detectedAt]
         else ret []) ms ;
       ret (unwraps ++ unsafe)
     else ret []) ;
  perform swiftIssues <-
    (if bool_decide (platform = ios) then
       perform ms <- allMatches swiftForceUnwrapPattern content ;
       forEach (fun m =>
         let lineNum := lineOf content (m_index m) in
         let varName := capture 1 (m_groups m) in
         let name := if truthy varName then tmpl varName else "" in
         if String.eqb name "try" || String.eqb name "as" || String.eqb name "NSObject"
         then ret []
         else
           perform id <- uuidv4 ;
           perform detectedAt <- newDateISO ;
           ret [logicIssue id medium "Force unwrap of optional"
                  ("Force unwrap of " +:+ tmpl varName +:+ " may cause crash if nil")
                  filePath lineNum (codeAt lines lineNum)
                  "Force unwrap" "Optional value may be nil at runtime"
                  "intermittent" "Use if let, guard let, or nil coalescing (??) instead"
                  detectedAt]) ms
     else ret []) ;
  perform kotlinIssues <-
    (if bool_decide (platform = android) then
       perform ms <- allMatches notNullPattern content ;
       forEach (fun m =>
         let lineNum := lineOf content (m_index m) in
         perform id <- uuidv4 ;
         perform detectedAt <- newDateISO ;
         ret [logicIssue id medium "Not-null assertion operator"
                ("Not-null assertion on " +:+ tmpl (capture 1 (m_groups m))
                 +:+ " may throw NPE")
                filePath lineNum (codeAt lines lineNum)
                "Not-null assertion" "Value may be null at runtime"
                "intermittent" "Use safe call (?.) or null check"
                detectedAt]) ms
     else ret []) ;
  ret (webIssues ++ swiftIssues ++ kotlinIssues).

(** *** Issues up to generated ids and timestamps *)

Definition erase (i : DetectedIssue) : DetectedIssue :=
  DetectedIssue_ "" (is_type i) (is_severity i) (is_title i) (is_description i)
    (is_file i) (is_line i) (is_code i) (is_objectType i) (is_retainCycle i)
    (is_context i) (is_possibleCause i) (is_reproducibility i) (is_suggestion i) "".

(** Two runs both end and find the same issues up to ids and timestamps,
    whatever the oracles answer. *)
Definition agree (m1 m2 : M (list DetectedIssue)) : Prop :=
  forall e1 e2,
    exists issues1 e1' issues2 e2',
      m1 e1 = Some (issues1, e1') /\ m2 e2 = Some (issues2, e2') /\
      map erase issues1 = map erase issues2.

(** Two runs of a rule, one under each of two oracles: both end, and their
    issues are the same up to [id] and [detectedAt]; in particular they
    are as many, in the same order, of the same kinds and on the same
    lines. *)
Definition sameIssues (rule : M (list DetectedIssue)) (env1 env2 : Env) : Prop :=
  exists issues1 env1' issues2 env2',
    rule env1 = Some (issues1, env1') /\
    rule env2 = Some (issues2, env2') /\
    map erase issues1 = map erase issues2 /\
    length issues1 = length issues2 /\
    map is_type issues1 = map is_type issues2 /\
    map is_line issues1 = map is_line issues2.

(** *** The code window and the leak fix template (suggestFixes) *)

(** The text [generateFixSuggestion] cuts out of the file around the issue. *)
Definition originalCodeAround (fileContent : string) (line : Z) : string :=
  let lines := split_lines fileContent in
  let startLine := Z.max 0 (line - 3) in
  let endLine := Z.min (Z.of_nat (length lines)) (line + 5) in
  join_lines (slice lines startLine endLine).

Record FixCode := FixCode_ {
  fc_original : string; fc_suggested : string; fc_confidence : nat }.

Definition nl : string := String LF EmptyString.

(** [/useEffect\s*\(\s*\(\s*\)\s*=>\s*\{/] *)
Definition effectHeadPattern : regex :=
  seqs [lit "useEffect"; star space; Chr "("; star space; Chr "("; star space;
        Chr ")"; star space; lit "=>"; star space; Chr "{"].

(** [/\}\s*,\s*\[/] *)
Definition effectTailPattern : regex :=
  seqs [Chr "}"; star space; Chr ","; star space; Chr "["].

(** [/(const\s+\w+\s*=\s*setInterval)/] *)
Definition intervalPattern : regex :=
  Group 1 (seqs [lit "const"; plus space; plus word; star space; Chr "=";
                 star space; lit "setInterval"]).

Definition generateMemoryLeakFix (issue : DetectedIssue) (platform : Platform)
    (originalCode : string) : option FixCode :=
  let suggested := originalCode in
  let confidence := 85 in
  let suggested :=
    if bool_decide (platform = react_native) || bool_decide (platform = web) then
      if includes (is_title issue) "useEffect" then
        if includes originalCode "addEventListener" then
          let suggested :=
            replace originalCode effectHeadPattern
              ("useEffect(() => {" +:+ nl
               +:+ "    const abortController = new AbortController();") in
          replace suggested effectTailPattern
            (nl +:+ "    return () => {" +:+ nl
             +:+ "      abortController.abort();" +:+ nl
             +:+ "      // Cleanup event listeners here" +:+ nl
             +:+ "    };" +:+ nl +:+ "  }, [")
        else if includes originalCode "setInterval" then
          let suggested := replaceWith originalCode intervalPattern group1 in
          if negb (includes suggested "return") then
            replace suggested effectTailPattern
              (nl +:+ "    return () => clearInterval(intervalId);" +:+ nl +:+ "  }, [")
          else suggested
        else if includes originalCode "subscribe" then
          replace originalCode effectTailPattern
            (nl +:+ "    return () => subscription.unsubscribe();" +:+ nl +:+ "  }, [")
        else suggested
      else suggested
    else suggested in
  let suggested :=
    if bool_decide (platform = ios) then
      let suggested :=
        if includes (is_title issue) "NotificationCenter"
           && negb (includes originalCode "removeObserver")
        then originalCode +:+ nl +:+ nl +:+ "    deinit {" +:+ nl
             +:+ "        NotificationCenter.default.removeObserver(self)" +:+ nl
             +:+ "    }"
        else suggested in
      if includes (is_title issue) "Timer"
         && negb (includes originalCode "invalidate")
      then originalCode +:+ nl +:+ nl +:+ "    deinit {" +:+ nl
           +:+ "        timer?.invalidate()" +:+ nl
           +:+ "        timer = nil" +:+ nl +:+ "    }"
      else suggested
    else suggested in
  let suggested :=
    if bool_decide (platform = flutter) then
      let suggested :=
        if includes (is_title issue) "StreamSubscription"
           && negb (includes originalCode "cancel")
        then originalCode +:+ nl +:+ nl +:+ "  @override" +:+ nl
             +:+ "  void dispose() {" +:+ nl
             +:+ "    subscription?.cancel();" +:+ nl
             +:+ "    super.dispose();" +:+ nl +:+ "  }"
        else suggested in
      if includes (is_title issue) "AnimationController"
         && negb (includes originalCode "dispose")
      then originalCode +:+ nl +:+ nl +:+ "  @override" +:+ nl
           +:+ "  void dispose() {" +:+ nl
           +:+ "    controller.dispose();" +:+ nl
           +:+ "    super.dispose();" +:+ nl +:+ "  }"
      else suggested
    else suggested in
  if String.eqb suggested originalCode then None
  else Some (FixCode_ originalCode suggested confidence).

End Detection.

(** ** Sequences of operations on the store *)

Module Lifecycle.
Import Storage FixTools.

Inductive Op :=
| OpConfirm (params : ConfirmFixParams) (now : nat)
| OpApply (params : ApplyFixParams) (now : nat)
| OpRollback (fixId : string).

Definition step (w : World) (op : Op) : World :=
  match op with
  | OpConfirm params now => snd (confirmFix params now w)
  | OpApply params now => world_of (applyFix params now w)
  | OpRollback fixId => snd (rollbackFix fixId w)
  end.

Definition runOps (ops : list Op) (w : World) : World := fold_left step ops w.

(** The statuses the three tools can leave in the store. *)
Definition reachable_status (st : FixStatus) : Prop :=
  st = pending \/ st = confirmed \/ st = rejected \/ st = applied.

Definition reachable_store (fixes : list StoredFix) : Prop :=
  Forall (fun sf => reachable_status (fx_status (sf_fix sf))) fixes.

End Lifecycle.

(** ** Concrete projects used in the examples *)

Module Examples.
Import Js Fs Storage FixTools Detection Lifecycle.

Definition exFile : string := "/app/src/Feed.ts".

Definition exContent : string :=
  "const a = load();" +:+ nl +:+ "const b = a!.value;" +:+ nl +:+ "render(b);".

(** A fix for the force unwrap on line 2 of [exFile], as [suggestFixes]
    stores it. *)
Definition exFix : FixSuggestion :=
  FixSuggestion_ "fix-1" "issue-1" "Fix: Non-null assertion operator"
    "Use optional chaining (?.) or proper null check" 85 exFile 2
    "const b = a!.value;" "const b = a?.value;"
    ("- const b = a!.value;" +:+ nl +:+ "+ const b = a?.value;")
    pending "t0" None None.

Definition exStored : StoredFix := StoredFix_ exFix None None "/app" "t0" "t0".

Definition exWorld : World :=
  World_ (FileSystem_ {[exFile := exContent]} ∅ ∅) [exStored].

(** The same fix, approved. *)
Definition exApproved : World :=
  snd (confirmFix (ConfirmFixParams_ "fix-1" approve None None) 10 exWorld).

Definition exApprovedStored : StoredFix :=
  default exStored (getFixById (fixes exApproved) "fix-1").

Definition exParams : ApplyFixParams := ApplyFixParams_ "fix-1" None None None.

(** The approved fix applied at instant 20. *)
Definition exApplyResult : ApplyFixResult :=
  default (failure "" None "" 0) (result_of (applyFix exParams 20 exApproved)).

Definition exApplied : World := world_of (applyFix exParams 20 exApproved).

(** A fix whose suggestion opens a brace it does not close, approved. *)
Definition exUnbalancedFix : FixSuggestion :=
  FixSuggestion_ "fix-2" "issue-1" "Fix: Non-null assertion operator"
    "Guard the access" 85 exFile 2
    "const b = a!.value;" "if (a) { const b = a.value;"
    "" pending "t0" None None.

Definition exUnbalanced : World :=
  snd (confirmFix (ConfirmFixParams_ "fix-2" approve None None) 10
         (World_ (FileSystem_ {[exFile := exContent]} ∅ ∅)
                 [StoredFix_ exUnbalancedFix None None "/app" "t0" "t0"])).

Definition exUnbalancedStored : StoredFix :=
  default exStored (getFixById (fixes exUnbalanced) "fix-2").

Definition exUnbalancedParams : ApplyFixParams :=
  ApplyFixParams_ "fix-2" None None None.

(** The file after somebody rewrote it: the line the fix was made for is
    gone. The fix is approved all the same. *)
Definition exDriftedContent : string :=
  "import { load } from './api';" +:+ nl +:+ "const c = load();" +:+ nl
  +:+ "render(c);".

Definition exDrifted : World :=
  snd (confirmFix (ConfirmFixParams_ "fix-1" approve None None) 10
         (World_ (FileSystem_ {[exFile := exDriftedContent]} ∅ ∅) [exStored])).

Definition exDriftedStored : StoredFix :=
  default exStored (getFixById (fixes exDrifted) "fix-1").

(** A session: an early apply, the approval, the apply, a rollback, a
    rejection and one more apply. *)
Definition exOps : list Op :=
  [OpApply exParams 5;
   OpConfirm (ConfirmFixParams_ "fix-1" approve None None) 10;
   OpApply exParams 20;
   OpRollback "fix-1";
   OpConfirm (ConfirmFixParams_ "fix-1" reject None (Some "not needed")) 30;
   OpApply exParams 40].

Definition exEnv : Env :=
  Env_ (fun n => "uuid-" +:+ show_nat n) (fun n => "2024-01-01T00:00:0" +:+ show_nat n) 0 0.

(** Scenario 1 of the specification, alone and inside a component. *)
Definition exEffect : string :=
  "useEffect(() => { const s = api.subscribe(); }, [])".

Definition exComponent : string :=
  "import { useEffect } from 'react';" +:+ nl
  +:+ "export function Feed() {" +:+ nl
  +:+ "  " +:+ exEffect +:+ nl
  +:+ "}".

(** The example file with a comment in Latin-1, where the byte E9 is not
    UTF-8, and the same file in UTF-8; the fix is approved in both. *)
Definition exLatin1Content : string :=
  "const a = load(); // caf" +:+ String (Utf8.byte 0xE9) "" +:+ nl
  +:+ "const b = a!.value;" +:+ nl +:+ "render(b);".

Definition exUtf8Content : string :=
  "const a = load(); // caf" +:+ String (Utf8.byte 0xC3) (String (Utf8.byte 0xA9) "") +:+ nl
  +:+ "const b = a!.value;" +:+ nl +:+ "render(b);".

Definition exLatin1 : World :=
  snd (confirmFix (ConfirmFixParams_ "fix-1" approve None None) 10
         (World_ (FileSystem_ {[exFile := exLatin1Content]} ∅ ∅) [exStored])).

Definition exUtf8 : World :=
  snd (confirmFix (ConfirmFixParams_ "fix-1" approve None None) 10
         (World_ (FileSystem_ {[exFile := exUtf8Content]} ∅ ∅) [exStored])).

Definition exUtf8Stored : StoredFix :=
  default exStored (getFixById (fixes exUtf8) "fix-1").

Definition exUtf8ApplyResult : ApplyFixResult :=
  default (failure "" None "" 0) (result_of (OnDisk.applyFix exParams 20 exUtf8)).

Definition exUtf8Applied : World := world_of (OnDisk.applyFix exParams 20 exUtf8).

End Examples.

(** ** Notions used in the statements and in the proofs *)

Module Notions.
Import Js Diff Patch Regex.

(** Lines a hunk removes and lines it adds. *)
Definition dels (hunk : list string) : list string :=
  omap (fun l => match l with String "-" s => Some s | _ => None end) hunk.

Definition adds (hunk : list string) : list string :=
  omap (fun l => match l with String "+" s => Some s | _ => None end) hunk.

Definition pm_line (l : string) : Prop :=
  startsWithChar "-" l || startsWithChar "+" l = true.

(** The lines [a..b) of a text. *)
Definition window (l : list string) (a b : nat) : list string := take (b - a) (drop a l).

(** What the [while] loop of the look-ahead diff still has to do. *)
Definition measure (o m : list string) (st : loopState) : nat :=
  (length o - ls_i st) + (length m - ls_j st).

(** Loop invariant of the look-ahead diff: patching with the lines already
    flushed has consumed the original up to [pos]; the pending hunk starts
    at [e], removes the original lines [e..i) and will add its [+] lines. *)
Definition Inv (o m : list string) (st : loopState) : Prop :=
  ls_i st <= length o /\ ls_j st <= length m /\
  Forall pm_line (ls_hunk st) /\
  exists h1 h2 body pos out e,
    ls_diff st = h1 :: h2 :: body /\
    patchLines (PatchState 0 o []) body = Some (PatchState pos (drop pos o) out) /\
    pos <= e <= ls_i st /\
    (ls_hunk st = [] -> e = ls_i st /\ ls_hunkStart st = (-1)%Z) /\
    (ls_hunk st <> [] -> ls_hunkStart st = Z.of_nat e) /\
    dels (ls_hunk st) = window o e (ls_i st) /\
    out ++ window o pos e ++ adds (ls_hunk st) = take (ls_j st) m.

(** A text without a line break. *)
Definition noLF (s : string) : Prop := count_char LF s = 0.

(** The least number of characters a match of the pattern takes. *)
Fixpoint minlen (r : regex) : nat :=
  match r with
  | Empty => 0
  | Chr _ => 1
  | Class _ => 1
  | Seq r1 r2 => minlen r1 + minlen r2
  | Rep _ min _ r' => min * minlen r'
  | Group _ r' => minlen r'
  | Backref _ => 0
  | Alt r1 r2 => Nat.min (minlen r1) (minlen r2)
  | NotAhead _ => 0
  | Assert _ => 0
  end.

(** A matcher that hands over to its continuation at least [n] characters
    further, inside the subject. *)
Definition progresses (n : nat)
    (step : cursor -> captures -> cont -> option (cursor * captures)) : Prop :=
  forall cur cs k res,
    step cur cs k = Some res ->
    exists cur' cs',
      k cur' cs' = Some res /\
      c_pos cur + n <= c_pos cur' /\
      c_pos cur' + String.length (c_rest cur') = c_pos cur + String.length (c_rest cur).

End Notions.

(** ** Notions used in the proofs about UTF-8 *)

Module Utf8Notions.
Import Utf8.

(** One byte through the decoder: the code points it gives out and the
    character under way afterwards. *)
Definition decodeByte (pending : option (N * nat * N * N)) (c : ascii)
    : list N * option (N * nat * N * N) :=
  let b := N_of_ascii c in
  let fresh :=
    match classify b with
    | One point => ([point], None)
    | More point needed lower upper => ([], Some (point, needed, lower, upper))
    | Bad => ([replacement], None)
    end in
  match pending with
  | None => fresh
  | Some (point, needed, lower, upper) =>
      if (lower <=? b)%N && (b <=? upper)%N then
        let point := N.lor (N.shiftl point 6) (N.land b 0x3F) in
        match needed with
        | S (S needed') => ([], Some (point, S needed', 0x80, 0xBF)%N)
        | _ => ([point], None)
        end
      else (replacement :: fresh.1, fresh.2)
  end.

Fixpoint decodeBytes (pending : option (N * nat * N * N)) (bytes : string)
    : list N * option (N * nat * N * N) :=
  match bytes with
  | EmptyString => ([], pending)
  | String c rest =>
      let step := decodeByte pending c in
      let more := decodeBytes step.2 rest in
      (step.1 ++ more.1, more.2)
  end.

(** The bits read when all bytes of a character but the last are in. *)
Definition bitsBeforeLast (bytes : string) : option N :=
  match decodeBytes None bytes with
  | ([], Some (q, 1, lower, upper)) =>
      if ((lower =? 0x80) && (upper =? 0xBF))%N then Some q else None
  | _ => None
  end.

(** The bytes of a code point but the last, from the bits above its last
    six. *)
Definition encodeHigh (q : N) : string :=
  let tail k := byte (N.lor 0x80 (N.land (N.shiftr q k) 0x3F)) in
  if (q <? 0x20)%N then String (byte (N.lor 0xC0 q)) ""
  else if (q <? 0x400)%N then
    String (byte (N.lor 0xE0 (N.shiftr q 6))) (String (tail 0%N) "")
  else
    String (byte (N.lor 0xF0 (N.shiftr q 12)))
           (String (tail 6%N) (String (tail 0%N) "")).

Definition leadOk (bytes : string) : bool :=
  match bitsBeforeLast bytes with
  | Some q => (2 <=? q)%N && String.eqb (encodeHigh q) bytes
  | None => false
  end.

Definition all_ascii : list ascii := map ascii_of_nat (seq 0 256).

End Utf8Notions.

(** ** Global replacement and patterns that ignore case *)

Module RegexOps.
Import Js Regex.

(** The matches [content.replace(pattern, ...)] collects for a pattern with
    the [g] flag: [exec] is called again from the [lastIndex] it left, and
    after an empty match [lastIndex] is moved one character on. *)
Fixpoint execGlobal (fuel : nat) (r : regex) (content : string) (lastIndex : nat)
    : list matched :=
  match fuel with
  | O => []
  | S fuel' =>
      match exec r content lastIndex with
      | None => []
      | Some m =>
          let next :=
            if m_lastIndex m =? m_index m then m_lastIndex m + 1 else m_lastIndex m in
          m :: execGlobal fuel' r content next
      end
  end.

(** [content.substring(a, b)] *)
Definition substring (a b : nat) (content : string) : string :=
  take_string (Nat.max a b - Nat.min a b) (drop_string (Nat.min a b) content).

(** The text [replace] builds from the matches: what lies between two
    matches is copied, a match is replaced, and a match that starts before
    the end of the one before it is skipped. *)
Fixpoint replaceMatches (content : string) (replacement : matched -> string)
    (ms : list matched) (nextSourcePosition : nat) : string :=
  match ms with
  | [] => drop_string nextSourcePosition content
  | m :: ms' =>
      if nextSourcePosition <=? m_index m
      then substring nextSourcePosition (m_index m) content +:+ replacement m
           +:+ replaceMatches content replacement ms'
                 (m_index m + String.length (m_text m))
      else replaceMatches content replacement ms' nextSourcePosition
  end.

(** [content.replace(pattern, replacement)] for a pattern with the [g] flag. *)
Definition replaceAllWith (content : string) (r : regex)
    (replacement : matched -> string) : string :=
  replaceMatches content replacement
    (execGlobal (String.length content + 1) r content 0) 0.

Definition replaceAll (content : string) (r : regex) (replacement : string) : string :=
  replaceAllWith content r (fun _ => replacement).

(** [$n] in a replacement text. *)
Definition group (n : nat) (m : matched) : string :=
  default EmptyString (capture n (m_groups m)).

(** [content.match(pattern)] for a pattern without the [g] flag. *)
Definition match_ (content : string) (r : regex) : option matched := exec r content 0.

(** Letters under the [i] flag. *)
Definition lower (c : ascii) : ascii :=
  let n := nat_of_ascii c in
  if (65 <=? n) && (n <=? 90) then ascii_of_nat (n + 32) else c.

Definition chr_i (c : ascii) : regex := Class (fun c' => Ascii.eqb (lower c') (lower c)).

Fixpoint lit_i (s : string) : regex :=
  match s with
  | String c EmptyString => chr_i c
  | String c s' => Seq (chr_i c) (lit_i s')
  | EmptyString => Empty
  end.

Definition opt (r : regex) : regex := Rep true 0 (Some 1) r.

End RegexOps.

(** ** The rest of the persistent store ([storage/index]) *)

Module StoreOps.
Import Js Storage Detection.

(** [list.findIndex(p)] together with the element found. *)
Fixpoint findEntry {A} (p : A -> bool) (l : list A) : option (nat * A) :=
  match l with
  | [] => None
  | x :: l' =>
      if p x then Some (0, x)
      else match findEntry p l' with
           | Some (k, y) => Some (S k, y)
           | None => None
           end
  end.

(** *** Fixes *)

Definition saveFix (fixes : list StoredFix) (fix_ : FixSuggestion) (projectPath : string)
    : M (list StoredFix) :=
  match findEntry (fun f => String.eqb (fx_id (sf_fix f)) (fx_id fix_)) fixes with
  | Some (existing, old) =>
      perform updatedAt <- newDateISO ;
      ret (<[existing := StoredFix_ fix_ (sf_confirmation old) (sf_application old)
                           projectPath (sf_createdAt old) updatedAt]> fixes)
  | None =>
      perform createdAt <- newDateISO ;
      perform updatedAt <- newDateISO ;
      ret (fixes ++ [StoredFix_ fix_ None None projectPath createdAt updatedAt])
  end.

Fixpoint saveFixes (fixes : list StoredFix) (fixList : list FixSuggestion)
    (projectPath : string) : M (list StoredFix) :=
  match fixList with
  | [] => ret fixes
  | fix_ :: rest =>
      perform fixes' <- saveFix fixes fix_ projectPath ;
      saveFixes fixes' rest projectPath
  end.

(** *** Detected issues *)

Record StoredIssue := StoredIssue_ {
  si_issue : DetectedIssue;
  si_projectPath : string;
  si_createdAt : string }.

Definition saveIssue (issues : list StoredIssue) (issue : DetectedIssue)
    (projectPath : string) : M (list StoredIssue) :=
  match findEntry (fun i => String.eqb (is_id (si_issue i)) (is_id issue)) issues with
  | Some (existing, old) =>
      ret (<[existing := StoredIssue_ issue projectPath (si_createdAt old)]> issues)
  | None =>
      perform createdAt <- newDateISO ;
      ret (issues ++ [StoredIssue_ issue projectPath createdAt])
  end.

Fixpoint saveIssues (issues : list StoredIssue) (issueList : list DetectedIssue)
    (projectPath : string) : M (list StoredIssue) :=
  match issueList with
  | [] => ret issues
  | issue :: rest =>
      perform issues' <- saveIssue issues issue projectPath ;
      saveIssues issues' rest projectPath
  end.

Definition getIssues (issues : list StoredIssue) (projectPath : option string)
    : list DetectedIssue :=
  if truthy projectPath
  then map si_issue
         (List.filter (fun i => strict_eq (Some (si_projectPath i)) projectPath) issues)
  else map si_issue issues.

Definition getIssueById (issues : list StoredIssue) (id : string) : option DetectedIssue :=
  si_issue <$> List.find (fun i => String.eqb (is_id (si_issue i)) id) issues.

Definition deleteIssue (issues : list StoredIssue) (id : string)
    : list StoredIssue * bool :=
  let filtered := List.filter (fun i => negb (String.eqb (is_id (si_issue i)) id)) issues in
  if length filtered <? length issues then (filtered, true) else (issues, false).

(** *** Scenarios, test results and plans

    The store never looks inside a scenario, a result or a plan in the
    functions below; they are kept as values of any type. *)

Record StoredScenario (TestScenario : Type) := StoredScenario_ {
  ss_scenario : TestScenario;
  ss_projectPath : string;
  ss_createdAt : string;
  ss_updatedAt : string }.
Arguments StoredScenario_ {TestScenario} _ _ _ _.
Arguments ss_scenario {TestScenario} _.
Arguments ss_projectPath {TestScenario} _.
Arguments ss_createdAt {TestScenario} _.
Arguments ss_updatedAt {TestScenario} _.

Record StoredTestResult (TestResult : Type) := StoredTestResult_ {
  tr_result : TestResult;
  tr_projectPath : string;
  tr_createdAt : string }.
Arguments StoredTestResult_ {TestResult} _ _ _.
Arguments tr_result {TestResult} _.
Arguments tr_projectPath {TestResult} _.
Arguments tr_createdAt {TestResult} _.

Record StoredPlan (TestPlan : Type) := StoredPlan_ {
  pl_plan : TestPlan;
  pl_projectPath : string;
  pl_createdAt : string }.
Arguments StoredPlan_ {TestPlan} _ _ _.
Arguments pl_plan {TestPlan} _.
Arguments pl_projectPath {TestPlan} _.
Arguments pl_createdAt {TestPlan} _.

Definition getScenarios {TS} (scenarios : list (StoredScenario TS))
    (projectPath : option string) : list (StoredScenario TS) :=
  if truthy projectPath
  then List.filter (fun s => strict_eq (Some (ss_projectPath s)) projectPath) scenarios
  else scenarios.

Definition saveTestResult {TR} (results : list (StoredTestResult TR)) (result : TR)
    (projectPath : string) : M (list (StoredTestResult TR)) :=
  perform createdAt <- newDateISO ;
  let results := results ++ [StoredTestResult_ result projectPath createdAt] in
  ret (if 1000 <? length results
       then drop (length results - 1000) results   (* splice(0, length - 1000) *)
       else results).

Definition getTestResults {TR} (results : list (StoredTestResult TR))
    (projectPath : option string) (limit : option Z) : list (StoredTestResult TR) :=
  let limit := default 100%Z limit in
  let filtered :=
    if truthy projectPath
    then List.filter (fun r => strict_eq (Some (tr_projectPath r)) projectPath) results
    else results in
  slice filtered (- limit)%Z (Z.of_nat (length filtered)).

(** *** The five files of the store, [getStats] and [clearProject] *)

Record Store (TS TR TP : Type) := Store_ {
  st_scenarios : list (StoredScenario TS);
  st_results : list (StoredTestResult TR);
  st_fixes : list StoredFix;
  st_plans : list (StoredPlan TP);
  st_issues : list StoredIssue }.
Arguments Store_ {TS TR TP} _ _ _ _ _.
Arguments st_scenarios {TS TR TP} _.
Arguments st_results {TS TR TP} _.
Arguments st_fixes {TS TR TP} _.
Arguments st_plans {TS TR TP} _.
Arguments st_issues {TS TR TP} _.

Record Stats := Stats_ {
  totalScenarios : nat;
  totalResults : nat;
  totalIssues : nat;
  totalFixes : nat;
  pendingFixes : nat;
  appliedFixes : nat }.

Definition getStats {TS TR TP} (store : Store TS TR TP) (projectPath : option string) : Stats :=
  Stats_
    (length (getScenarios (st_scenarios store) projectPath))
    (length (getTestResults (st_results store) projectPath None))
    (length (getIssues (st_issues store) projectPath))
    (length (getFixes (st_fixes store) projectPath))
    (length (getPendingFixes (st_fixes store) projectPath))
    (length (List.filter (fun f => bool_decide (fx_status (sf_fix f) = applied))
                         (getFixes (st_fixes store) projectPath))).

Definition clearProject {TS TR TP} (store : Store TS TR TP) (projectPath : string)
    : Store TS TR TP :=
  Store_
    (List.filter (fun s => negb (String.eqb (ss_projectPath s) projectPath))
                 (st_scenarios store))
    (List.filter (fun r => negb (String.eqb (tr_projectPath r) projectPath))
                 (st_results store))
    (List.filter (fun f => negb (String.eqb (sf_projectPath f) projectPath))
                 (st_fixes store))
    (List.filter (fun p => negb (String.eqb (pl_projectPath p) projectPath))
                 (st_plans store))
    (List.filter (fun i => negb (String.eqb (si_projectPath i) projectPath))
                 (st_issues store)).

End StoreOps.

(** ** Batches of confirmations and applications ([tools/fix]) *)

Module FixBatch.
Import Js Fs Storage FixTools.

(** The [k]-th call of a batch reads the clock at [clock k]. *)





Record ApplyOptions := ApplyOptions_ {
  ao_backup : option bool; ao_validate : option bool; ao_stopOnError : option bool }.

Record ApplySummary := ApplySummary_ {
  as_successful : nat; as_failed : nat; as_backups : list string }.

(** The [for (const fixId of fixIds)] loop of [applyFixes]; an exception
    of [applyFix] ends it. *)
Fixpoint applyEach (fixIds : list string) (backup validate stopOnError : bool)
    (clock : nat -> nat) (k : nat) (w : World)
    (results : list ApplyFixResult) (backups : list string)
    : outcome (list ApplyFixResult * list string) :=
  match fixIds with
  | [] => Returned (results, backups) w
  | fixId :: rest =>
      match applyFix (ApplyFixParams_ fixId (Some backup) (Some validate) None)
                     (clock k) w with
      | Threw w' => Threw w'
      | Returned result w' =>
          let results := results ++ [result] in
          let backups :=
            if truthy (ar_backupPath result)
            then backups ++ [tmpl (ar_backupPath result)] else backups in
          if negb (ar_success result) && stopOnError
          then Returned (results, backups) w'
          else applyEach rest backup validate stopOnError clock (S k) w' results backups
      end
  end.

Definition applyFixes (fixIds : list string) (options : option ApplyOptions)
    (clock : nat -> nat) (w : World)
    : outcome (list ApplyFixResult * ApplySummary) :=
  let backup := default true (options ≫= ao_backup) in
  let validate := default true (options ≫= ao_validate) in
  let stopOnError := default true (options ≫= ao_stopOnError) in
  match applyEach fixIds backup validate stopOnError clock 0 w [] [] with
  | Threw w' => Threw w'
  | Returned (results, backups) w' =>
      Returned
        (results,
         ApplySummary_ (length (List.filter ar_success results))
                       (length (List.filter (fun r => negb (ar_success r)) results))
                       backups)
        w'
  end.

Record ConfirmedSummary := ConfirmedSummary_ {
  fs_successful : nat; fs_failed : nat; fs_skipped : Z }.

(** [options] of [applyConfirmedFixes] has [backup] and [validate] only. *)
Definition applyConfirmedFixes (projectPath : string)
    (options : option (option bool * option bool)) (clock : nat -> nat) (w : World)
    : outcome (list ApplyFixResult * ConfirmedSummary) :=
  let confirmedFixes := getConfirmedFixes (fixes w) (Some projectPath) in
  let fixIds := map (fun f => fx_id (sf_fix f)) confirmedFixes in
  match applyFixes fixIds
          (Some (ApplyOptions_ (options ≫= fst) (options ≫= snd) (Some false)))
          clock w with
  | Threw w' => Threw w'
  | Returned (results, summary) w' =>
      Returned
        (results,
         ConfirmedSummary_ (as_successful summary) (as_failed summary)
           (Z.of_nat (length confirmedFixes) - Z.of_nat (length results))%Z)
        w'
  end.

End FixBatch.

(** ** Fix templates and [suggestFixes] ([tools/fix/suggestFixes]) *)

Module Suggest.
Import Js Diff Regex RegexOps Fs Storage StoreOps Detection.

(** [/\{ \s* ( \n? \s* self \. ) /] *)
Definition closureSelfPattern : regex :=
  seqs [Chr "{"; star space;
        Group 1 (seqs [opt (Chr LF); star space; lit "self."])].

(** [/var \s+ ( \w* delegate \w* ) \s* : \s* /i], token by token *)
Definition delegateVarPattern : regex :=
  seqs [lit_i "var"; plus space;
        Group 1 (seqs [star word; lit_i "delegate"; star word]);
        star space; Chr ":"; star space].

Definition generateRetainCycleFix (issue : DetectedIssue) (platform : Platform)
    (originalCode : string) : option FixCode :=
  let suggested := originalCode in
  let confidence := 90 in
  let suggested :=
    if bool_decide (platform = ios) then
      let suggested :=
        if includes (is_title issue) "closure" then
          replace originalCode closureSelfPattern
            ("{ [weak self] in" +:+ nl
             +:+ "        guard let self = self else { return }" +:+ nl
             +:+ "        self.")
        else suggested in
      if includes (is_title issue) "Delegate" then
        replaceWith originalCode delegateVarPattern
          (fun m => "weak var " +:+ group 1 m +:+ ": ")
      else suggested
    else suggested in
  if bool_decide (platform = react_native) || bool_decide (platform = web) then None
  else if String.eqb suggested originalCode then None
  else Some (FixCode_ originalCode suggested confidence).

(** [/(\w+Controller)\s+(\w+)/] *)
Definition controllerPattern : regex :=
  seqs [Group 1 (Seq (plus word) (lit "Controller")); plus space; Group 2 (plus word)].

Definition generateResourceCleanupFix (issue : DetectedIssue) (platform : Platform)
    (originalCode : string) : option FixCode :=
  let suggested := originalCode in
  let confidence := 85 in
  let suggested :=
    if bool_decide (platform = flutter) then
      match match_ originalCode controllerPattern with
      | Some controllerMatch =>
          let controllerName := capture 2 (m_groups controllerMatch) in
          originalCode +:+ nl +:+ nl +:+ "  @override" +:+ nl
          +:+ "  void dispose() {" +:+ nl
          +:+ "    " +:+ tmpl controllerName +:+ ".dispose();" +:+ nl
          +:+ "    super.dispose();" +:+ nl +:+ "  }"
      | None => suggested
      end
    else suggested in
  let suggested :=
    if bool_decide (platform = android) then
      if includes (is_title issue) "BroadcastReceiver" then
        originalCode +:+ nl +:+ nl +:+ "    override fun onDestroy() {" +:+ nl
        +:+ "        super.onDestroy()" +:+ nl
        +:+ "        unregisterReceiver(receiver)" +:+ nl +:+ "    }"
      else suggested
    else suggested in
  if String.eqb suggested originalCode then None
  else Some (FixCode_ originalCode suggested confidence).

(** [/setState \s* \( /g], token by token *)
Definition setStateCallPattern : regex := seqs [lit "setState"; star space; Chr "("].

(** [/setState \s* \( \s* \{ ([^}]+) \} \s* \) \s* ; \s* setState \s* \( \s* \{ ([^}]+) \} \s* \) /g] *)
Definition doubleSetStatePattern : regex :=
  seqs [lit "setState"; star space; Chr "("; star space; Chr "{";
        Group 1 (plus (notChr "}")); Chr "}"; star space; Chr ")"; star space;
        Chr ";"; star space;
        lit "setState"; star space; Chr "("; star space; Chr "{";
        Group 2 (plus (notChr "}")); Chr "}"; star space; Chr ")"].

(** [/await \s+ ([^;]+) ; \s* ( \n \s* ) setState /g] *)
Definition awaitSetStatePattern : regex :=
  seqs [lit "await"; plus space; Group 1 (plus (notChr ";")); Chr ";"; star space;
        Group 2 (Seq (Chr LF) (star space)); lit "setState"].

Definition generateRaceConditionFix (issue : DetectedIssue) (platform : Platform)
    (originalCode : string) : option FixCode :=
  let suggested := originalCode in
  let confidence := 75 in
  let '(suggested, confidence) :=
    if bool_decide (platform = react_native) || bool_decide (platform = web) then
      let suggested :=
        if includes (is_title issue) "mount check" then
          let suggested :=
            "const isMountedRef = useRef(true);" +:+ nl +:+ nl
            +:+ "useEffect(() => {" +:+ nl
            +:+ "  return () => { isMountedRef.current = false; };" +:+ nl
            +:+ "}, []);" +:+ nl +:+ nl +:+ originalCode in
          replaceAll suggested setStateCallPattern "if (isMountedRef.current) setState("
        else suggested in
      if includes (is_title issue) "Multiple setState" then
        (replaceAllWith originalCode doubleSetStatePattern
           (fun m => "setState({ " +:+ group 1 m +:+ ", " +:+ group 2 m +:+ " })"),
         70)
      else (suggested, confidence)
    else (suggested, confidence) in
  let suggested :=
    if bool_decide (platform = flutter) then
      if includes (is_title issue) "mounted" then
        replaceAllWith originalCode awaitSetStatePattern
          (fun m => "await " +:+ group 1 m +:+ ";" +:+ nl
                    +:+ "    if (!mounted) return;" +:+ group 2 m +:+ "setState")
      else suggested
    else suggested in
  if String.eqb suggested originalCode then None
  else Some (FixCode_ originalCode suggested confidence).

(** [/useState \s* \( \s* props \. (\w+) \s* \) /] *)
Definition derivedStatePattern : regex :=
  seqs [lit "useState"; star space; Chr "("; star space; lit "props.";
        Group 1 (plus word); star space; Chr ")"].

Definition generateStateConsistencyFix (issue : DetectedIssue) (platform : Platform)
    (originalCode : string) : option FixCode :=
  let suggested := originalCode in
  let confidence := 70 in
  let suggested :=
    if bool_decide (platform = react_native) || bool_decide (platform = web) then
      if includes (is_title issue) "stale" then
        match match_ originalCode derivedStatePattern with
        | Some propMatch =>
            let propName := capture 1 (m_groups propMatch) in
            originalCode +:+ nl +:+ nl +:+ "useEffect(() => {" +:+ nl
            +:+ "  setValue(props." +:+ tmpl propName +:+ ");" +:+ nl
            +:+ "}, [props." +:+ tmpl propName +:+ "]);"
        | None => suggested
        end
      else suggested
    else suggested in
  if String.eqb suggested originalCode then None
  else Some (FixCode_ originalCode suggested confidence).

Definition generateNullCheckFix (issue : DetectedIssue) (platform : Platform)
    (originalCode : string) : option FixCode :=
  let suggested := originalCode in
  let confidence := 85 in
  let suggested :=
    if bool_decide (platform = react_native) || bool_decide (platform = web) then
      replaceAllWith originalCode forceUnwrapPattern (fun m => group 1 m +:+ "?.")
    else suggested in
  let suggested :=
    if bool_decide (platform = ios) then
      match match_ originalCode swiftForceUnwrapPattern with
      | Some forceUnwrapMatch =>
          let varName := capture 1 (m_groups forceUnwrapMatch) in
          let suggested := replace originalCode swiftForceUnwrapPattern (tmpl varName) in
          "guard let " +:+ tmpl varName +:+ " = " +:+ tmpl varName
          +:+ " else { return }" +:+ nl +:+ suggested
      | None => suggested
      end
    else suggested in
  let suggested :=
    if bool_decide (platform = android) then
      replaceAllWith originalCode notNullPattern (fun m => group 1 m +:+ "?")
    else suggested in
  if String.eqb suggested originalCode then None
  else Some (FixCode_ originalCode suggested confidence).

Definition generateFixCode (issue : DetectedIssue) (platform : Platform)
    (originalCode : string) : option FixCode :=
  match is_type issue with
  | memory_leak => generateMemoryLeakFix issue platform originalCode
  | retain_cycle => generateRetainCycleFix issue platform originalCode
  | unclosed_resource => generateResourceCleanupFix issue platform originalCode
  | race_condition => generateRaceConditionFix issue platform originalCode
  | state_inconsistency => generateStateConsistencyFix issue platform originalCode
  | null_reference => generateNullCheckFix issue platform originalCode
  | _ => None
  end.

Inductive RiskLevel := risk_low | risk_medium | risk_high.

Record ImpactInfo := ImpactInfo_ {
  filesAffected : list string;
  testsAffected : list string;
  riskLevel : RiskLevel;
  breakingChange : bool;
  requiresRetest : bool }.

Record AlternativeFix := AlternativeFix_ {
  alt_description : string;
  alt_suggestedCode : string;
  alt_diff : string;
  alt_tradeoffs : string }.

Definition analyzeImpact (issue : DetectedIssue) (projectPath : string) : ImpactInfo :=
  let riskLevel :=
    if bool_decide (is_severity issue = critical) then risk_high
    else if bool_decide (is_severity issue = high) then risk_medium
    else risk_low in
  let breakingChange :=
    bool_decide (is_type issue = type_mismatch)
    || bool_decide (is_type issue = state_inconsistency) in
  ImpactInfo_ [is_file issue] [] riskLevel breakingChange true.

Definition generateAlternatives (issue : DetectedIssue) (platform : Platform)
    : list AlternativeFix :=
  (if bool_decide (is_type issue = memory_leak) && bool_decide (platform = ios)
   then [AlternativeFix_ "Use unowned instead of weak"
           ("{ [unowned self] in" +:+ nl +:+ "    self.doSomething()" +:+ nl +:+ "}")
           "" "Faster than weak, but crashes if self is deallocated"]
   else [])
  ++ (if bool_decide (is_type issue = null_reference)
      then [AlternativeFix_ "Use default value with nil coalescing"
              "value ?? defaultValue"
              "" "Simpler but may hide issues if default is not appropriate"]
      else [])
  ++ (if bool_decide (is_type issue = race_condition)
      then [AlternativeFix_ "Use AbortController for cancellation"
              ("const controller = new AbortController();" +:+ nl
               +:+ "fetch(url, { signal: controller.signal });")
              "" "More explicit but requires handling abort errors"]
      else []).

(** The text of an [IssueType] and of a [Severity]. *)
Definition issueTypeName (t : IssueType) : string :=
  match t with
  | memory_leak => "memory_leak"
  | retain_cycle => "retain_cycle"
  | unclosed_resource => "unclosed_resource"
  | race_condition => "race_condition"
  | state_inconsistency => "state_inconsistency"
  | null_reference => "null_reference"
  | type_mismatch => "type_mismatch"
  | unhandled_error => "unhandled_error"
  | performance_bottleneck => "performance_bottleneck"
  | unused_code => "unused_code"
  | deprecated_api => "deprecated_api"
  | security_vulnerability => "security_vulnerability"
  end.

Definition severityName (s : Severity) : string :=
  match s with
  | critical => "critical"
  | high => "high"
  | medium => "medium"
  | low => "low"
  | info => "info"
  end.

(** A suggestion as [suggestFixes] returns it: the fields the store and
    the tools read, its [impact] and its [alternatives]. *)
Record Suggestion := Suggestion_ {
  sg_fix : FixSuggestion;
  sg_impact : ImpactInfo;
  sg_alternatives : option (list AlternativeFix) }.

Definition generateFixSuggestion (fs : FileSystem) (issue : DetectedIssue)
    (platform : Platform) (projectPath : string) : M (option Suggestion) :=
  let originalCode :=
    match readFileSync fs (is_file issue) with
    | Some fileContent => originalCodeAround fileContent (is_line issue)
    | None => if truthy (is_code issue) then tmpl (is_code issue) else ""
    end in
  match generateFixCode issue platform originalCode with
  | None => ret None
  | Some fix_ =>
      let diff := generateDiff (fc_original fix_) (fc_suggested fix_) in
      let impact := analyzeImpact issue projectPath in
      let alternatives := generateAlternatives issue platform in
      perform id <- uuidv4 ;
      perform createdAt <- newDateISO ;
      ret (Some (Suggestion_
        (FixSuggestion_ id (is_id issue) ("Fix: " +:+ is_title issue)
           (if truthy (is_suggestion issue) then tmpl (is_suggestion issue)
            else "Resolve " +:+ issueTypeName (is_type issue) +:+ " issue")
           (fc_confidence fix_) (is_file issue) (is_line issue)
           (fc_original fix_) (fc_suggested fix_) diff pending createdAt None None)
        impact
        (if 0 <? length alternatives then Some alternatives else None)))
  end.

Record SuggestFixesParams := SuggestFixesParams_ {
  sp_issues : list DetectedIssue;
  sp_projectPath : string;
  sp_platform : Platform;
  sp_autoGenerate : option bool;
  sp_maxSuggestions : option Z }.

Record ByConfidence := ByConfidence_ { bc_high : nat; bc_medium : nat; bc_low : nat }.

Record SuggestSummary := SuggestSummary_ {
  su_totalSuggestions : nat;
  su_byConfidence : ByConfidence;
  su_bySeverity : gmap string nat }.

Record SuggestFixesResult := SuggestFixesResult_ {
  sr_suggestions : list Suggestion;
  sr_summary : SuggestSummary }.

(** [for (const issue of ...) { ... if (suggestion) suggestions.push(suggestion) }] *)
Fixpoint suggestEach (fs : FileSystem) (issues : list DetectedIssue)
    (platform : Platform) (projectPath : string) : M (list Suggestion) :=
  match issues with
  | [] => ret []
  | issue :: rest =>
      perform suggestion <- generateFixSuggestion fs issue platform projectPath ;
      perform suggestions <- suggestEach fs rest platform projectPath ;
      ret (match suggestion with
           | Some s => s :: suggestions
           | None => suggestions
           end)
  end.

Definition countConfidence (bc : ByConfidence) (s : Suggestion) : ByConfidence :=
  let '(ByConfidence_ h m l) := bc in
  if 80 <=? fx_confidence (sg_fix s) then ByConfidence_ (h + 1) m l
  else if 50 <=? fx_confidence (sg_fix s) then ByConfidence_ h (m + 1) l
  else ByConfidence_ h m (l + 1).

Definition severityOf (issues : list DetectedIssue) (s : Suggestion) : string :=
  match List.find (fun i => String.eqb (is_id i) (fx_issueId (sg_fix s))) issues with
  | Some i => severityName (is_severity i)
  | None => "unknown"
  end.

Definition countSeverity (issues : list DetectedIssue) (bySeverity : gmap string nat)
    (s : Suggestion) : gmap string nat :=
  let severity := severityOf issues s in
  <[severity := default 0 (bySeverity !! severity) + 1]> bySeverity.

(** The tool on a file system and a fix store; it answers with its result
    and the store it has written. *)
Definition suggestFixes (params : SuggestFixesParams) (fs : FileSystem)
    (fixes : list StoredFix) : M (SuggestFixesResult * list StoredFix) :=
  let issues := sp_issues params in
  let projectPath := sp_projectPath params in
  let platform := sp_platform params in
  let maxSuggestions := default 50%Z (sp_maxSuggestions params) in
  perform suggestions <-
    suggestEach fs (slice issues 0 maxSuggestions) platform projectPath ;
  perform fixes' <- saveFixes fixes (map sg_fix suggestions) projectPath ;
  let byConfidence := fold_left countConfidence suggestions (ByConfidence_ 0 0 0) in
  let bySeverity := fold_left (countSeverity issues) suggestions ∅ in
  ret (SuggestFixesResult_ suggestions
         (SuggestSummary_ (length suggestions) byConfidence bySeverity),
       fixes').

End Suggest.

(** ** Leak rules for Kotlin and Dart ([detectMemoryLeaks]) *)

Module Leaks.
Import Js Regex Detection.

Definition leakIssue (id : string) (type : IssueType) (severity : Severity)
    (title description filePath : string) (lineNum : Z) (code : option string)
    (objectType suggestion detectedAt : string) : DetectedIssue :=
  DetectedIssue_ id type severity title description filePath lineNum code
    (Some objectType) None None None None (Some suggestion) detectedAt.

Definition analyzeKotlinMemoryLeaks (filePath content : string) (lines : list string)
    : M (list DetectedIssue) :=
  perform receivers <-
    (if includes content "registerReceiver"
        && negb (includes content "unregisterReceiver") then
       let lineNum := (findIndex (fun l => includes l "registerReceiver") lines + 1)%Z in
       perform id <- uuidv4 ;
       perform detectedAt <- newDateISO ;
       ret [leakIssue id memory_leak high
              "BroadcastReceiver not unregistered"
              "BroadcastReceiver is registered but never unregistered"
              filePath lineNum (codeAt lines lineNum)
              "BroadcastReceiver" "Call unregisterReceiver in onPause or onDestroy"
              detectedAt]
     else ret []) ;
  perform handlers <-
    (if includes content "Handler" && includes content "postDelayed"
        && negb (includes content "removeCallbacks") then
       let lineNum := (findIndex (fun l => includes l "postDelayed") lines + 1)%Z in
       perform id <- uuidv4 ;
       perform detectedAt <- newDateISO ;
       ret [leakIssue id memory_leak medium
              "Handler callbacks not removed"
              "Handler postDelayed is used but callbacks are not removed"
              filePath lineNum (codeAt lines lineNum)
              "Handler" "Call handler.removeCallbacksAndMessages(null) in onDestroy"
              detectedAt]
     else ret []) ;
  perform contexts <-
    (if includes content "companion object"
        && (includes content "Context" || includes content "Activity") then
       let lineNum := (findIndex (fun l => includes l "companion object") lines + 1)%Z in
       perform id <- uuidv4 ;
       perform detectedAt <- newDateISO ;
       ret [leakIssue id memory_leak critical
              "Static Context reference"
              "Context or Activity stored in static field causes memory leak"
              filePath lineNum None
              "Context"
              "Use applicationContext instead of activity context, or avoid static references"
              detectedAt]
     else ret []) ;
  ret (receivers ++ handlers ++ contexts).

Definition analyzeDartMemoryLeaks (filePath content : string) (lines : list string)
    : M (list DetectedIssue) :=
  perform subscriptions <-
    (if includes content "StreamSubscription"
        && negb (includes content "cancel()") then
       let lineNum := (findIndex (fun l => includes l "StreamSubscription") lines + 1)%Z in
       perform id <- uuidv4 ;
       perform detectedAt <- newDateISO ;
       ret [leakIssue id unclosed_resource high
              "StreamSubscription not cancelled"
              "StreamSubscription is created but never cancelled"
              filePath lineNum (codeAt lines lineNum)
              "StreamSubscription" "Call subscription.cancel() in dispose method"
              detectedAt]
     else ret []) ;
  perform animations <-
    (if includes content "AnimationController"
        && negb (includes content "dispose()") then
       let lineNum := (findIndex (fun l => includes l "AnimationController") lines + 1)%Z in
       perform id <- uuidv4 ;
       perform detectedAt <- newDateISO ;
       ret [leakIssue id unclosed_resource high
              "AnimationController not disposed"
              "AnimationController is created but never disposed"
              filePath lineNum (codeAt lines lineNum)
              "AnimationController" "Call controller.dispose() in dispose method"
              detectedAt]
     else ret []) ;
  perform editors <-
    (if includes content "TextEditingController()"
        && negb (includes content ".dispose()") then
       let lineNum :=
         (findIndex (fun l => includes l "TextEditingController") lines + 1)%Z in
       perform id <- uuidv4 ;
       perform detectedAt <- newDateISO ;
       ret [leakIssue id unclosed_resource medium
              "TextEditingController not disposed"
              "TextEditingController should be disposed when no longer needed"
              filePath lineNum (codeAt lines lineNum)
              "TextEditingController" "Call controller.dispose() in dispose method"
              detectedAt]
     else ret []) ;
  ret (subscriptions ++ animations ++ editors).

End Leaks.

(** ** The other rules and the analysis of one file
    ([detectMemoryLeaks], [detectLogicErrors]) *)

Module Rules.
Import Js Regex RegexOps Detection Leaks.

(** *** analyzeSwiftMemoryLeaks (detectMemoryLeaks) *)

(** [/\{[^}]*self\.[^}]*\}/g] *)
Definition closurePattern : regex :=
  seqs [Chr "{"; star (notChr "}"); lit "self."; star (notChr "}"); Chr "}"].

(** [/var\s+(\w*delegate\w* )\s*:\s*(\w+)\s*\??\s*(?!=.*weak)/gi], without the blank *)
Definition delegatePattern : regex :=
  seqs [lit_i "var"; plus space;
        Group 1 (seqs [star word; lit_i "delegate"; star word]);
        star space; Chr ":"; star space; Group 2 (plus word); star space;
        opt (Chr "?"); star space;
        NotAhead (seqs [Chr "="; star dot; lit_i "weak"])].

Definition analyzeSwiftMemoryLeaks (filePath content : string) (lines : list string)
    : M (list DetectedIssue) :=
  perform observers <-
    (if includes content "NotificationCenter.default.addObserver"
        && negb (includes content "removeObserver") then
       let lineNum := (findIndex (fun l => includes l "addObserver") lines + 1)%Z in
       perform id <- uuidv4 ;
       perform detectedAt <- newDateISO ;
       ret [leakIssue id memory_leak high
              "NotificationCenter observer not removed"
              "NotificationCenter observer is added but never removed, causing a memory leak"
              filePath lineNum (codeAt lines lineNum)
              "NotificationCenter"
              "Add removeObserver in deinit or appropriate cleanup method"
              detectedAt]
     else ret []) ;
  perform timers <-
    (if includes content "Timer.scheduledTimer"
        && negb (includes content "invalidate") then
       let lineNum :=
         (findIndex (fun l => includes l "Timer.scheduledTimer") lines + 1)%Z in
       perform id <- uuidv4 ;
       perform detectedAt <- newDateISO ;
       ret [leakIssue id memory_leak high
              "Timer not invalidated"
              "Timer is scheduled but never invalidated, causing a memory leak"
              filePath lineNum (codeAt lines lineNum)
              "Timer"
              "Call timer.invalidate() in deinit or when timer is no longer needed"
              detectedAt]
     else ret []) ;
  perform ms <- allMatches closurePattern content ;
  perform closures <- forEach (fun m =>
    let matchStart := lineOf content (m_index m) in
    let closureContent := m_text m in
    if negb (includes closureContent "[weak self]")
       && negb (includes closureContent "[unowned self]") then
      let beforeClosure := substring (m_index m - 100) (m_index m) content in
      if includes beforeClosure "Task" || includes beforeClosure "async"
         || includes beforeClosure "completion" || includes beforeClosure "@escaping"
      then
        perform id <- uuidv4 ;
        perform detectedAt <- newDateISO ;
        ret [DetectedIssue_ id retain_cycle medium
               "Potential retain cycle in closure"
               "Closure captures self strongly which may cause a retain cycle"
               filePath matchStart (Some (take_string 100 closureContent))
               (Some "Closure") (Some ["self"; "closure"]) None None None
               (Some "Use [weak self] or [unowned self] to prevent retain cycle")
               detectedAt]
      else ret []
    else ret []) ms ;
  perform ms <- allMatches delegatePattern content ;
  perform delegates <- forEach (fun m =>
    if negb (includes (substring (m_index m - 10) (m_index m) content) "weak") then
      let lineNum := lineOf content (m_index m) in
      perform id <- uuidv4 ;
      perform detectedAt <- newDateISO ;
      ret [DetectedIssue_ id retain_cycle medium
             "Delegate should be weak"
             "Delegate property should be weak to prevent retain cycle"
             filePath lineNum (Some (m_text m))
             (Some "Delegate")
             (Some ["self"; default "delegate" (capture 1 (m_groups m))])
             None None None
             (Some "Make delegate property weak: weak var delegate: DelegateProtocol?")
             detectedAt]
    else ret []) ms ;
  ret (observers ++ timers ++ closures ++ delegates).

(** [analyzeFileForMemoryLeaks] *)
Definition analyzeFileForMemoryLeaks (filePath content : string) (platform : Platform)
    : M (list DetectedIssue) :=
  let lines := split_lines content in
  match platform with
  | ios => analyzeSwiftMemoryLeaks filePath content lines
  | android => analyzeKotlinMemoryLeaks filePath content lines
  | flutter => analyzeDartMemoryLeaks filePath content lines
  | react_native | web => analyzeReactMemoryLeaks filePath content lines
  end.

(** *** The issues of detectLogicErrors *)

Definition logicError (id : string) (type : IssueType) (severity : Severity)
    (title description filePath : string) (lineNum : Z) (code : option string)
    (context possibleCause reproducibility suggestion detectedAt : string)
    : DetectedIssue :=
  DetectedIssue_ id type severity title description filePath lineNum code
    None None (Some context) (Some possibleCause) (Some reproducibility)
    (Some suggestion) detectedAt.

Definition isReact (platform : Platform) : bool :=
  bool_decide (platform = react_native) || bool_decide (platform = web).

(** *** detectRaceConditions *)

(** [/async\s+.*\{[\s\S]*?(setState|state\s*=|\.value\s*=)[\s\S]*?\}/g] *)
Definition asyncStatePattern : regex :=
  seqs [lit "async"; plus space; star dot; Chr "{"; lazy_star any;
        Group 1 (Alt (lit "setState")
                (Alt (seqs [lit "state"; star space; Chr "="])
                     (seqs [lit ".value"; star space; Chr "="])));
        lazy_star any; Chr "}"].

(** [/setState\s*\([^)]+\)[^;]*;[\s\n]*setState\s*\(/g] *)
Definition setStatePattern : regex :=
  seqs [lit "setState"; star space; Chr "("; plus (notChr ")"); Chr ")";
        star (notChr ";"); Chr ";";
        star (Class (fun c => is_space c || Ascii.eqb c LF));
        lit "setState"; star space; Chr "("].

(** [/let\s+(\w+)\s*=.*;\s*[\s\S]*?async[\s\S]*?\1\s*[+\-*\/]?=/g] *)
Definition sharedStatePattern : regex :=
  seqs [lit "let"; plus space; Group 1 (plus word); star space; Chr "=";
        star dot; Chr ";"; star space; lazy_star any; lit "async"; lazy_star any;
        Backref 1; star space;
        opt (Class (fun c => Ascii.eqb c "+" || Ascii.eqb c "-"
                             || Ascii.eqb c "*" || Ascii.eqb c "/"));
        Chr "="].

Definition detectRaceConditions (filePath content : string) (platform : Platform)
    : M (list DetectedIssue) :=
  perform ms <- allMatches asyncStatePattern content ;
  perform asyncUpdates <- forEach (fun m =>
    let matchContent := m_text m in
    let lineNum := lineOf content (m_index m) in
    if negb (includes matchContent "isMounted") && negb (includes matchContent "mounted")
       && negb (includes matchContent "disposed")
       && negb (includes matchContent "cancelled") then
      perform id <- uuidv4 ;
      perform detectedAt <- newDateISO ;
      ret [logicError id race_condition high
             "Async state update without mount check"
             "Async operation updates state without checking if component is still mounted"
             filePath lineNum (Some (take_string 150 matchContent))
             "Async state update"
             "Component may unmount before async operation completes"
             "intermittent" "Add isMounted check or use AbortController"
             detectedAt]
    else ret []) ms ;
  perform setStates <-
    (if isReact platform then
       perform ms <- allMatches setStatePattern content ;
       forEach (fun m =>
         let lineNum := lineOf content (m_index m) in
         perform id <- uuidv4 ;
         perform detectedAt <- newDateISO ;
         ret [logicError id race_condition medium
                "Multiple setState calls"
                "Multiple setState calls may cause race condition or batching issues"
                filePath lineNum None
                "State updates" "State updates may not batch correctly"
                "intermittent"
                "Combine into single setState call or use functional updates"
                detectedAt]) ms
     else ret []) ;
  perform ms <- allMatches sharedStatePattern content ;
  perform shared <- forEach (fun m =>
    let lineNum := lineOf content (m_index m) in
    perform id <- uuidv4 ;
    perform detectedAt <- newDateISO ;
    ret [logicError id race_condition high
           "Shared mutable state in async context"
           "Mutable variable is accessed/modified in async context"
           filePath lineNum None
           "Async modification" "Multiple async operations may access same variable"
           "intermittent" "Use proper synchronization or immutable state pattern"
           detectedAt]) ms ;
  ret (asyncUpdates ++ setStates ++ shared).

(** *** detectStateInconsistencies *)

(** [/useState\s*\(\s*props\.(\w+)\s*\)/g] *)
Definition derivedStatePattern : regex :=
  seqs [lit "useState"; star space; Chr "("; star space; lit "props.";
        Group 1 (plus word); star space; Chr ")"].

(** [/if\s*\([^)]+\)\s*\{[^}]*setState[^}]*\}(?!\s*else)/g] *)
Definition conditionalStatePattern : regex :=
  seqs [lit "if"; star space; Chr "("; plus (notChr ")"); Chr ")"; star space;
        Chr "{"; star (notChr "}"); lit "setState"; star (notChr "}"); Chr "}";
        NotAhead (seqs [star space; lit "else"])].

(** [/await\s+[^;]+;\s*[\s\S]{0,50}?setState/g] *)
Definition asyncSetStatePattern : regex :=
  seqs [lit "await"; plus space; plus (notChr ";"); Chr ";"; star space;
        lazy_upto 50 any; lit "setState"].

Definition detectStateInconsistencies (filePath content : string) (platform : Platform)
    : M (list DetectedIssue) :=
  perform reactIssues <-
    (if isReact platform then
       perform ms <- allMatches derivedStatePattern content ;
       perform derived <- forEach (fun m =>
         let propName :=
           if truthy (capture 1 (m_groups m)) then tmpl (capture 1 (m_groups m))
           else "unknown" in
         let lineNum := lineOf content (m_index m) in
         if negb (includes content "useEffect") || negb (includes content propName) then
           perform id <- uuidv4 ;
           perform detectedAt <- newDateISO ;
           ret [logicError id state_inconsistency medium
                  "Derived state may become stale"
                  ("State initialized from props." +:+ propName
                   +:+ " but may not update when prop changes")
                  filePath lineNum None
                  "Props to state"
                  "useState only uses initial value, subsequent prop changes are ignored"
                  "always"
                  "Use useEffect to sync state with props, or compute value directly from props"
                  detectedAt]
         else ret []) ms ;
       perform ms <- allMatches conditionalStatePattern content ;
       perform conditional <- forEach (fun m =>
         let lineNum := lineOf content (m_index m) in
         let matchContent := m_text m in
         if includes matchContent "state" || includes matchContent "State" then
           perform id <- uuidv4 ;
           perform detectedAt <- newDateISO ;
           ret [logicError id state_inconsistency low
                  "Conditional state update without else branch"
                  "State is updated conditionally which may lead to inconsistent states"
                  filePath lineNum (Some (take_string 100 matchContent))
                  "Conditional update"
                  "State may remain in unexpected state when condition is false"
                  "always"
                  "Ensure all state paths are handled, or document expected behavior"
                  detectedAt]
         else ret []) ms ;
       ret (derived ++ conditional)
     else ret []) ;
  perform flutterIssues <-
    (if bool_decide (platform = flutter) then
       perform ms <- allMatches asyncSetStatePattern content ;
       forEach (fun m =>
         let lineNum := lineOf content (m_index m) in
         if negb (includes content "mounted") then
           perform id <- uuidv4 ;
           perform detectedAt <- newDateISO ;
           ret [logicError id state_inconsistency high
                  "setState after async operation"
                  "setState called after await without checking mounted state"
                  filePath lineNum None
                  "Async setState" "Widget may be disposed before setState is called"
                  "intermittent" "Check if (mounted) before calling setState after await"
                  detectedAt]
         else ret []) ms
     else ret []) ;
  ret (reactIssues ++ flutterIssues).

(** *** detectTypeMismatches *)

(** [/:\s*any\b/g] *)
Definition anyPattern (content : string) : regex :=
  seqs [Chr ":"; star space; lit "any"; wordBoundary content].

(** [/as\s+\w+(?:\[\])?\s*(?![\w<])/g] *)
Definition assertionPattern : regex :=
  seqs [lit "as"; plus space; plus word; opt (lit "[]"); star space;
        NotAhead (Class (fun c => is_word c || Ascii.eqb c "<"))].

Definition detectTypeMismatches (filePath content : string) (platform : Platform)
    : M (list DetectedIssue) :=
  let lines := split_lines content in
  if isReact platform then
    perform ms <- allMatches (anyPattern content) content ;
    perform anys <- forEach (fun m =>
      let lineNum := lineOf content (m_index m) in
      perform id <- uuidv4 ;
      perform detectedAt <- newDateISO ;
      ret [logicError id type_mismatch low
             "Usage of any type"
             "Using any type bypasses TypeScript type checking"
             filePath lineNum (codeAt lines lineNum)
             "Type annotation"
             "May hide type errors that would be caught at compile time"
             "always" "Replace any with specific type or unknown"
             detectedAt]) ms ;
    perform _ <- allMatches assertionPattern content ;
    ret anys
  else ret [].

(** *** detectAdvancedLogicErrors *)

(** [/while\s*\(\s*true\s*\)|\bfor\s*\(\s*;\s*;\s*\)/g] *)
Definition infiniteLoopPattern (content : string) : regex :=
  Alt (seqs [lit "while"; star space; Chr "("; star space; lit "true"; star space;
             Chr ")"])
      (seqs [wordBoundary content; lit "for"; star space; Chr "("; star space;
             Chr ";"; star space; Chr ";"; star space; Chr ")"]).

(** [/return[^;]*;\s*\n\s*[a-zA-Z]/g] *)
Definition deadCodePattern : regex :=
  seqs [lit "return"; star (notChr ";"); Chr ";"; star space; Chr LF; star space;
        Class is_letter].

Definition detectAdvancedLogicErrors (filePath content : string) (platform : Platform)
    : M (list DetectedIssue) :=
  let lines := split_lines content in
  perform ms <- allMatches (infiniteLoopPattern content) content ;
  perform loops <- forEach (fun m =>
    let lineNum := lineOf content (m_index m) in
    let afterMatch := substring (m_index m) (m_index m + 200) content in
    if negb (includes afterMatch "break") && negb (includes afterMatch "return") then
      perform id <- uuidv4 ;
      perform detectedAt <- newDateISO ;
      ret [logicError id state_inconsistency critical
             "Potential infinite loop"
             "Loop without apparent exit condition"
             filePath lineNum (codeAt lines lineNum)
             "Loop control" "Loop may never terminate"
             "always" "Add break condition or refactor loop"
             detectedAt]
    else ret []) ms ;
  perform ms <- allMatches deadCodePattern content ;
  perform dead <- forEach (fun m =>
    let lineNum := lineOf content (m_index m) in
    perform id <- uuidv4 ;
    perform detectedAt <- newDateISO ;
    ret [logicError id state_inconsistency low
           "Dead code after return"
           "Code after return statement is unreachable"
           filePath (lineNum + 1)%Z None
           "Unreachable code" "Code after return will never execute"
           "always" "Remove unreachable code"
           detectedAt]) ms ;
  ret (loops ++ dead).

(** *** detectLogicErrors: what the loop over the files does with one file *)

Inductive CheckType :=
| check_race_condition | check_state_inconsistency | check_null_reference
| check_type_mismatch | check_all.

Inductive AnalysisDepth := shallow | normal | deep.

#[global] Instance CheckType_eq_dec : EqDecision CheckType.
Proof. solve_decision. Defined.
#[global] Instance AnalysisDepth_eq_dec : EqDecision AnalysisDepth.
Proof. solve_decision. Defined.

(** [shouldCheckAll || checkTypes.includes(t)] *)
Definition checks (checkTypes : list CheckType) (t : CheckType) : bool :=
  bool_decide (check_all ∈ checkTypes) || bool_decide (t ∈ checkTypes).

Definition detectLogicErrorsInFile (analysisDepth : option AnalysisDepth)
    (checkTypes : option (list CheckType)) (file content : string)
    (platform : Platform) : M (list DetectedIssue) :=
  let analysisDepth := default normal analysisDepth in
  let checkTypes := default [check_all] checkTypes in
  perform races <-
    (if checks checkTypes check_race_condition
     then detectRaceConditions file content platform else ret []) ;
  perform states <-
    (if checks checkTypes check_state_inconsistency
     then detectStateInconsistencies file content platform else ret []) ;
  perform nulls <-
    (if checks checkTypes check_null_reference
     then detectNullReferences file content platform else ret []) ;
  perform types <-
    (if checks checkTypes check_type_mismatch
     then detectTypeMismatches file content platform else ret []) ;
  perform advanced <-
    (if bool_decide (analysisDepth = deep)
     then detectAdvancedLogicErrors file content platform else ret []) ;
  ret (races ++ states ++ nulls ++ types ++ advanced).

End Rules.

(** ** Further concrete data for the examples *)

Module MoreExamples.
Import Js Fs Storage StoreOps FixTools FixBatch Detection Suggest Examples.

(** The issue the null-reference rule reports for line 2 of [exFile]. *)
Definition exIssue : DetectedIssue :=
  DetectedIssue_ "issue-1" null_reference medium "Non-null assertion operator"
    "Force unwrap of a may cause runtime error if null" exFile 2
    (Some "const b = a!.value;") None None (Some "Force unwrap")
    (Some "Value may be null at runtime despite assertion") (Some "intermittent")
    (Some "Use optional chaining (?.) or proper null check") "t0".

Definition exSuggestParams : SuggestFixesParams :=
  SuggestFixesParams_ [exIssue] "/app" web None None.

Definition exFs : FileSystem := FileSystem_ {[exFile := exContent]} ∅ ∅.

(** What [suggestFixes] answers on the example project with an empty store. *)
Definition exSuggested : option (SuggestFixesResult * list StoredFix * Env) :=
  suggestFixes exSuggestParams exFs [] exEnv.

Definition exSuggestedStore : list StoredFix :=
  match exSuggested with Some (_, fixes, _) => fixes | None => [] end.

Definition exSuggestion : FixSuggestion :=
  match exSuggested with
  | Some (SuggestFixesResult_ (s :: _) _, _, _) => sg_fix s
  | _ => exFix
  end.

(** A second fix of the same store, left pending. *)
Definition exOtherFix : FixSuggestion :=
  FixSuggestion_ "fix-9" "issue-9" "Fix: Interval not cleared"
    "Store interval ID and call clearInterval in cleanup" 85 "/app/src/Clock.ts" 1
    "tick();" "tock();" "" pending "t0" None None.

Definition exTwoFixes : World :=
  World_ (FileSystem_ {[exFile := exContent; "/app/src/Clock.ts" := "tick();"]} ∅ ∅)
         [exStored; StoredFix_ exOtherFix None None "/app" "t0" "t0"].

Definition exClock (k : nat) : nat := 100 + k.

Definition exStore : Store unit unit unit :=
  Store_ [StoredScenario_ tt "/app" "t0" "t0"; StoredScenario_ tt "/other" "t0" "t0"]
         [StoredTestResult_ tt "/app" "t1"; StoredTestResult_ tt "/other" "t2"]
         [exStored; StoredFix_ exOtherFix None None "/other" "t0" "t0"]
         [StoredPlan_ tt "/app" "t0"]
         [StoredIssue_ exIssue "/app" "t0"].

(** Both fixes of [exTwoFixes] applied in one batch, before any
    confirmation. *)
Definition exBatch : outcome (list ApplyFixResult * ApplySummary) :=
  applyFixes ["fix-1"; "fix-9"] None exClock exTwoFixes.

Definition exBatchResults : list ApplyFixResult :=
  match exBatch with Returned (results, _) _ => results | Threw _ => [] end.

Definition exBatchSummary : ApplySummary :=
  match exBatch with
  | Returned (_, summary) _ => summary
  | Threw _ => ApplySummary_ 0 0 []
  end.

(** The confirmed fixes of the project of [exApproved] applied. *)
Definition exConfirmedBatch : outcome (list ApplyFixResult * ConfirmedSummary) :=
  applyConfirmedFixes "/app" None exClock exApproved.

Definition exConfirmedResults : list ApplyFixResult :=
  match exConfirmedBatch with Returned (results, _) _ => results | Threw _ => [] end.

Definition exConfirmedSummary : ConfirmedSummary :=
  match exConfirmedBatch with
  | Returned (_, summary) _ => summary
  | Threw _ => ConfirmedSummary_ 0 0 0
  end.

Definition exSuggestedResult : SuggestFixesResult :=
  match exSuggested with
  | Some (result, _, _) => result
  | None => SuggestFixesResult_ [] (SuggestSummary_ 0 (ByConfidence_ 0 0 0) ∅)
  end.

Definition exSuggestedEnv : Env :=
  match exSuggested with Some (_, _, e) => e | None => exEnv end.

(** The template for the issue of the example on its file. *)
Definition exFixCode : FixCode :=
  default (FixCode_ "" "" 0) (generateFixCode exIssue web exContent).

(** A dry run of the approved fix, and two confirmations of the same fix. *)
Definition exDryParams : ApplyFixParams := ApplyFixParams_ "fix-1" None None (Some true).

Definition exReject : ConfirmFixParams :=
  ConfirmFixParams_ "fix-1" reject None (Some "not needed").

Definition exApprove : ConfirmFixParams := ConfirmFixParams_ "fix-1" approve None None.




End MoreExamples.

(** ** Further notions used in the statements *)

Module MoreNotions.
Import Js Diff Regex RegexOps Storage FixTools Detection Suggest.

(** The ids of the records of a fix store, in order. *)
Definition ids (fixes : list StoredFix) : list string :=
  map (fun f => fx_id (sf_fix f)) fixes.

(** The rows of [generateDiff] for the first [n] line numbers. *)
Definition rows (ol ml : list string) (n : nat) : list string :=
  flat_map (fun i => generateDiff_row (ol !! i) (ml !! i)) (seq 0 n).

(** A text none of whose lines is empty. *)
Definition noEmptyLine (s : string) : Prop :=
  Forall (fun l => l <> EmptyString) (split_lines s).

(** Reading the rows of a preview diff back: a row that starts with two
    blanks is a line of both texts, a [- ] row followed by a [+ ] row is a
    changed line, a [- ] row alone a line of the original only, and a [+ ]
    row alone a line of the modified text only. *)
Fixpoint readDiff (rows : list string) : list string * list string :=
  match rows with
  | [] => ([], [])
  | String " " (String " " x) :: rest =>
      let '(o, m) := readDiff rest in (x :: o, x :: m)
  | String "-" (String " " x) :: rest =>
      match rest with
      | String "+" (String " " y) :: rest' =>
          let '(o, m) := readDiff rest' in (x :: o, y :: m)
      | _ => let '(o, m) := readDiff rest in (x :: o, m)
      end
  | String "+" (String " " y) :: rest =>
      let '(o, m) := readDiff rest in (o, y :: m)
  | _ :: rest => readDiff rest
  end.

(** A fix as [suggestFixes] makes it for an issue: pending, about the
    place of the issue, with a suggested code that differs from the
    original, their preview diff, and a confidence between 70 and 90. *)
Definition suggested_for (issue : DetectedIssue) (f : FixSuggestion) : Prop :=
  fx_status f = pending /\
  fx_issueId f = is_id issue /\
  fx_file f = is_file issue /\
  fx_line f = is_line issue /\
  fx_originalCode f <> fx_suggestedCode f /\
  fx_diff f = generateDiff (fx_originalCode f) (fx_suggestedCode f) /\
  70 <= fx_confidence f <= 90 /\
  fx_confirmedAt f = None /\
  fx_appliedAt f = None.

(** Replacing every match from left to right in one pass over the text:
    at a position where the pattern matches, the match is replaced and
    the pass goes on behind it; elsewhere one character is copied. *)
Fixpoint scanReplace (fuel : nat) (r : regex) (replacement : matched -> string)
    (pos : nat) (rest : string) : string :=
  match fuel with
  | O => rest
  | S fuel' =>
      match matchAt r pos rest with
      | Some m =>
          replacement m
          +:+ scanReplace fuel' r replacement (m_lastIndex m)
                (drop_string (m_lastIndex m - pos) rest)
      | None =>
          match rest with
          | String c rest' => String c (scanReplace fuel' r replacement (pos + 1) rest')
          | EmptyString => EmptyString
          end
      end
  end.

(** The longest run of word characters a text starts with, and what
    follows it. *)
Fixpoint wordRun (s : string) : string * string :=
  match s with
  | String c s' =>
      if is_word c then let '(w, rest) := wordRun s' in (String c w, rest)
      else (EmptyString, s)
  | EmptyString => (EmptyString, EmptyString)
  end.

(** A name, an exclamation mark and the character [x]: the shape of
    [/(\w+)!\./] and of [/(\w+)!!/]. *)
Definition assertionPattern (x : ascii) : regex :=
  Seq (Group 1 (plus word)) (Seq (Chr "!") (Chr x)).

(** The first character of a text. *)
Definition first (t : string) : option ascii :=
  match t with
  | String c _ => Some c
  | EmptyString => None
  end.

(** Does the text start with an exclamation mark and then [x]? *)
Definition startsBang (x : ascii) (t : string) : bool :=
  match t with
  | String c (String x' _) => Ascii.eqb "!" c && Ascii.eqb x x'
  | _ => false
  end.

(** Does the text hold a word character followed by an exclamation mark
    and [x]? *)
Fixpoint hot (x : ascii) (t : string) : bool :=
  match t with
  | String c t' => (is_word c && startsBang x t') || hot x t'
  | EmptyString => false
  end.

(** Whatever a computation answers satisfies [P]. *)
Definition produces {A} (m : M A) (P : A -> Prop) : Prop :=
  forall e a e', m e = Some (a, e') -> P a.

(** An issue that is about the file and points at one of its lines. *)
Definition inFile (filePath content : string) (i : DetectedIssue) : Prop :=
  is_file i = filePath /\
  (1 <= is_line i <= Z.of_nat (length (split_lines content)))%Z.

(** The sum of the counts of a [Record<string, number>]. *)
Definition countAll (counts : gmap string nat) : nat :=
  map_fold (fun _ n acc => n + acc) 0 counts.




(** The fix a result of [applyFix] is about. *)
Definition fixIdOf (r : ApplyFixResult) : string := ap_fixId (ar_application r).











End MoreNotions.

Import Js Diff Patch Regex Fs Storage FixTools Detection Lifecycle Examples Notions.
Import Trace.

(** ** Round trip of the look-ahead diff *)

Section UnifiedDiffRoundTrip.

Lemma strict_eq_true a b : strict_eq a b = true <-> a = b.
Proof.
  destruct a, b; simpl; try (split; congruence).
  rewrite String.eqb_eq. split; congruence.
Qed.

Lemma strict_eq_in_range (o m : list string) i j :
  strict_eq (o !! i) (m !! j) = true ->
  i < length o \/ j < length m ->
  exists x, o !! i = Some x /\ m !! j = Some x.
Proof.
  intros E%strict_eq_true Hc.
  destruct (o !! i) as [x|] eqn:Ho.
  - eauto.
  - symmetry in E. apply lookup_ge_None in Ho, E. lia.
Qed.

Lemma pm_line_inv l : pm_line l -> exists s, l = String "-" s \/ l = String "+" s.
Proof.
  destruct l as [|c s]; [discriminate|]. unfold pm_line, startsWithChar.
  intros [H|H]%orb_true_iff; apply Ascii.eqb_eq in H; subst; eauto.
Qed.

Lemma dels_cons_minus s h : dels (String "-" s :: h) = s :: dels h.
Proof. reflexivity. Qed.
Lemma dels_cons_plus s h : dels (String "+" s :: h) = dels h.
Proof. reflexivity. Qed.
Lemma adds_cons_minus s h : adds (String "-" s :: h) = adds h.
Proof. reflexivity. Qed.
Lemma adds_cons_plus s h : adds (String "+" s :: h) = s :: adds h.
Proof. reflexivity. Qed.

Lemma dels_app a b : dels (a ++ b) = dels a ++ dels b.
Proof. apply omap_app. Qed.

Lemma adds_app a b : adds (a ++ b) = adds a ++ adds b.
Proof. apply omap_app. Qed.

Lemma dels_minus (l : list string) : dels (map (String "-") l) = l.
Proof. induction l as [|x l IH]; [done|]. cbn [map]. rewrite dels_cons_minus. by f_equal. Qed.

Lemma adds_minus (l : list string) : adds (map (String "-") l) = [].
Proof. induction l as [|x l IH]; [done|]. cbn [map]. by rewrite adds_cons_minus. Qed.

Lemma dels_plus (l : list string) : dels (map (String "+") l) = [].
Proof. induction l as [|x l IH]; [done|]. cbn [map]. by rewrite dels_cons_plus. Qed.

Lemma adds_plus (l : list string) : adds (map (String "+") l) = l.
Proof. induction l as [|x l IH]; [done|]. cbn [map]. rewrite adds_cons_plus. by f_equal. Qed.

Lemma pm_minus (l : list string) : Forall pm_line (map (String "-") l).
Proof. induction l; constructor; done. Qed.

Lemma pm_plus (l : list string) : Forall pm_line (map (String "+") l).
Proof. induction l; constructor; done. Qed.

Lemma window_lines (ls : list string) n : forall i,
  i + n <= length ls ->
  map (fun k => tmpl (ls !! (i + k))) (seq 0 n) = take n (drop i ls).
Proof.
  induction n as [|n IH]; intros i Hi.
  - by rewrite take_0.
  - rewrite seq_S, map_app, IH by lia. simpl.
    destruct (lookup_lt_is_Some_2 ls (i + n)) as [x Hx]; [lia|].
    rewrite (take_S_r _ _ x) by (by rewrite lookup_drop).
    by rewrite Hx.
Qed.

Lemma minusLines_window ls i n :
  i + n <= length ls -> minusLines ls i n = map (String "-") (take n (drop i ls)).
Proof.
  intros H. rewrite <- window_lines by done. unfold minusLines.
  by rewrite map_map.
Qed.

Lemma plusLines_window ls j n :
  j + n <= length ls -> plusLines ls j n = map (String "+") (take n (drop j ls)).
Proof.
  intros H. rewrite <- window_lines by done. unfold plusLines.
  by rewrite map_map.
Qed.

(** Patching over a hunk body. *)
Lemma patchLines_app st a b :
  patchLines st (a ++ b) =
  match patchLines st a with Some st' => patchLines st' b | None => None end.
Proof.
  revert st. induction a as [|x a IH]; intros st; simpl; [done|].
  destruct (patchLine st x); [apply IH|done].
Qed.

Lemma patch_hunk hunk : forall pos rest out,
  Forall pm_line hunk ->
  patchLines (PatchState pos (dels hunk ++ rest) out) hunk =
  Some (PatchState (pos + length (dels hunk)) rest (out ++ adds hunk)).
Proof.
  induction hunk as [|l hunk IH]; intros pos rest out Hpm.
  - simpl. by rewrite Nat.add_0_r, app_nil_r.
  - inversion Hpm as [|? ? Hl Hpm']; subst.
    destruct (pm_line_inv _ Hl) as [s [->| ->]].
    + rewrite dels_cons_minus, adds_cons_minus. cbn [patchLines patchLine app].
      rewrite String.eqb_refl, IH by done.
      cbn [length]. do 2 f_equal. lia.
    + rewrite dels_cons_plus, adds_cons_plus. cbn [patchLines patchLine].
      rewrite IH by done.
      by rewrite <- app_assoc.
Qed.

(** Reading back the start line of a hunk header. *)
Lemma digits_prefix_uint u c r :
  is_digit c = false ->
  digits_prefix (NilEmpty.string_of_uint u +:+ String c r) = NilEmpty.string_of_uint u.
Proof.
  intros Hc. induction u; simpl; rewrite ?Hc; try done; by rewrite IHu.
Qed.

Lemma parse_nat_show n c r :
  is_digit c = false -> parse_nat (show_nat n +:+ String c r) = Some n.
Proof.
  intros Hc. unfold parse_nat, show_nat.
  rewrite digits_prefix_uint by done.
  rewrite NilEmpty.usu. simpl. by rewrite DecimalNat.Unsigned.of_to.
Qed.

Lemma show_Z_succ e : show_Z (Z.of_nat e + 1) = show_nat (S e).
Proof.
  unfold show_Z. destruct (Z.ltb_spec (Z.of_nat e + 1) 0); [lia|].
  f_equal. lia.
Qed.

Lemma parse_hunkHeader e hunk : parseHunkStart (hunkHeader (Z.of_nat e) hunk) = Some (S e).
Proof.
  unfold hunkHeader. rewrite !show_Z_succ. cbn [parseHunkStart String.append].
  by apply parse_nat_show.
Qed.

Lemma parse_lastHeader e : parseHunkStart (lastHeader (Z.of_nat e)) = Some (S e).
Proof.
  unfold lastHeader. rewrite !show_Z_succ. cbn [parseHunkStart String.append].
  by apply parse_nat_show.
Qed.

Lemma patchLine_header X e pos rest out :
  parse_nat X = Some (S e) -> pos <= e -> e - pos <= length rest ->
  patchLine (PatchState pos rest out) ("@@ -" +:+ X) =
  Some (PatchState e (drop (e - pos) rest) (out ++ take (e - pos) rest)).
Proof.
  intros HX H1 H2.
  change ("@@ -" +:+ X) with (String "@" (String "@" (String " " (String "-" X)))).
  cbn [patchLine parseHunkStart]. rewrite HX.
  destruct (Nat.leb_spec pos e); [|lia].
  destruct (Nat.leb_spec (e - pos) (length rest)); [|lia]. done.
Qed.

Lemma window_nil l a : window l a a = [].
Proof. unfold window. by rewrite Nat.sub_diag, take_0. Qed.

Lemma window_app l a b c : a <= b -> b <= c -> window l a b ++ window l b c = window l a c.
Proof.
  intros H1 H2. unfold window.
  replace (c - a) with ((b - a) + (c - b)) by lia.
  rewrite <- take_take_drop, drop_drop. do 3 f_equal. lia.
Qed.

Lemma window_take l a n : window l a (a + n) = take n (drop a l).
Proof. unfold window. f_equal. lia. Qed.

Lemma window_snoc l a b x : a <= b -> l !! b = Some x -> window l a (b + 1) = window l a b ++ [x].
Proof.
  intros H Hx. rewrite <- (window_app l a b (b + 1)) by lia. f_equal.
  rewrite window_take. rewrite (take_S_r _ 0 x); [done|].
  rewrite lookup_drop. by rewrite Nat.add_0_r.
Qed.

Lemma window_length l a b : b <= length l -> length (window l a b) = b - a.
Proof. intros H. unfold window. rewrite length_take, length_drop. lia. Qed.

Lemma window_drop l a b : a <= b -> window l a b ++ drop b l = drop a l.
Proof.
  intros H. unfold window. rewrite <- (take_drop (b - a) (drop a l)) at 2.
  f_equal. rewrite drop_drop. f_equal. lia.
Qed.

Lemma take_snoc (l : list string) j x : l !! j = Some x -> take (j + 1) l = take j l ++ [x].
Proof. intros H. rewrite Nat.add_1_r. by apply take_S_r. Qed.

(** What the look-ahead search found. *)
Ltac look_ahead_cases :=
  cbn [findMatch];
  repeat match goal with
         | |- context [if ?b then _ else _] => destruct b eqn:?
         end;
  intros [=]; subst;
  (split; [lia|split; [done|]]);
  intros n' Hn';
  first [ exfalso; lia
        | assert (n' = 1) as -> by lia
        | assert (n' = 1 \/ n' = 2) as [-> | ->] by lia ];
  done.

Lemma findMatch_removed (o m : list string) i j n :
  findMatch o m i j [1; 2; 3] = Some (Removed n) ->
  1 <= n /\ strict_eq (o !! (i + n)) (m !! j) = true /\
  forall n', 1 <= n' < n -> strict_eq (o !! (i + n')) (m !! j) = false.
Proof. look_ahead_cases. Qed.

Lemma findMatch_added (o m : list string) i j n :
  findMatch o m i j [1; 2; 3] = Some (Added n) ->
  1 <= n /\ strict_eq (o !! i) (m !! (j + n)) = true /\
  forall n', 1 <= n' < n -> strict_eq (o !! i) (m !! (j + n')) = false.
Proof. look_ahead_cases. Qed.

Lemma removed_in_range (o m : list string) i j n :
  findMatch o m i j [1; 2; 3] = Some (Removed n) ->
  i < length o \/ j < length m ->
  1 <= n /\ i + n <= length o.
Proof.
  intros (Hn & Heq & Hmin)%findMatch_removed Hc. split; [done|].
  apply strict_eq_true in Heq.
  destruct (m !! j) as [y|] eqn:Hm.
  - apply lookup_lt_Some in Heq. lia.
  - apply lookup_ge_None in Hm.
    destruct (decide (n = 1)) as [->|Hn1]; [lia|].
    specialize (Hmin (n - 1) ltac:(lia)).
    destruct (o !! (i + (n - 1))) as [x|] eqn:Ho; [|done].
    apply lookup_lt_Some in Ho. lia.
Qed.

Lemma added_in_range (o m : list string) i j n :
  findMatch o m i j [1; 2; 3] = Some (Added n) ->
  i < length o \/ j < length m ->
  1 <= n /\ j + n <= length m.
Proof.
  intros (Hn & Heq & Hmin)%findMatch_added Hc. split; [done|].
  apply strict_eq_true in Heq.
  destruct (o !! i) as [y|] eqn:Ho.
  - symmetry in Heq. apply lookup_lt_Some in Heq. lia.
  - apply lookup_ge_None in Ho.
    destruct (decide (n = 1)) as [->|Hn1]; [lia|].
    specialize (Hmin (n - 1) ltac:(lia)).
    destruct (m !! (j + (n - 1))) as [x|] eqn:Hm; [|done].
    apply lookup_lt_Some in Hm. lia.
Qed.

Variables o m : list string.

Lemma flush_hunk header (hunk body : list string) pos out e i :
  parseHunkStart header = Some (S e) ->
  (exists X, header = "@@ -" +:+ X) ->
  Forall pm_line hunk ->
  patchLines (PatchState 0 o []) body = Some (PatchState pos (drop pos o) out) ->
  pos <= e <= i -> i <= length o ->
  dels hunk = window o e i ->
  patchLines (PatchState 0 o []) (body ++ header :: hunk) =
  Some (PatchState i (drop i o) (out ++ window o pos e ++ adds hunk)).
Proof.
  intros Hparse [X ->] Hpm Hrun Hpe Hi Hdel.
  rewrite patchLines_app, Hrun. cbn [patchLines].
  rewrite (patchLine_header X e pos); [|exact Hparse|lia|rewrite length_drop; lia].
  rewrite drop_drop. replace (pos + (e - pos)) with e by lia.
  rewrite <- (window_drop o e i) by lia. rewrite <- Hdel.
  rewrite patch_hunk by done. rewrite Hdel, window_length by done.
  rewrite <- app_assoc. do 2 f_equal. lia.
Qed.

Lemma start_of_hunk (hunk : list string) hs i e :
  (hunk = [] -> e = i /\ hs = (-1)%Z) ->
  (hunk <> [] -> hs = Z.of_nat e) ->
  (if (hs =? -1)%Z then Z.of_nat i else hs) = Z.of_nat e.
Proof.
  intros Hnil Hne. destruct hunk as [|l hunk].
  - destruct Hnil as [-> ->]; done.
  - rewrite Hne by done. destruct (Z.eqb_spec (Z.of_nat e) (-1)); [lia|done].
Qed.

Ltac snoc_not_nil :=
  match goal with
  | H : _ ++ [_] = [] |- _ => by apply app_eq_nil in H as [_ ?]
  end.

Lemma loopBody_inv st :
  Inv o m st -> loopCond o m st = true ->
  Inv o m (loopBody o m st) /\ measure o m (loopBody o m st) < measure o m st.
Proof.
  destruct st as [i j hs hunk diff].
  intros (Hi & Hj & Hpm & h1 & h2 & body & pos & out & e &
          Hd & Hrun & Hpe & Hnil & Hne & Hdel & Hout) Hc.
  unfold loopCond in Hc. cbn [ls_i ls_j ls_hunk ls_diff ls_hunkStart] in *.
  assert (i < length o \/ j < length m) as Hc'.
  { apply orb_true_iff in Hc as [H|H]; apply Nat.ltb_lt in H; auto. }
  unfold loopBody, Inv, measure.
  destruct (strict_eq (o !! i) (m !! j)) eqn:E.
  - destruct (strict_eq_in_range _ _ _ _ E Hc') as (x & Hox & Hmx).
    pose proof (lookup_lt_Some _ _ _ Hox). pose proof (lookup_lt_Some _ _ _ Hmx).
    destruct hunk as [|l hunk]; cbn [ls_i ls_j ls_hunk ls_diff ls_hunkStart].
    + destruct Hnil as [-> Hhs]; [done|].
      split; [|lia]. split; [lia|]. split; [lia|]. split; [done|].
      exists h1, h2, body, pos, out, (i + 1).
      repeat split; try done; try lia.
      * by rewrite window_nil.
      * rewrite (window_snoc _ _ _ x), (take_snoc _ _ x) by (done || lia).
        rewrite <- Hout. cbn [adds]. by rewrite !app_nil_r, app_assoc.
    + split; [|lia]. split; [lia|]. split; [lia|]. split; [done|].
      rewrite Hne in * by done.
      exists h1, h2, (body ++ hunkHeader (Z.of_nat e) (l :: hunk) :: l :: hunk),
        i, (out ++ window o pos e ++ adds (l :: hunk)), (i + 1).
      repeat split; try done; try lia.
      * by rewrite Hd.
      * apply flush_hunk; try done.
        -- apply parse_hunkHeader.
        -- unfold hunkHeader. eauto.
      * by rewrite window_nil.
      * rewrite Hout, (window_snoc _ _ _ x), (take_snoc _ _ x) by (done || lia).
        by rewrite window_nil, app_nil_r.
  - rewrite (start_of_hunk hunk hs i e) by done.
    destruct (findMatch o m i j [1; 2; 3]) as [[n|n]|] eqn:F;
      cbn [ls_i ls_j ls_hunk ls_diff ls_hunkStart].
    + destruct (removed_in_range _ _ _ _ _ F Hc') as [Hn Hin].
      rewrite minusLines_window by done.
      split; [|lia]. split; [lia|]. split; [lia|].
      split; [apply Forall_app; split; [done|apply pm_minus]|].
      assert (hunk ++ map (String "-") (take n (drop i o)) <> []) as Hnn.
      { intros [_ Hm]%app_eq_nil. apply (f_equal length) in Hm.
        rewrite length_map, length_take, length_drop in Hm. simpl in Hm. lia. }
      exists h1, h2, body, pos, out, e.
      repeat split; try done; try lia.
      * rewrite dels_app, dels_minus, Hdel, <- window_take. apply window_app; lia.
      * by rewrite adds_app, adds_minus, app_nil_r.
    + destruct (added_in_range _ _ _ _ _ F Hc') as [Hn Hin].
      rewrite plusLines_window by done.
      split; [|lia]. split; [lia|]. split; [lia|].
      split; [apply Forall_app; split; [done|apply pm_plus]|].
      assert (hunk ++ map (String "+") (take n (drop j m)) <> []) as Hnn.
      { intros [_ Hm]%app_eq_nil. apply (f_equal length) in Hm.
        rewrite length_map, length_take, length_drop in Hm. simpl in Hm. lia. }
      exists h1, h2, body, pos, out, e.
      repeat split; try done; try lia.
      * by rewrite dels_app, dels_plus, app_nil_r.
      * rewrite adds_app, adds_plus, !app_assoc, <- (app_assoc out), Hout.
        apply take_take_drop.
    + destruct (Nat.ltb_spec i (length o)) as [Hio|Hio];
        destruct (Nat.ltb_spec j (length m)) as [Hjm|Hjm];
        cbn [ls_i ls_j ls_hunk ls_diff ls_hunkStart]; [| | |lia].
      * destruct (lookup_lt_is_Some_2 o i Hio) as [x Hx].
        destruct (lookup_lt_is_Some_2 m j Hjm) as [y Hy].
        rewrite Hx, Hy. cbn [tmpl].
        change ("-" +:+ x) with (String "-" x). change ("+" +:+ y) with (String "+" y).
        split; [|lia]. split; [lia|]. split; [lia|].
        split; [repeat (apply Forall_app; split); try done; by repeat constructor|].
        exists h1, h2, body, pos, out, e.
        repeat split; try done; try lia; try snoc_not_nil.
        -- rewrite !dels_app, dels_cons_minus, dels_cons_plus, Hdel.
           cbn [dels omap list_omap]. rewrite app_nil_r. symmetry. apply window_snoc; [lia|done].
        -- rewrite !adds_app, adds_cons_minus, adds_cons_plus.
           cbn [adds omap list_omap]. rewrite app_nil_r.
           rewrite !app_assoc, <- (app_assoc out), Hout. symmetry. by apply take_snoc.
      * destruct (lookup_lt_is_Some_2 o i Hio) as [x Hx].
        rewrite Hx. cbn [tmpl]. change ("-" +:+ x) with (String "-" x).
        split; [|lia]. split; [lia|]. split; [lia|].
        split; [repeat (apply Forall_app; split); try done; by repeat constructor|].
        exists h1, h2, body, pos, out, e.
        repeat split; try done; try lia; try snoc_not_nil.
        -- rewrite !dels_app, dels_cons_minus, Hdel.
           cbn [dels omap list_omap]. symmetry. apply window_snoc; [lia|done].
        -- rewrite !adds_app, adds_cons_minus.
           cbn [adds omap list_omap]. by rewrite app_nil_r.
      * destruct (lookup_lt_is_Some_2 m j Hjm) as [y Hy].
        rewrite Hy. cbn [tmpl]. change ("+" +:+ y) with (String "+" y).
        split; [|lia]. split; [lia|]. split; [lia|].
        split; [repeat (apply Forall_app; split); try done; by repeat constructor|].
        exists h1, h2, body, pos, out, e.
        repeat split; try done; try lia; try snoc_not_nil.
        -- rewrite !dels_app, dels_cons_plus.
           cbn [dels omap list_omap]. by rewrite app_nil_r.
        -- rewrite !adds_app, adds_cons_plus.
           cbn [adds omap list_omap].
           rewrite !app_assoc, <- (app_assoc out), Hout. symmetry. by apply take_snoc.
Qed.

Lemma loop_inv fuel : forall st,
  Inv o m st -> measure o m st <= fuel ->
  Inv o m (loop fuel o m st) /\ loopCond o m (loop fuel o m st) = false.
Proof.
  induction fuel as [|fuel IH]; intros st HI Hm; cbn [loop].
  - split; [done|]. destruct HI as (Hi & Hj & _). unfold measure in Hm.
    unfold loopCond. apply orb_false_iff. split; apply Nat.ltb_ge; lia.
  - destruct (loopCond o m st) eqn:Hc; [|done].
    destruct (loopBody_inv st HI Hc) as [HI' Hlt]. apply IH; [done|lia].
Qed.

Lemma Inv_init h1 h2 : Inv o m (LoopState 0 0 (-1) [] [h1; h2]).
Proof.
  unfold Inv. cbn [ls_i ls_j ls_hunk ls_diff ls_hunkStart].
  split; [lia|]. split; [lia|]. split; [done|].
  exists h1, h2, [], 0, [], 0. repeat split; try done.
Qed.

Lemma unifiedDiffLines_patch filename :
  patch (unifiedDiffLines o m filename) o = Some m.
Proof.
  unfold unifiedDiffLines.
  destruct (loop_inv (length o + length m) _
              (Inv_init ("--- a/" +:+ filename) ("+++ b/" +:+ filename)))
    as [HI Hc]; [unfold measure; simpl; lia|].
  destruct (loop _ _ _ _) as [i j hs hunk diff].
  destruct HI as (Hi & Hj & Hpm & h1 & h2 & body & pos & out & e &
                  Hd & Hrun & Hpe & Hnil & Hne & Hdel & Hout).
  unfold loopCond in Hc. cbn [ls_i ls_j ls_hunk ls_diff ls_hunkStart] in *.
  apply orb_false_iff in Hc as [Hio%Nat.ltb_ge Hjm%Nat.ltb_ge].
  assert (i = length o) as -> by lia. assert (j = length m) as -> by lia.
  rewrite firstn_all in Hout. subst diff.
  destruct hunk as [|l hunk]; cbn [app patch].
  - rewrite Hrun. cbn [p_out p_rest]. destruct Hnil as [-> _]; [done|].
    cbn [adds omap list_omap] in Hout. rewrite app_nil_r in Hout.
    rewrite <- (window_drop o pos (length o)) by lia.
    by rewrite drop_all, app_nil_r, Hout.
  - rewrite Hne by done.
    rewrite (flush_hunk _ _ _ pos out e (length o)); try done.
    + cbn [p_out p_rest]. by rewrite drop_all, app_nil_r, Hout.
    + apply parse_lastHeader.
    + unfold lastHeader. eauto.
Qed.

End UnifiedDiffRoundTrip.

(** ** Lines and texts *)

Section Lines.

Lemma split_lines_not_nil s : split_lines s <> [].
Proof.
  destruct s as [|c s]; cbn [split_lines]; [done|].
  destruct (Ascii.eqb c LF); [done|]. by destruct (split_lines s).
Qed.

Lemma concat_cons_char sep c l ls :
  String.concat sep (String c l :: ls) = String c (String.concat sep (l :: ls)).
Proof. by destruct ls. Qed.

Lemma join_split s : join_lines (split_lines s) = s.
Proof.
  unfold join_lines. induction s as [|c s IH]; [done|]. cbn [split_lines].
  destruct (Ascii.eqb_spec c LF) as [->|Hc].
  - destruct (split_lines s) as [|l ls] eqn:E; [by apply split_lines_not_nil in E|].
    cbn [String.concat]. cbn [String.concat] in IH. by rewrite IH.
  - destruct (split_lines s) as [|l ls] eqn:E; [by apply split_lines_not_nil in E|].
    by rewrite concat_cons_char, IH.
Qed.

Lemma noLF_cons c s : noLF (String c s) <-> c <> LF /\ noLF s.
Proof.
  unfold noLF. cbn [count_char]. destruct (Ascii.eqb_spec LF c) as [<-|Hc].
  - split; [lia|]. by intros [? _].
  - split; [intros H; split; [congruence|lia]|]. intros [_ H]. lia.
Qed.

Lemma append_cons c a b : String c a +:+ b = String c (a +:+ b).
Proof. reflexivity. Qed.

Lemma append_nil b : "" +:+ b = b.
Proof. reflexivity. Qed.

Lemma append_nil_r (a : string) : a +:+ "" = a.
Proof. induction a as [|c a IH]; [done|]. by rewrite append_cons, IH. Qed.

Lemma noLF_app a b : noLF (a +:+ b) <-> noLF a /\ noLF b.
Proof.
  induction a as [|c a IH].
  - rewrite append_nil. split; [by intros H; split|by intros [_ H]].
  - rewrite append_cons, !noLF_cons, IH. tauto.
Qed.

Lemma split_lines_noLF s : noLF s -> split_lines s = [s].
Proof.
  induction s as [|c s IH]; [done|]. intros [Hc Hs]%noLF_cons. cbn [split_lines].
  destruct (Ascii.eqb_spec c LF); [done|]. by rewrite IH.
Qed.

Lemma split_lines_app_LF a b :
  noLF a -> split_lines (a +:+ String LF b) = a :: split_lines b.
Proof.
  induction a as [|c a IH]; intros Ha.
  - rewrite append_nil. cbn [split_lines]. by rewrite Ascii.eqb_refl.
  - rewrite append_cons. cbn [split_lines].
    apply noLF_cons in Ha as [Hc Ha]. destruct (Ascii.eqb_spec c LF); [done|].
    by rewrite IH.
Qed.

Lemma split_join ls : ls <> [] -> Forall noLF ls -> split_lines (join_lines ls) = ls.
Proof.
  unfold join_lines. induction ls as [|l ls IH]; [done|]. intros _ Hls.
  inversion Hls as [|? ? Hl Hls']; subst. destruct ls as [|l' ls].
  - by apply split_lines_noLF.
  - cbn [String.concat]. rewrite append_cons, append_nil.
    rewrite split_lines_app_LF by done. f_equal. by apply IH.
Qed.

Lemma split_lines_all_noLF s : Forall noLF (split_lines s).
Proof.
  induction s as [|c s IH]; cbn [split_lines]; [by repeat constructor|].
  destruct (Ascii.eqb_spec c LF) as [->|Hc]; [by constructor|].
  destruct (split_lines s) as [|l ls].
  - constructor; [by apply noLF_cons|constructor].
  - inversion IH; subst. constructor; [|done]. by apply noLF_cons.
Qed.

Lemma noLF_uint u : noLF (NilEmpty.string_of_uint u).
Proof. induction u; cbn [NilEmpty.string_of_uint]; try done; by apply noLF_cons. Qed.

Lemma noLF_show_nat n : noLF (show_nat n).
Proof. apply noLF_uint. Qed.

Lemma noLF_show_Z z : noLF (show_Z z).
Proof.
  unfold show_Z. destruct (z <? 0)%Z; [|apply noLF_show_nat].
  apply noLF_app. split; [done|apply noLF_show_nat].
Qed.

Lemma noLF_tmpl (ls : list string) i : Forall noLF ls -> noLF (tmpl (ls !! i)).
Proof.
  intros H. destruct (ls !! i) as [x|] eqn:E; [|done].
  cbn [tmpl]. eapply Forall_lookup_1; eauto.
Qed.

Lemma noLF_hunkHeader hs hunk : noLF (hunkHeader hs hunk).
Proof.
  unfold hunkHeader.
  repeat (apply noLF_app; split); try done; auto using noLF_show_Z, noLF_show_nat.
Qed.

Lemma noLF_lastHeader hs : noLF (lastHeader hs).
Proof.
  unfold lastHeader.
  repeat (apply noLF_app; split); try done; auto using noLF_show_Z.
Qed.

Lemma noLF_minusLines ls i n : Forall noLF ls -> Forall noLF (minusLines ls i n).
Proof.
  intros H. unfold minusLines. apply Forall_map, Forall_forall. intros k _.
  apply noLF_app. split; [done|by apply noLF_tmpl].
Qed.

Lemma noLF_plusLines ls j n : Forall noLF ls -> Forall noLF (plusLines ls j n).
Proof.
  intros H. unfold plusLines. apply Forall_map, Forall_forall. intros k _.
  apply noLF_app. split; [done|by apply noLF_tmpl].
Qed.

Lemma loopBody_noLF o m st :
  Forall noLF o -> Forall noLF m ->
  Forall noLF (ls_diff st) /\ Forall noLF (ls_hunk st) ->
  Forall noLF (ls_diff (loopBody o m st)) /\ Forall noLF (ls_hunk (loopBody o m st)).
Proof.
  intros Ho Hm [Hd Hh]. destruct st as [i j hs hunk diff].
  cbn [ls_diff ls_hunk] in *. unfold loopBody.
  destruct (strict_eq _ _).
  - destruct hunk as [|l hunk]; cbn [ls_diff ls_hunk]; [done|].
    split; [|done]. apply Forall_app. split; [done|].
    constructor; [apply noLF_hunkHeader|done].
  - destruct (findMatch o m i j [1; 2; 3]) as [[n|n]|]; cbn [ls_diff ls_hunk].
    + split; [done|]. apply Forall_app. auto using noLF_minusLines.
    + split; [done|]. apply Forall_app. auto using noLF_plusLines.
    + assert (noLF ("-" +:+ tmpl (o !! i))) as H1
        by (apply noLF_app; split; [done|by apply noLF_tmpl]).
      assert (noLF ("+" +:+ tmpl (m !! j))) as H2
        by (apply noLF_app; split; [done|by apply noLF_tmpl]).
      destruct (i <? length o), (j <? length m); cbn [ls_diff ls_hunk];
        (split; [done|]); repeat (apply Forall_app; split); auto.
Qed.

Lemma loop_noLF o m fuel : forall st,
  Forall noLF o -> Forall noLF m ->
  Forall noLF (ls_diff st) /\ Forall noLF (ls_hunk st) ->
  Forall noLF (ls_diff (loop fuel o m st)) /\ Forall noLF (ls_hunk (loop fuel o m st)).
Proof.
  induction fuel as [|fuel IH]; intros st Ho Hm Hst; cbn [loop]; [done|].
  destruct (loopCond o m st); [|done]. apply IH; auto using loopBody_noLF.
Qed.

Lemma unifiedDiffLines_noLF o m filename :
  Forall noLF o -> Forall noLF m -> noLF filename ->
  unifiedDiffLines o m filename <> [] /\ Forall noLF (unifiedDiffLines o m filename).
Proof.
  intros Ho Hm Hf. unfold unifiedDiffLines.
  assert (Forall noLF ["--- a/" +:+ filename; "+++ b/" +:+ filename]) as H0.
  { repeat constructor; apply noLF_app; by split. }
  destruct (loop_noLF o m (length o + length m)
              (LoopState 0 0 (-1) [] ["--- a/" +:+ filename; "+++ b/" +:+ filename])
              Ho Hm) as [Hd Hh]; [by split|].
  destruct (ls_hunk _) as [|l hunk] eqn:E.
  - split; [|done]. intros Hnil.
    destruct (loop_inv o m (length o + length m) _
                (Inv_init o m ("--- a/" +:+ filename) ("+++ b/" +:+ filename)))
      as [(_ & _ & _ & h1 & h2 & body & ? & ? & ? & Hdiff & _) _].
    { unfold measure. simpl. lia. }
    by rewrite Hnil in Hdiff.
  - split; [by destruct (ls_diff _)|].
    apply Forall_app. split; [done|]. constructor; [apply noLF_lastHeader|done].
Qed.

End Lines.

(** Round trip of the look-ahead diff on texts: for a file name without a
    line break, patching the original text with the text of the diff gives
    back the modified text. *)
Theorem generateUnifiedDiff_round_trip original modified filename :
  noLF filename ->
  applyUnifiedDiff (generateUnifiedDiff original modified filename) original
  = Some modified.
Proof.
  intros Hf. unfold applyUnifiedDiff, generateUnifiedDiff.
  destruct (unifiedDiffLines_noLF (split_lines original) (split_lines modified) filename)
    as [Hne Hall]; auto using split_lines_all_noLF.
  rewrite split_join by done.
  rewrite unifiedDiffLines_patch. cbn [fmap option_fmap option_map].
  by rewrite join_split.
Qed.

Lemma generateUnifiedDiff_round_trip_witness :
  applyUnifiedDiff (generateUnifiedDiff exContent exDriftedContent exFile) exContent
  = Some exDriftedContent.
Proof. apply generateUnifiedDiff_round_trip. reflexivity. Defined.

(** ** Every match of a pattern that needs a character moves on *)

Section RegexFacts.

Lemma prefix_cons a t b s :
  String.prefix (String a t) (String b s)
  = if ascii_dec a b then String.prefix t s else false.
Proof. reflexivity. Qed.

Lemma prefix_length t s : String.prefix t s = true -> String.length t <= String.length s.
Proof.
  revert s. induction t as [|a t IH]; intros s; [cbn [String.length]; lia|].
  destruct s as [|b s]; [done|]. rewrite prefix_cons.
  destruct (ascii_dec a b); [|done].
  intros H%IH. cbn [String.length]. lia.
Qed.

Lemma drop_string_length n s :
  String.length (drop_string n s) = String.length s - n.
Proof.
  revert s. induction n as [|n IH]; intros s; simpl; [lia|].
  destruct s as [|c s]; simpl; [done|]. apply IH.
Qed.

Lemma iterate_progress step n greedy min max k fuel : forall count cur cs res,
  progresses n step ->
  iterate step greedy min max k fuel count cur cs = Some res ->
  exists cur' cs',
    k cur' cs' = Some res /\
    c_pos cur + (min - count) * n <= c_pos cur' /\
    c_pos cur' + String.length (c_rest cur') = c_pos cur + String.length (c_rest cur).
Proof.
  induction fuel as [|fuel IHf]; intros count cur cs res Hstep; cbn [iterate].
  - destruct (Nat.leb_spec min count) as [Hle|Hgt]; [|done]. intros H.
    exists cur, cs. split; [done|]. replace (min - count) with 0 by lia. lia.
  - assert ((if min <=? count then k cur cs else None) = Some res ->
            exists cur' cs',
              k cur' cs' = Some res /\
              c_pos cur + (min - count) * n <= c_pos cur' /\
              c_pos cur' + String.length (c_rest cur')
              = c_pos cur + String.length (c_rest cur)) as Hstop.
    { destruct (Nat.leb_spec min count) as [Hle|Hgt]; [|done]. intros H.
      exists cur, cs. split; [done|]. replace (min - count) with 0 by lia. lia. }
    cbv zeta.
    destruct (below count max).
    + destruct (step cur cs _) as [res'|] eqn:Em.
      * assert (exists cur' cs',
                  k cur' cs' = Some res' /\
                  c_pos cur + (min - count) * n <= c_pos cur' /\
                  c_pos cur' + String.length (c_rest cur')
                  = c_pos cur + String.length (c_rest cur)) as Hmore.
        { apply Hstep in Em as (cur1 & cs1 & H & Hp1 & Hl1).
          destruct ((c_pos cur <? c_pos cur1) || (count <? min)); [|done].
          apply IHf in H as (cur2 & cs2 & H & Hp2 & Hl2); [|done].
          exists cur2, cs2. split; [done|]. split; [|lia].
          destruct (Nat.le_gt_cases min count) as [Hle|Hgt].
          - replace (min - count) with 0 by lia. lia.
          - replace (min - count) with (S (min - S count)) by lia. lia. }
        destruct greedy.
        -- by intros [= <-].
        -- destruct (if min <=? count then k cur cs else None) as [res''|] eqn:Es.
           ++ intros [= <-]. by apply Hstop.
           ++ by intros [= <-].
      * destruct greedy; [exact Hstop|].
        destruct (if min <=? count then k cur cs else None) as [res''|] eqn:Es; [|done].
        intros [= <-]. by apply Hstop.
    + destruct greedy; [exact Hstop|].
      destruct (if min <=? count then k cur cs else None) as [res''|] eqn:Es; [|done].
      intros [= <-]. by apply Hstop.
Qed.

(** A successful run reaches its continuation at a cursor that lies at
    least [minlen r] characters further and inside the subject. *)
Lemma run_progress r : progresses (minlen r) (run r).
Proof.
  induction r as [|c|f|r1 IH1 r2 IH2|greedy min max r' IH|n r' IH|n
                  |r1 IH1 r2 IH2|r' IH|f];
    intros cur cs k res; cbn [run minlen].
  - intros H. exists cur, cs. split; [done|]. lia.
  - destruct (c_rest cur) as [|c' s'] eqn:E; [done|].
    destruct (Ascii.eqb c c'); [|done]. intros H.
    eexists _, _. split; [exact H|]. cbn [c_pos c_rest String.length]. lia.
  - destruct (c_rest cur) as [|c' s'] eqn:E; [done|].
    destruct (f c'); [|done]. intros H.
    eexists _, _. split; [exact H|]. cbn [c_pos c_rest String.length]. lia.
  - intros H. apply IH1 in H as (cur1 & cs1 & H & Hp1 & Hl1).
    apply IH2 in H as (cur2 & cs2 & H & Hp2 & Hl2).
    exists cur2, cs2. split; [done|]. lia.
  - intros H. apply (iterate_progress _ (minlen r')) in H as (cur' & cs' & H & Hp & Hl);
      [|done].
    exists cur', cs'. split; [done|]. split; [|done]. rewrite Nat.sub_0_r in Hp. lia.
  - intros H. apply IH in H as (cur1 & cs1 & H & Hp1 & Hl1).
    eexists _, _. split; [exact H|]. lia.
  - destruct (String.prefix _ _) eqn:E; [|done]. intros H.
    eexists _, _. split; [exact H|]. cbn [c_pos c_rest].
    apply prefix_length in E. rewrite drop_string_length. lia.
  - destruct (run r1 cur cs k) as [res1|] eqn:E1.
    + intros [= <-]. apply IH1 in E1 as (cur1 & cs1 & H & Hp1 & Hl1).
      exists cur1, cs1. split; [done|]. lia.
    + intros H. apply IH2 in H as (cur2 & cs2 & H & Hp2 & Hl2).
      exists cur2, cs2. split; [done|]. lia.
  - destruct (run r' cur cs _); [done|]. intros H.
    exists cur, cs. split; [done|]. lia.
  - destruct (f (c_pos cur)); [|done]. intros H.
    exists cur, cs. split; [done|]. lia.
Qed.

Lemma matchAt_progress r pos rest m :
  matchAt r pos rest = Some m ->
  m_index m = pos /\ pos + minlen r <= m_lastIndex m /\
  m_lastIndex m <= pos + String.length rest.
Proof.
  unfold matchAt.
  destruct (run r (Cursor pos rest) [] _) as [[cur cs]|] eqn:E; [|done].
  intros [= <-]. cbn [m_index m_lastIndex].
  apply run_progress in E as (cur' & cs' & [= -> ->] & Hp & Hl).
  cbn [c_pos c_rest] in *. split; [done|]. lia.
Qed.

Lemma search_progress r rest : forall pos m,
  search r pos rest = Some m ->
  pos <= m_index m /\ m_index m + minlen r <= m_lastIndex m /\
  m_lastIndex m <= pos + String.length rest.
Proof.
  induction rest as [|c rest IH]; intros pos m; cbn [search].
  - destruct (matchAt r pos "") as [m'|] eqn:E; [|done]. intros [= ->].
    apply matchAt_progress in E as (-> & ? & ?). lia.
  - destruct (matchAt r pos (String c rest)) as [m'|] eqn:E.
    + intros [= ->]. apply matchAt_progress in E as (-> & ? & ?). lia.
    + intros H%IH. cbn [String.length]. lia.
Qed.

Lemma exec_progress r content lastIndex m :
  exec r content lastIndex = Some m ->
  lastIndex + minlen r <= m_lastIndex m /\ m_lastIndex m <= String.length content.
Proof.
  unfold exec.
  destruct (Nat.leb_spec lastIndex (String.length content)) as [Hle|Hgt]; [|done].
  intros H%search_progress. rewrite drop_string_length in H. lia.
Qed.

Lemma execAll_total r content fuel : forall lastIndex,
  1 <= minlen r ->
  String.length content <= lastIndex + fuel ->
  exists ms, execAll fuel r content lastIndex = Some ms.
Proof.
  induction fuel as [|fuel IH]; intros lastIndex Hr Hfuel; cbn [execAll].
  - destruct (exec r content lastIndex) as [m|] eqn:E; [|eauto].
    apply exec_progress in E. lia.
  - destruct (exec r content lastIndex) as [m|] eqn:E; [|eauto].
    apply exec_progress in E.
    destruct (Nat.ltb_spec lastIndex (m_lastIndex m)) as [Hlt|Hge]; [|lia].
    destruct (IH (m_lastIndex m)) as [ms Hms]; [done|lia|].
    rewrite Hms. eauto.
Qed.

(** The loop over the matches of such a pattern ends. *)
Lemma matches_total r content :
  1 <= minlen r -> exists ms, matches r content = Some ms.
Proof. intros Hr. apply execAll_total; [done|lia]. Qed.

End RegexFacts.

(** ** Texts inside texts *)

Lemma append_assoc (a b c : string) : (a +:+ b) +:+ c = a +:+ (b +:+ c).
Proof. induction a as [|x a IH]; [done|]. by rewrite !append_cons, IH. Qed.

Lemma prefix_app t y : String.prefix t (t +:+ y) = true.
Proof.
  induction t as [|a t IH]; [by destruct y|]. rewrite append_cons, prefix_cons.
  by destruct (ascii_dec a a).
Qed.

Lemma includes_here t y : includes (t +:+ y) t = true.
Proof.
  pose proof (prefix_app t y) as H. destruct (t +:+ y); cbn [includes]; by rewrite H.
Qed.

Lemma includes_app_l x s t : includes s t = true -> includes (x +:+ s) t = true.
Proof.
  intros H. induction x as [|c x IH]; [done|]. rewrite append_cons. cbn [includes].
  by destruct (String.prefix t _).
Qed.

Lemma includes_middle x t y : includes (x +:+ t +:+ y) t = true.
Proof. apply includes_app_l, includes_here. Qed.

Lemma concat_app sep (l1 l2 : list string) :
  l1 <> [] -> l2 <> [] ->
  String.concat sep (l1 ++ l2)
  = String.concat sep l1 +:+ sep +:+ String.concat sep l2.
Proof.
  intros H1 H2. induction l1 as [|a l1 IH]; [done|]. destruct l1 as [|b l1].
  - destruct l2 as [|c l2]; [done|]. reflexivity.
  - change (String.concat sep ((a :: b :: l1) ++ l2))
      with (a +:+ sep +:+ String.concat sep ((b :: l1) ++ l2)).
    rewrite IH by done.
    change (String.concat sep (a :: b :: l1))
      with (a +:+ sep +:+ String.concat sep (b :: l1)).
    by rewrite !append_assoc.
Qed.

Lemma join_lines_middle (before code after : list string) :
  code <> [] ->
  exists x y, join_lines (before ++ code ++ after) = x +:+ join_lines code +:+ y.
Proof.
  intros Hc. unfold join_lines. set (sep := String LF "").
  assert (exists y, String.concat sep (code ++ after)
                    = String.concat sep code +:+ y) as [y Hy].
  { destruct after as [|a after].
    - exists "". rewrite app_nil_r. clear. induction (String.concat sep code); [done|].
      by rewrite append_cons, <- IHs.
    - exists (sep +:+ String.concat sep (a :: after)). by apply concat_app. }
  destruct before as [|b before].
  - exists "", y. by rewrite append_nil.
  - exists (String.concat sep (b :: before) +:+ sep), y.
    rewrite concat_app; [|done|by destruct code].
    by rewrite Hy, !append_assoc.
Qed.

(** ** The fix store *)

Section StoreFacts.

Lemma getFixById_has_id fixes id sf :
  getFixById fixes id = Some sf -> has_id id sf = true.
Proof. intros H. by apply find_some in H as [_ H]. Qed.

Lemma getFixById_update fixes id g sf :
  getFixById fixes id = Some sf ->
  has_id id (g sf) = true ->
  getFixById (update_found id g fixes) id = Some (g sf).
Proof.
  unfold getFixById. induction fixes as [|f fixes IH]; [done|].
  cbn [find update_found]. destruct (has_id id f) eqn:E.
  - intros [= ->] Hg. cbn [find]. by rewrite Hg.
  - intros H Hg. cbn [find]. rewrite E. by apply IH.
Qed.

Lemma update_found_Forall (P : StoredFix -> Prop) id g fixes :
  (forall f, P f -> P (g f)) ->
  Forall P fixes -> Forall P (update_found id g fixes).
Proof.
  intros Hg. induction 1 as [|f fixes Hf Hfs IH]; [constructor|].
  cbn [update_found]. destruct (has_id id f); constructor; auto.
Qed.

Lemma updateFixConfirmation_found fixes id c now sf :
  getFixById fixes id = Some sf ->
  exists sf',
    getFixById (fst (updateFixConfirmation fixes id c now)) id = Some sf' /\
    snd (updateFixConfirmation fixes id c now) = true /\
    sf_confirmation sf' = Some c /\
    fx_status (sf_fix sf') = (if decide (cf_action c = approve) then confirmed else rejected) /\
    fx_file (sf_fix sf') = fx_file (sf_fix sf) /\
    fx_line (sf_fix sf') = fx_line (sf_fix sf) /\
    fx_originalCode (sf_fix sf') = fx_originalCode (sf_fix sf) /\
    fx_suggestedCode (sf_fix sf') = fx_suggestedCode (sf_fix sf).
Proof.
  intros H. unfold updateFixConfirmation. rewrite H. cbn [fst snd].
  eexists. split.
  - apply getFixById_update; [done|]. apply getFixById_has_id in H. exact H.
  - repeat split; reflexivity.
Qed.

Lemma updateFixApplication_found fixes id a now sf :
  getFixById fixes id = Some sf ->
  exists sf',
    getFixById (fst (updateFixApplication fixes id a now)) id = Some sf' /\
    sf_application sf' = Some a /\
    fx_status (sf_fix sf') = (if ap_success a then applied else failed) /\
    fx_file (sf_fix sf') = fx_file (sf_fix sf).
Proof.
  intros H. unfold updateFixApplication. rewrite H. cbn [fst].
  eexists. split.
  - apply getFixById_update; [done|]. apply getFixById_has_id in H. exact H.
  - repeat split; reflexivity.
Qed.

End StoreFacts.

(** ** The file system *)

Section FsFacts.

Lemma string_length_app (a b : string) :
  String.length (a +:+ b) = String.length a + String.length b.
Proof. induction a as [|c a IH]; simpl; [done|]. by rewrite IH. Qed.

Lemma rsplit_length c s x y :
  rsplit c s = Some (x, y) -> String.length s = String.length x + 1 + String.length y.
Proof.
  revert x y. induction s as [|a s IH]; intros x y; [done|].
  cbn [rsplit]. destruct (rsplit c s) as [[x' y']|] eqn:E.
  - intros [= <- <-]. cbn [String.length]. rewrite (IH x' y') by done. lia.
  - destruct (Ascii.eqb a c); [|done]. intros [= <- <-]. simpl. lia.
Qed.

Lemma dirname_basename_length p :
  String.length p <= String.length (dirname p) + 1 + String.length (basename p).
Proof.
  unfold dirname, basename. destruct (rsplit "/" p) as [[x y]|] eqn:E.
  - apply rsplit_length in E. destruct x; simpl in *; lia.
  - simpl. lia.
Qed.

Lemma backupPathOf_fresh file now : backupPathOf file now <> file.
Proof.
  intros H. apply (f_equal String.length) in H.
  unfold backupPathOf, backupDirOf, join in H.
  rewrite !string_length_app in H.
  pose proof (dirname_basename_length file). simpl in H. lia.
Qed.

Lemma read_write_same fs p c fs' :
  writeFileSync fs p c = Some fs' -> readFileSync fs' p = Some c.
Proof.
  unfold writeFileSync, readFileSync. case_bool_decide; [done|].
  intros [= <-]. cbn [files]. apply lookup_insert_eq.
Qed.

Lemma read_write_other fs p c fs' q :
  writeFileSync fs p c = Some fs' -> q <> p -> readFileSync fs' q = readFileSync fs q.
Proof.
  unfold writeFileSync, readFileSync. case_bool_decide; [done|].
  intros [= <-] Hq. cbn [files]. by apply lookup_insert_ne.
Qed.

Lemma write_readonly fs p c fs' :
  writeFileSync fs p c = Some fs' -> readonly fs' = readonly fs.
Proof. unfold writeFileSync. case_bool_decide; [done|]. by intros [= <-]. Qed.

Lemma write_succeeds fs p c :
  p ∉ readonly fs -> exists fs', writeFileSync fs p c = Some fs'.
Proof. intros H. unfold writeFileSync. rewrite bool_decide_eq_false_2 by done. eauto. Qed.


Lemma mkdir_files fs p fs' :
  mkdirSync fs p = Some fs' -> files fs' = files fs /\ readonly fs' = readonly fs.
Proof. unfold mkdirSync. case_bool_decide; [done|]. by intros [= <-]. Qed.

Lemma exists_read fs p c : readFileSync fs p = Some c -> existsSync fs p = true.
Proof.
  unfold readFileSync, existsSync. intros H. rewrite bool_decide_eq_true_2; [done|]. eauto.
Qed.

(** What taking the backup does to the file system. *)
Lemma createBackup_spec fs0 file content now fs1 backupPath :
  createBackup fs0 file content now = (fs1, backupPath) ->
  readonly fs1 = readonly fs0 /\
  (forall q, q <> backupPathOf file now -> readFileSync fs1 q = readFileSync fs0 q) /\
  (backupPath = None \/ backupPath = Some (backupPathOf file now)).
Proof.
  unfold createBackup.
  destruct (negb (existsSync fs0 (backupDirOf file))).
  - destruct (mkdirSync fs0 (backupDirOf file)) as [fsd|] eqn:Hmk.
    + apply mkdir_files in Hmk as [Hf Hr].
      destruct (writeFileSync fsd _ content) as [fsw|] eqn:Hw; intros [= <- <-].
      * split; [by rewrite (write_readonly _ _ _ _ Hw)|]. split; [|auto].
        intros q Hq. rewrite (read_write_other _ _ _ _ q Hw) by done.
        unfold readFileSync. by rewrite Hf.
      * split; [done|]. split; [|auto]. intros q _. unfold readFileSync. by rewrite Hf.
    + intros [= <- <-]. auto.
  - destruct (writeFileSync fs0 _ content) as [fsw|] eqn:Hw; intros [= <- <-].
    + split; [by rewrite (write_readonly _ _ _ _ Hw)|]. split; [|auto].
      intros q Hq. by rewrite (read_write_other _ _ _ _ q Hw).
    + auto.
Qed.

Lemma createBackup_succeeds fs0 file content now :
  backupDirOf file ∉ readonly fs0 ->
  backupPathOf file now ∉ readonly fs0 ->
  exists fs1,
    createBackup fs0 file content now = (fs1, Some (backupPathOf file now)) /\
    readFileSync fs1 (backupPathOf file now) = Some content.
Proof.
  intros Hd Hp. unfold createBackup.
  destruct (negb (existsSync fs0 (backupDirOf file))).
  - unfold mkdirSync. rewrite bool_decide_eq_false_2 by done.
    destruct (write_succeeds (FileSystem_ (files fs0) ({[backupDirOf file]} ∪ dirs fs0)
                                (readonly fs0)) (backupPathOf file now) content Hp)
      as [fsw Hw].
    rewrite Hw. eexists. split; [done|]. by eapply read_write_same.
  - destruct (write_succeeds fs0 (backupPathOf file now) content Hp) as [fsw Hw].
    rewrite Hw. eexists. split; [done|]. by eapply read_write_same.
Qed.

Lemma exists_write_other fs0 p c fs1 q :
  writeFileSync fs0 p c = Some fs1 -> q <> p -> existsSync fs1 q = existsSync fs0 q.
Proof.
  unfold writeFileSync, existsSync. case_bool_decide; [done|]. intros [= <-] Hq.
  cbn [files dirs]. by rewrite lookup_insert_ne.
Qed.

End FsFacts.

(** ** applyFix, confirmFix and rollbackFix *)

Section FixToolFacts.

Lemma truthy_join a b : truthy (Some (join a b)) = true.
Proof. unfold join. by destruct a. Qed.

Lemma guard_confirmed sf :
  fx_status (sf_fix sf) = confirmed ->
  negb (bool_decide (fx_status (sf_fix sf) = confirmed))
  && negb (bool_decide (is_Some (sf_confirmation sf))) = false.
Proof. intros ->. by rewrite bool_decide_eq_true_2. Qed.

Lemma guard_confirmation sf c :
  sf_confirmation sf = Some c ->
  negb (bool_decide (fx_status (sf_fix sf) = confirmed))
  && negb (bool_decide (is_Some (sf_confirmation sf))) = false.
Proof.
  intros ->. rewrite (bool_decide_eq_true_2 (is_Some (Some c))) by eauto.
  apply andb_false_r.
Qed.

Lemma restore_spec fs0 backupPath file content fs1 :
  restoreFromBackup fs0 backupPath file content = Some fs1 ->
  forall q, q <> file -> readFileSync fs1 q = readFileSync fs0 q.
Proof.
  unfold restoreFromBackup.
  destruct (truthy backupPath && existsSync fs0 (tmpl backupPath)).
  - intros Hw q Hq. by eapply read_write_other.
  - by intros [= <-].
Qed.

Lemma restore_with_backup fs0 bp file content c :
  readFileSync fs0 bp = Some c -> truthy (Some bp) = true ->
  restoreFromBackup fs0 (Some bp) file content = writeFileSync fs0 file content.
Proof.
  intros Hb Ht. unfold restoreFromBackup. rewrite Ht. cbn [tmpl].
  by rewrite (exists_read _ _ _ Hb).
Qed.

Lemma guard_passes sf :
  fx_status (sf_fix sf) = confirmed \/ is_Some (sf_confirmation sf) ->
  negb (bool_decide (fx_status (sf_fix sf) = confirmed))
  && negb (bool_decide (is_Some (sf_confirmation sf))) = false.
Proof.
  intros [H|[c H]]; [by apply guard_confirmed|by eapply guard_confirmation].
Qed.

(** The refusal of a fix that never went through [confirmFix]. *)
Lemma applyFix_unconfirmed params now w sf :
  getFixById (fixes w) (pp_fixId params) = Some sf ->
  fx_status (sf_fix sf) <> confirmed ->
  sf_confirmation sf = None ->
  applyFix params now w =
  Returned (failure (pp_fixId params) None notConfirmedError now) w.
Proof.
  intros Hget Hst Hc. unfold applyFix. rewrite Hget, Hc.
  rewrite bool_decide_eq_false_2 by done.
  rewrite (bool_decide_eq_false_2 (is_Some None)) by (by intros [? ?]).
  done.
Qed.

(** Whatever [applyFix] does, it writes to the target and to the backup
    path only, and it never changes which paths are writable. *)
Lemma applyFix_frame params now w sf :
  getFixById (fixes w) (pp_fixId params) = Some sf ->
  forall q, q <> fx_file (sf_fix sf) ->
            q <> backupPathOf (fx_file (sf_fix sf)) now ->
  readFileSync (fs (world_of (applyFix params now w))) q = readFileSync (fs w) q.
Proof.
  intros Hget q Hq Hb. unfold applyFix. rewrite Hget.
  destruct (_ && _); [done|].
  destruct (readFileSync (fs w) (fx_file (sf_fix sf))) as [c0|] eqn:Hread; [|done].
  destruct (default false (pp_dryRun params)); [done|].
  destruct (if default true (pp_backup params) then _ else _) as [fs1 bp] eqn:Hbk.
  assert (readFileSync fs1 q = readFileSync (fs w) q) as Hfs1.
  { destruct (default true (pp_backup params)).
    - apply createBackup_spec in Hbk as (_ & Hother & _). by apply Hother.
    - by injection Hbk as <- <-. }
  destruct (writeFileSync fs1 _ _) as [fs2|] eqn:Hw.
  - pose proof (read_write_other _ _ _ _ q Hw Hq) as Hfs2.
    destruct (if default true (pp_validate params) then _ else _) as [e|].
    + destruct (restoreFromBackup fs2 _ _ _) as [fs3|] eqn:Hr; cbn [world_of fs].
      * rewrite (restore_spec _ _ _ _ _ Hr q Hq). congruence.
      * congruence.
    + destruct (updateFixApplication _ _ _ _). cbn [world_of fs]. congruence.
  - destruct (restoreFromBackup fs1 _ _ _) as [fs3|] eqn:Hr; cbn [world_of fs].
    + rewrite (restore_spec _ _ _ _ _ Hr q Hq). congruence.
    + congruence.
Qed.

(** A successful run that is not a dry run: the backup step, the write,
    and the record left in the store. *)
Lemma applyFix_success_inv params now w sf c0 r w1 :
  getFixById (fixes w) (pp_fixId params) = Some sf ->
  readFileSync (fs w) (fx_file (sf_fix sf)) = Some c0 ->
  default false (pp_dryRun params) = false ->
  applyFix params now w = Returned r w1 ->
  ar_success r = true ->
  exists fs1 bp fs2,
    (if default true (pp_backup params)
     then createBackup (fs w) (fx_file (sf_fix sf)) c0 now
     else (fs w, None)) = (fs1, bp) /\
    writeFileSync fs1 (fx_file (sf_fix sf)) (newContentOf sf c0) = Some fs2 /\
    ar_backupPath r = bp /\
    w1 = World_ fs2
           (fst (updateFixApplication (fixes w) (pp_fixId params)
                   (FixApplication_ (pp_fixId params) true bp None (toISOString now))
                   now)).
Proof.
  intros Hget Hread Hdry. unfold applyFix. rewrite Hget, Hread, Hdry.
  destruct (_ && _); [by intros [= <- <-]|].
  destruct (if default true (pp_backup params) then _ else _) as [fs1 bp] eqn:Hbk.
  destruct (writeFileSync fs1 _ _) as [fs2|] eqn:Hw.
  - destruct (if default true (pp_validate params) then _ else _) as [e|].
    + destruct (restoreFromBackup fs2 _ _ _); [by intros [= <- <-]|done].
    + destruct (updateFixApplication _ _ _ _) as [fixes' b] eqn:Hup.
      intros [= <- <-] _. exists fs1, bp, fs2. by rewrite Hup.
  - destruct (restoreFromBackup fs1 _ _ _); [by intros [= <- <-]|done].
Qed.


(** Every path of the example projects can be written. *)
Lemma examples_writable p :
  (p ∉ readonly (fs exWorld)) /\ (p ∉ readonly (fs exApproved)) /\
  (p ∉ readonly (fs exUnbalanced)) /\ (p ∉ readonly (fs exDrifted)).
Proof. repeat split; vm_compute; set_solver. Qed.

End FixToolFacts.

(** ** State legality (C1) *)

(** C1, as the code has it: a stored fix that is not [confirmed] and
    carries no confirmation (it never went through [confirmFix]) is refused
    by [applyFix] with the error "Fix must be confirmed before applying",
    and neither the files nor the store change. *)
Theorem applyFix_refuses_unconfirmed params now w sf :
  getFixById (fixes w) (pp_fixId params) = Some sf ->
  fx_status (sf_fix sf) <> confirmed ->
  sf_confirmation sf = None ->
  exists r,
    applyFix params now w = Returned r w /\
    ar_success r = false /\
    ar_error r = Some notConfirmedError.
Proof.
  intros Hget Hst Hc. eexists. split; [by eapply applyFix_unconfirmed|]. done.
Qed.

Lemma applyFix_refuses_unconfirmed_witness :
  exists r,
    applyFix (ApplyFixParams_ "fix-1" None None None) 20 exWorld = Returned r exWorld /\
    ar_success r = false /\
    ar_error r = Some notConfirmedError.
Proof.
  apply (applyFix_refuses_unconfirmed (ApplyFixParams_ "fix-1" None None None) 20
           exWorld exStored).
  - reflexivity.
  - discriminate.
  - reflexivity.
Defined.

(** C1 as stated fails: a fix changed through [confirmFix] with the action
    [modify] has the status [rejected], and [applyFix] applies it. *)
Lemma applyFix_applies_modified_fix :
  let w1 := snd (confirmFix (ConfirmFixParams_ "fix-1" modify
                               (Some "const b = a ? a.value : 0;") None) 10 exWorld) in
  (fx_status <$> (sf_fix <$> getFixById (fixes w1) "fix-1")) = Some rejected /\
  exists r w2,
    applyFix (ApplyFixParams_ "fix-1" None None None) 20 w1 = Returned r w2 /\
    ar_success r = true /\
    readFileSync (fs w1) exFile = Some exContent /\
    readFileSync (fs w2) exFile =
      Some ("const a = load();" +:+ nl +:+ "const b = a ? a.value : 0;" +:+ nl
            +:+ "render(b);").
Proof.
  split; [reflexivity|].
  eexists _, _. split; [vm_compute; reflexivity|].
  split; [reflexivity|]. split; reflexivity.
Qed.

(** The same happens to a fix that was turned down: after [confirmFix]
    with the action [reject] the suggested code is written all the same. *)
Lemma applyFix_applies_rejected_fix :
  let w1 := snd (confirmFix (ConfirmFixParams_ "fix-1" reject None
                               (Some "not needed")) 10 exWorld) in
  (fx_status <$> (sf_fix <$> getFixById (fixes w1) "fix-1")) = Some rejected /\
  exists r w2,
    applyFix exParams 20 w1 = Returned r w2 /\
    ar_success r = true /\
    readFileSync (fs w2) exFile
      = Some ("const a = load();" +:+ nl +:+ "const b = a?.value;" +:+ nl
              +:+ "render(b);").
Proof.
  split; [reflexivity|].
  eexists _, _. split; [vm_compute; reflexivity|]. split; reflexivity.
Qed.

(** ** Apply, then roll back (C3) *)

(** On the text of the files: for a confirmed fix, when [applyFix] (not a
    dry run, backup requested, backup directory and backup file writable)
    succeeds, a following [rollbackFix] on the same id succeeds and the
    target file has again the text it had before the apply. *)
Theorem applyFix_then_rollbackFix_restores params now w sf c0 r w1 :
  getFixById (fixes w) (pp_fixId params) = Some sf ->
  fx_status (sf_fix sf) = confirmed ->
  readFileSync (fs w) (fx_file (sf_fix sf)) = Some c0 ->
  default false (pp_dryRun params) = false ->
  default true (pp_backup params) = true ->
  backupDirOf (fx_file (sf_fix sf)) ∉ readonly (fs w) ->
  backupPathOf (fx_file (sf_fix sf)) now ∉ readonly (fs w) ->
  applyFix params now w = Returned r w1 ->
  ar_success r = true ->
  exists message w2,
    rollbackFix (pp_fixId params) w1 = (RollbackResult_ true message, w2) /\
    readFileSync (fs w2) (fx_file (sf_fix sf)) = Some c0.
Proof.
  intros Hget Hst Hread Hdry Hbackup Hdir Hpath Happly Hok.
  destruct (applyFix_success_inv _ _ _ _ _ _ _ Hget Hread Hdry Happly Hok)
    as (fs1 & bp & fs2 & Hbk & Hw & Hbp & ->).
  rewrite Hbackup in Hbk.
  destruct (createBackup_succeeds (fs w) (fx_file (sf_fix sf)) c0 now Hdir Hpath)
    as (fs1' & Hbk' & Hcopy).
  rewrite Hbk' in Hbk. injection Hbk as -> <-.
  destruct (updateFixApplication_found (fixes w) (pp_fixId params)
              (FixApplication_ (pp_fixId params) true
                 (Some (backupPathOf (fx_file (sf_fix sf)) now)) None (toISOString now))
              now sf Hget) as (sf' & Hget' & Happ & _ & Hfile).
  unfold rollbackFix. cbn [fixes fs]. rewrite Hget', Happ. cbn [ap_backupPath tmpl].
  unfold backupPathOf at 1. rewrite truthy_join. cbn [negb]. rewrite Hfile.
  rewrite (read_write_other _ _ _ _ _ Hw (backupPathOf_fresh _ _)), Hcopy.
  destruct (write_succeeds fs2 (fx_file (sf_fix sf)) c0) as [fs3 Hw3].
  { rewrite (write_readonly _ _ _ _ Hw). intros Hin.
    unfold writeFileSync in Hw. by rewrite bool_decide_eq_true_2 in Hw. }
  rewrite Hw3. eexists _, _. split; [done|]. cbn [fs]. by eapply read_write_same.
Qed.

Lemma applyFix_then_rollbackFix_restores_witness :
  exists message w2,
    rollbackFix (pp_fixId exParams) exApplied = (RollbackResult_ true message, w2) /\
    readFileSync (fs w2) (fx_file (sf_fix exApprovedStored)) = Some exContent.
Proof.
  apply (applyFix_then_rollbackFix_restores exParams 20 exApproved exApprovedStored
           exContent exApplyResult exApplied).
  - reflexivity.
  - reflexivity.
  - reflexivity.
  - reflexivity.
  - reflexivity.
  - apply examples_writable.
  - apply examples_writable.
  - vm_compute. reflexivity.
  - reflexivity.
Defined.

(** *** On the bytes of the files *)

Section OnDiskFacts.

Variable decode : string -> string.
Variable trimLine : string -> string.

Lemma applyFixWith_success_inv params now w sf c0 r w1 :
  getFixById (fixes w) (pp_fixId params) = Some sf ->
  OnDisk.readFileSyncWith decode (fs w) (fx_file (sf_fix sf)) = Some c0 ->
  default false (pp_dryRun params) = false ->
  OnDisk.applyFixWith decode trimLine params now w = Returned r w1 ->
  ar_success r = true ->
  exists fs1 bp fs2 newContent,
    (if default true (pp_backup params)
     then createBackup (fs w) (fx_file (sf_fix sf)) c0 now
     else (fs w, None)) = (fs1, bp) /\
    writeFileSync fs1 (fx_file (sf_fix sf)) newContent = Some fs2 /\
    ar_backupPath r = bp /\
    w1 = World_ fs2
           (fst (updateFixApplication (fixes w) (pp_fixId params)
                   (FixApplication_ (pp_fixId params) true bp None (toISOString now))
                   now)).
Proof.
  intros Hget Hread Hdry. unfold OnDisk.applyFixWith. rewrite Hget, Hread, Hdry.
  destruct (_ && _); [by intros [= <- <-]|].
  destruct (if default true (pp_backup params) then _ else _) as [fs1 bp] eqn:Hbk.
  destruct (writeFileSync fs1 _ _) as [fs2|] eqn:Hw.
  - destruct (if default true (pp_validate params) then _ else _) as [e|].
    + destruct (restoreFromBackup fs2 _ _ _); [by intros [= <- <-]|done].
    + destruct (updateFixApplication _ _ _ _) as [fixes' b] eqn:Hup.
      intros [= <- <-] _. exists fs1, bp, fs2, (OnDisk.newContentOfWith trimLine sf c0).
      by rewrite Hup.
  - destruct (restoreFromBackup fs1 _ _ _); [by intros [= <- <-]|done].
Qed.

Lemma files_write_same fs0 p c fs1 :
  writeFileSync fs0 p c = Some fs1 -> files fs1 !! p = Some c.
Proof. apply read_write_same. Qed.

Lemma files_write_other fs0 p c fs1 q :
  writeFileSync fs0 p c = Some fs1 -> q <> p -> files fs1 !! q = files fs0 !! q.
Proof. intros H Hq. by apply (read_write_other _ _ _ _ q H). Qed.

(** After an [applyFix] that succeeded with its backup, [rollbackFix]
    leaves in the target the text of the backup, which is the text of the
    bytes the target had: the bytes decoded, written and decoded again. *)
Lemma applyFixWith_then_rollbackFixWith params now w sf bytes r w1 :
  getFixById (fixes w) (pp_fixId params) = Some sf ->
  fx_status (sf_fix sf) = confirmed ->
  files (fs w) !! fx_file (sf_fix sf) = Some bytes ->
  default false (pp_dryRun params) = false ->
  default true (pp_backup params) = true ->
  backupDirOf (fx_file (sf_fix sf)) ∉ readonly (fs w) ->
  backupPathOf (fx_file (sf_fix sf)) now ∉ readonly (fs w) ->
  OnDisk.applyFixWith decode trimLine params now w = Returned r w1 ->
  ar_success r = true ->
  exists message w2,
    OnDisk.rollbackFixWith decode (pp_fixId params) w1 = (RollbackResult_ true message, w2) /\
    files (fs w2) !! fx_file (sf_fix sf) = Some (decode (decode bytes)).
Proof.
  intros Hget Hst Hbytes Hdry Hbackup Hdir Hpath Happly Hok.
  assert (OnDisk.readFileSyncWith decode (fs w) (fx_file (sf_fix sf)) = Some (decode bytes))
    as Hread by (unfold OnDisk.readFileSyncWith; by rewrite Hbytes).
  destruct (applyFixWith_success_inv _ _ _ _ _ _ _ Hget Hread Hdry Happly Hok)
    as (fs1 & bp & fs2 & newContent & Hbk & Hw & Hbp & ->).
  rewrite Hbackup in Hbk.
  destruct (createBackup_succeeds (fs w) (fx_file (sf_fix sf)) (decode bytes) now
              Hdir Hpath) as (fs1' & Hbk' & Hcopy).
  rewrite Hbk' in Hbk. injection Hbk as -> <-.
  destruct (updateFixApplication_found (fixes w) (pp_fixId params)
              (FixApplication_ (pp_fixId params) true
                 (Some (backupPathOf (fx_file (sf_fix sf)) now)) None (toISOString now))
              now sf Hget) as (sf' & Hget' & Happ & _ & Hfile).
  unfold OnDisk.rollbackFixWith. cbn [fixes fs]. rewrite Hget', Happ. cbn [ap_backupPath tmpl].
  unfold backupPathOf at 1. rewrite truthy_join. cbn [negb]. rewrite Hfile.
  unfold OnDisk.readFileSyncWith.
  rewrite (files_write_other _ _ _ _ _ Hw (backupPathOf_fresh _ _)).
  unfold Fs.readFileSync in Hcopy. rewrite Hcopy. cbn [fmap option_fmap option_map].
  destruct (write_succeeds fs2 (fx_file (sf_fix sf)) (decode (decode bytes)))
    as [fs3 Hw3].
  { rewrite (write_readonly _ _ _ _ Hw). intros Hin.
    unfold writeFileSync in Hw. by rewrite bool_decide_eq_true_2 in Hw. }
  rewrite Hw3. eexists _, _. split; [done|]. cbn [fs]. by eapply files_write_same.
Qed.

End OnDiskFacts.

(** The tools of the text model are these tools on files that are read as
    they are, with the [trim] of that model. *)
Lemma applyFixWith_text params now w :
  OnDisk.applyFixWith (fun s => s) trim params now w = FixTools.applyFix params now w.
Proof.
  unfold OnDisk.applyFixWith, FixTools.applyFix, OnDisk.readFileSyncWith, Fs.readFileSync.
  destruct (getFixById _ _) as [sf|]; [|done].
  destruct (_ && _); [done|].
  destruct (files (fs w) !! fx_file (sf_fix sf)) as [c0|]; reflexivity.
Qed.

Lemma rollbackFixWith_text fixId w :
  OnDisk.rollbackFixWith (fun s => s) fixId w = FixTools.rollbackFix fixId w.
Proof.
  unfold OnDisk.rollbackFixWith, FixTools.rollbackFix, OnDisk.readFileSyncWith, Fs.readFileSync.
  destruct (getFixById _ _) as [sf|]; [|done].
  destruct (sf_application sf) as [a|]; [|done].
  destruct (negb _); [done|].
  destruct (files (fs w) !! _) as [c0|]; reflexivity.
Qed.

(** Well-formed UTF-8 comes back from the decoder and the encoder. *)

Section Utf8Facts.
Import Utf8 Utf8Notions.

Lemma all_ascii_complete c : In c all_ascii.
Proof.
  unfold all_ascii. rewrite <- (ascii_nat_embedding c). apply in_map, in_seq.
  pose proof (nat_ascii_bounded c). lia.
Qed.

Lemma for_all_ascii (P : ascii -> bool) c : forallb P all_ascii = true -> P c = true.
Proof. intros H. eapply forallb_forall in H; [exact H|apply all_ascii_complete]. Qed.

Lemma decode_step pending c r :
  decode pending (String c r)
  = (decodeByte pending c).1 ++ decode (decodeByte pending c).2 r.
Proof.
  unfold decodeByte. cbn [decode]. cbv zeta.
  destruct pending as [[[[point needed] lower] upper]|].
  - destruct (_ && _).
    + by destruct needed as [|[|n]].
    + by destruct (classify _).
  - by destruct (classify _).
Qed.

Lemma decode_bytes cs : forall pending r,
  decode pending (cs +:+ r)
  = (decodeBytes pending cs).1 ++ decode (decodeBytes pending cs).2 r.
Proof.
  induction cs as [|c cs IH]; intros pending r; [done|].
  rewrite append_cons, decode_step, IH. cbn [decodeBytes]. cbv zeta. cbn [fst snd].
  by rewrite app_assoc.
Qed.

Lemma decode_last q c r :
  continuation c = true ->
  decode (Some (q, 1, 0x80%N, 0xBF%N)) (String c r)
  = N.lor (N.shiftl q 6) (N.land (N_of_ascii c) 0x3F) :: decode None r.
Proof.
  intros Hc. rewrite decode_step. unfold decodeByte. cbv zeta.
  unfold continuation, between in Hc. by rewrite Hc.
Qed.

Lemma low_bits_lt b : (N.land b 0x3F < 64)%N.
Proof.
  change 0x3F%N with (N.ones 6). rewrite N.land_ones. change (2 ^ 6)%N with 64%N.
  by apply N.mod_lt.
Qed.

Lemma shiftr_join q r : (r < 64)%N -> N.shiftr (N.lor (N.shiftl q 6) r) 6 = q.
Proof.
  intros Hr. rewrite N.shiftr_lor, N.shiftr_shiftl_l by done.
  change (6 - 6)%N with 0%N. rewrite N.shiftl_0_r, (N.shiftr_div_pow2 r).
  change (2 ^ 6)%N with 64%N. by rewrite N.div_small, N.lor_0_r.
Qed.

Lemma land_join q r : (r < 64)%N -> N.land (N.lor (N.shiftl q 6) r) 0x3F = r.
Proof.
  intros Hr. rewrite N.land_lor_distr_l. change 0x3F%N with (N.ones 6).
  rewrite !N.land_ones, N.shiftl_mul_pow2. change (2 ^ 6)%N with 64%N.
  by rewrite N.Div0.mod_mul, N.mod_small.
Qed.

Lemma ltb_join p k : (p <? k * 64)%N = (N.shiftr p 6 <? k)%N.
Proof.
  rewrite N.shiftr_div_pow2. change (2 ^ 6)%N with 64%N.
  destruct (N.ltb_spec p (k * 64)) as [H|H], (N.ltb_spec (p / 64) k) as [H'|H'];
    try done.
  - assert (p / 64 < k)%N; [|lia]. apply N.Div0.div_lt_upper_bound; lia.
  - assert (k <= p / 64)%N; [|lia]. apply N.div_le_lower_bound; lia.
Qed.

Lemma byte_last c :
  continuation c = true -> byte (N.lor 0x80 (N.land (N_of_ascii c) 0x3F)) = c.
Proof.
  intros Hc.
  pose proof (for_all_ascii
    (fun c => implb (continuation c)
                (Ascii.eqb (byte (N.lor 0x80 (N.land (N_of_ascii c) 0x3F))) c)) c) as H.
  cbv beta in H. rewrite Hc in H. apply Ascii.eqb_eq, H. by vm_compute.
Qed.

Lemma encode_last q c :
  continuation c = true -> (2 <= q)%N ->
  encode_point (N.lor (N.shiftl q 6) (N.land (N_of_ascii c) 0x3F))
  = encodeHigh q +:+ String c "".
Proof.
  intros Hc Hq. pose proof (low_bits_lt (N_of_ascii c)) as Hr.
  set (r := N.land (N_of_ascii c) 0x3F) in *.
  set (p := N.lor (N.shiftl q 6) r).
  assert (N.shiftr p 6 = q) as H6 by by apply shiftr_join.
  assert (N.shiftr p 12 = N.shiftr q 6) as H12.
  { change 12%N with (6 + 6)%N. by rewrite <- N.shiftr_shiftr, H6. }
  assert (N.shiftr p 18 = N.shiftr q 12) as H18.
  { change 18%N with (6 + 12)%N. by rewrite <- N.shiftr_shiftr, H6. }
  assert (byte (N.lor 0x80 (N.land (N.shiftr p 0) 0x3F)) = c) as H0.
  { rewrite N.shiftr_0_r. unfold p. rewrite land_join by done. by apply byte_last. }
  unfold encode_point, encodeHigh. cbv zeta.
  change 0x80%N with (2 * 64)%N at 1. change 0x800%N with (0x20 * 64)%N.
  change 0x10000%N with (0x400 * 64)%N.
  fold p. rewrite !ltb_join, H6, H12, H18, H0, N.shiftr_0_r.
  destruct (N.ltb_spec q 2); [lia|].
  by destruct (q <? 0x20)%N, (q <? 0x400)%N.
Qed.

Lemma utf8_encode_cons p ps : utf8_encode (p :: ps) = encode_point p +:+ utf8_encode ps.
Proof.
  unfold utf8_encode. cbn [map]. destruct (map encode_point ps) as [|x xs]; [|done].
  cbn [String.concat]. by rewrite append_nil_r.
Qed.

(** A character of several bytes comes back from its code point. *)
Lemma wellFormed_char cs c r :
  leadOk cs = true -> continuation c = true ->
  exists p,
    decode None (cs +:+ String c r) = p :: decode None r /\
    encode_point p = cs +:+ String c "".
Proof.
  unfold leadOk, bitsBeforeLast. intros Hl Hc.
  rewrite decode_bytes.
  destruct (decodeBytes None cs) as [[|? ?] [[[[q [|[|n]]] lower] upper]|]]; try done.
  destruct (lower =? 0x80)%N eqn:Hlo; [|done]. apply N.eqb_eq in Hlo as ->.
  destruct (upper =? 0xBF)%N eqn:Hup; [|done]. apply N.eqb_eq in Hup as ->.
  cbn [andb] in Hl.
  apply andb_true_iff in Hl as [Hq He]. apply N.leb_le in Hq.
  apply String.eqb_eq in He. cbn [fst snd app].
  eexists. split; [by apply decode_last|]. rewrite encode_last by done. by rewrite He.
Qed.


Lemma wellFormed_ascii c r :
  between 0x00 0x7F c = true ->
  exists p, decode None (String c r) = p :: decode None r /\ encode_point p = String c "".
Proof.
  intros Hc.
  pose proof (for_all_ascii
    (fun c1 => implb (between 0x00 0x7F c1)
       (match decodeByte None c1 with
        | ([p], None) => String.eqb (encode_point p) (String c1 "")
        | _ => false
        end)) c) as H.
  cbv beta in H. rewrite Hc in H. cbn [implb] in H. rewrite decode_step.
  destruct (decodeByte None c) as [[|p [|? ?]] [?|]]; try (by discriminate H; vm_compute).
  exists p. split; [done|]. apply String.eqb_eq, H. by vm_compute.
Qed.

Lemma leadOk_two c1 : two c1 = true -> leadOk (String c1 "") = true.
Proof.
  intros Hc.
  pose proof (for_all_ascii (fun c1 => implb (two c1) (leadOk (String c1 ""))) c1) as H.
  cbv beta in H. rewrite Hc in H. apply H. by vm_compute.
Qed.

Lemma leadOk_three c1 c2 :
  three c1 c2 = true -> leadOk (String c1 (String c2 "")) = true.
Proof.
  intros Hc.
  pose proof (for_all_ascii
    (fun c1 => forallb (fun c2 =>
       implb (three c1 c2) (leadOk (String c1 (String c2 "")))) all_ascii) c1) as H.
  cbv beta in H. apply (for_all_ascii _ c2) in H; [|by vm_compute].
  cbv beta in H. by rewrite Hc in H.
Qed.

Lemma leadOk_four c1 c2 c3 :
  four c1 c2 = true -> continuation c3 = true ->
  leadOk (String c1 (String c2 (String c3 ""))) = true.
Proof.
  intros Hc H3.
  pose proof (for_all_ascii
    (fun c1 => forallb (fun c2 =>
       if four c1 c2 then
         forallb (fun c3 =>
           implb (continuation c3)
                 (leadOk (String c1 (String c2 (String c3 ""))))) all_ascii
       else true) all_ascii) c1) as H.
  cbv beta in H. apply (for_all_ascii _ c2) in H; [|by vm_compute].
  cbv beta in H. rewrite Hc in H. apply (for_all_ascii _ c3) in H.
  cbv beta in H. by rewrite H3 in H.
Qed.

Lemma wellFormed_length n : forall bytes,
  String.length bytes <= n -> wellFormed bytes = true ->
  utf8_encode (utf8_decode bytes) = bytes.
Proof.
  unfold utf8_decode.
  induction n as [|n IH]; intros bytes Hn Hw.
  - by destruct bytes; [|cbn in Hn; lia].
  - destruct bytes as [|c1 r1]; [done|]. cbn [String.length] in Hn. cbn [wellFormed] in Hw.
    destruct (between 0 127 c1) eqn:H1.
    { destruct (wellFormed_ascii c1 r1 H1) as (p & -> & Hp).
      rewrite utf8_encode_cons, Hp, IH; [done|lia|done]. }
    destruct r1 as [|c2 r2]; [done|]. cbn [String.length] in Hn.
    destruct (two c1) eqn:H2.
    { apply andb_true_iff in Hw as [Hc Hw].
      destruct (wellFormed_char (String c1 "") c2 r2 (leadOk_two _ H2) Hc)
        as (p & Hd & Hp).
      change (String c1 "" +:+ String c2 r2) with (String c1 (String c2 r2)) in Hd.
      rewrite Hd, utf8_encode_cons, Hp, IH; [done|lia|done]. }
    destruct r2 as [|c3 r3]; [done|]. cbn [String.length] in Hn.
    destruct (three c1 c2) eqn:H3.
    { apply andb_true_iff in Hw as [Hc Hw].
      destruct (wellFormed_char (String c1 (String c2 "")) c3 r3 (leadOk_three _ _ H3) Hc)
        as (p & Hd & Hp).
      change (String c1 (String c2 "") +:+ String c3 r3)
        with (String c1 (String c2 (String c3 r3))) in Hd.
      rewrite Hd, utf8_encode_cons, Hp, IH; [done|lia|done]. }
    destruct r3 as [|c4 r4]; [done|]. cbn [String.length] in Hn.
    apply andb_true_iff in Hw as [Hw Hw4]. apply andb_true_iff in Hw as [Hw Hc4].
    apply andb_true_iff in Hw as [H4 Hc3].
    destruct (wellFormed_char (String c1 (String c2 (String c3 ""))) c4 r4
                (leadOk_four _ _ _ H4 Hc3) Hc4) as (p & Hd & Hp).
    change (String c1 (String c2 (String c3 "")) +:+ String c4 r4)
      with (String c1 (String c2 (String c3 (String c4 r4)))) in Hd.
    rewrite Hd, utf8_encode_cons, Hp, IH; [done|lia|done].
Qed.

(** Reading a well-formed file as UTF-8 and writing the text back gives
    the bytes of the file. *)
Lemma wellFormed_readText bytes : wellFormed bytes = true -> readText bytes = bytes.
Proof. apply (wellFormed_length (String.length bytes)). lia. Qed.

End Utf8Facts.

(** C3, as the code has it: for a confirmed fix whose target file is
    well-formed UTF-8, when [applyFix] (not a dry run, backup requested,
    backup directory and backup file writable) succeeds, a following
    [rollbackFix] on the same id succeeds and the target file has again,
    byte for byte, the content it had before the apply. *)
Theorem applyFix_then_rollbackFix_restores_utf8 params now w sf bytes r w1 :
  getFixById (fixes w) (pp_fixId params) = Some sf ->
  fx_status (sf_fix sf) = confirmed ->
  files (fs w) !! fx_file (sf_fix sf) = Some bytes ->
  Utf8.wellFormed bytes = true ->
  default false (pp_dryRun params) = false ->
  default true (pp_backup params) = true ->
  backupDirOf (fx_file (sf_fix sf)) ∉ readonly (fs w) ->
  backupPathOf (fx_file (sf_fix sf)) now ∉ readonly (fs w) ->
  OnDisk.applyFix params now w = Returned r w1 ->
  ar_success r = true ->
  exists message w2,
    OnDisk.rollbackFix (pp_fixId params) w1 = (RollbackResult_ true message, w2) /\
    files (fs w2) !! fx_file (sf_fix sf) = Some bytes.
Proof.
  intros Hget Hst Hbytes Hvalid Hdry Hbackup Hdir Hpath Happly Hok.
  destruct (applyFixWith_then_rollbackFixWith Utf8.readText Utf8.trimText params now w sf bytes
              r w1 Hget Hst Hbytes Hdry Hbackup Hdir Hpath Happly Hok)
    as (message & w2 & Hroll & Hfile).
  exists message, w2. split; [done|]. apply wellFormed_readText in Hvalid.
  by rewrite !Hvalid in Hfile.
Qed.

Lemma utf8_example_writable p : p ∉ readonly (fs exUtf8).
Proof. vm_compute. set_solver. Qed.

Lemma applyFix_then_rollbackFix_restores_utf8_witness :
  exists message w2,
    OnDisk.rollbackFix (pp_fixId exParams) exUtf8Applied
    = (RollbackResult_ true message, w2) /\
    files (fs w2) !! fx_file (sf_fix exUtf8Stored) = Some exUtf8Content.
Proof.
  apply (applyFix_then_rollbackFix_restores_utf8 exParams 20 exUtf8 exUtf8Stored
           exUtf8Content exUtf8ApplyResult exUtf8Applied).
  - reflexivity.
  - reflexivity.
  - reflexivity.
  - vm_compute. reflexivity.
  - reflexivity.
  - reflexivity.
  - apply utf8_example_writable.
  - apply utf8_example_writable.
  - vm_compute. reflexivity.
  - reflexivity.
Defined.

(** C3 as stated fails on a target that is not UTF-8. The file holds the
    byte E9 (an e with an acute accent in Latin-1). [applyFix] succeeds and
    takes its backup, [rollbackFix] succeeds, and the file then holds the
    three bytes EF BF BD of U+FFFD where the byte E9 was: it is not the
    content it had before the apply. *)
Lemma rollbackFix_does_not_restore_latin1_bytes :
  exists r w1 message w2,
    files (fs exLatin1) !! exFile = Some exLatin1Content /\
    Utf8.wellFormed exLatin1Content = false /\
    OnDisk.applyFix exParams 20 exLatin1 = Returned r w1 /\
    ar_success r = true /\
    ar_backupPath r = Some "/app/src/.test-genie-backups/Feed.ts.20.bak" /\
    OnDisk.rollbackFix "fix-1" w1 = (RollbackResult_ true message, w2) /\
    files (fs w2) !! exFile
    = Some ("const a = load(); // caf"
            +:+ String (Utf8.byte 0xEF) (String (Utf8.byte 0xBF) (String (Utf8.byte 0xBD) ""))
            +:+ nl +:+ "const b = a!.value;" +:+ nl +:+ "render(b);") /\
    files (fs w2) !! exFile <> files (fs exLatin1) !! exFile.
Proof.
  eexists _, _, _, _. split; [reflexivity|]. split; [vm_compute; reflexivity|].
  split; [vm_compute; reflexivity|]. split; [reflexivity|]. split; [reflexivity|].
  split; [vm_compute; reflexivity|]. split; [vm_compute; reflexivity|].
  vm_compute. discriminate.
Qed.

(** ** Backup before the write (C4) *)



Lemma mkdirSyncL_fst fs0 p : fst (mkdirSyncL fs0 p) = mkdirSync fs0 p.
Proof. unfold mkdirSyncL. by destruct (mkdirSync fs0 p). Qed.









(** ** Failed validation (C5) *)

(** C5, as the code has it: when the check of the content just written
    fails, [applyFix] reports that failure and leaves the store as it was,
    for every fix that passes the guard and whatever the backup option.
    The content read before the write is put back exactly when the backup
    path is set and a file is there, which is the case whenever a backup
    was requested and could be written; otherwise the content that failed
    the check stays in the target. *)
Theorem applyFix_invalid_content_is_rolled_back params now w sf c0 e :
  getFixById (fixes w) (pp_fixId params) = Some sf ->
  fx_status (sf_fix sf) = confirmed \/ is_Some (sf_confirmation sf) ->
  readFileSync (fs w) (fx_file (sf_fix sf)) = Some c0 ->
  default false (pp_dryRun params) = false ->
  default true (pp_validate params) = true ->
  validateSyntax (fx_file (sf_fix sf)) (newContentOf sf c0) = Some e ->
  fx_file (sf_fix sf) ∉ readonly (fs w) ->
  exists r w1,
    applyFix params now w = Returned r w1 /\
    ar_success r = false /\
    ar_error r = Some (validationError e) /\
    fixes w1 = fixes w /\
    readFileSync (fs w1) (fx_file (sf_fix sf))
    = Some (if truthy (ap_backupPath (ar_application r))
               && existsSync (fs w1) (tmpl (ap_backupPath (ar_application r)))
            then c0 else newContentOf sf c0) /\
    (default true (pp_backup params) = true ->
     backupDirOf (fx_file (sf_fix sf)) ∉ readonly (fs w) ->
     backupPathOf (fx_file (sf_fix sf)) now ∉ readonly (fs w) ->
     readFileSync (fs w1) (fx_file (sf_fix sf)) = Some c0 /\
     readFileSync (fs w1) (backupPathOf (fx_file (sf_fix sf)) now) = Some c0) /\
    (default true (pp_backup params) = false ->
     ap_backupPath (ar_application r) = None /\
     readFileSync (fs w1) (fx_file (sf_fix sf)) = Some (newContentOf sf c0)).
Proof.
  intros Hget Hguard Hread Hdry Hval He Hfile.
  unfold applyFix. rewrite Hget, (guard_passes _ Hguard), Hread, Hdry, Hval, He.
  destruct (if default true (pp_backup params) then _ else _) as [fs1 bp] eqn:Hbk.
  assert (readonly fs1 = readonly (fs w) /\
          (bp = None \/ bp = Some (backupPathOf (fx_file (sf_fix sf)) now))) as [Hro Hbp].
  { destruct (default true (pp_backup params)).
    - by apply createBackup_spec in Hbk as (? & _ & ?).
    - injection Hbk as <- <-. auto. }
  destruct (write_succeeds fs1 (fx_file (sf_fix sf)) (newContentOf sf c0))
    as [fs2 Hw]; [by rewrite Hro|].
  destruct (write_succeeds fs2 (fx_file (sf_fix sf)) c0) as [fs3 Hw3].
  { by rewrite (write_readonly _ _ _ _ Hw), Hro. }
  rewrite Hw. unfold restoreFromBackup.
  assert (tmpl bp <> fx_file (sf_fix sf) \/ bp = None) as Hfresh.
  { destruct Hbp as [->| ->]; [by right|left; apply backupPathOf_fresh]. }
  destruct (truthy bp && existsSync fs2 (tmpl bp)) eqn:Hex.
  - rewrite Hw3. eexists _, _. split; [done|].
    cbn [failure ar_success ar_error ar_application ap_backupPath fs fixes].
    do 3 (split; [done|]).
    assert (readFileSync fs3 (fx_file (sf_fix sf)) = Some c0) as Hc
      by (by eapply read_write_same).
    split.
    + rewrite Hc. apply andb_true_iff in Hex as [Ht Hex]. rewrite Ht. cbn [andb].
      destruct Hfresh as [Hne| ->]; [|done].
      by rewrite (exists_write_other _ _ _ _ _ Hw3 Hne), Hex.
    + split.
      * intros Hb Hdir Hpath. split; [done|]. rewrite Hb in Hbk.
        destruct (createBackup_succeeds (fs w) (fx_file (sf_fix sf)) c0 now Hdir Hpath)
          as (fs1' & Hbk' & Hcopy).
        rewrite Hbk' in Hbk. injection Hbk as -> <-.
        rewrite (read_write_other _ _ _ _ _ Hw3 (backupPathOf_fresh _ _)).
        by rewrite (read_write_other _ _ _ _ _ Hw (backupPathOf_fresh _ _)).
      * intros Hb. rewrite Hb in Hbk. injection Hbk as <- <-. done.
  - eexists _, _. split; [done|].
    cbn [failure ar_success ar_error ar_application ap_backupPath fs fixes].
    do 3 (split; [done|]).
    assert (readFileSync fs2 (fx_file (sf_fix sf)) = Some (newContentOf sf c0)) as Hc
      by (by eapply read_write_same).
    split; [by rewrite Hc, Hex|]. split.
    + intros Hb Hdir Hpath. exfalso. rewrite Hb in Hbk.
      destruct (createBackup_succeeds (fs w) (fx_file (sf_fix sf)) c0 now Hdir Hpath)
        as (fs1' & Hbk' & Hcopy).
      rewrite Hbk' in Hbk. injection Hbk as -> <-.
      unfold backupPathOf at 1 in Hex. rewrite truthy_join in Hex.
      cbn [andb tmpl] in Hex.
      rewrite (exists_write_other _ _ _ _ _ Hw (backupPathOf_fresh _ _)) in Hex.
      by rewrite (exists_read _ _ _ Hcopy) in Hex.
    + intros Hb. rewrite Hb in Hbk. by injection Hbk as <- <-.
Qed.

Lemma applyFix_invalid_content_is_rolled_back_witness :
  exists r w1,
    applyFix exUnbalancedParams 20 exUnbalanced = Returned r w1 /\
    ar_success r = false /\
    ar_error r = Some (validationError "Unbalanced braces") /\
    fixes w1 = fixes exUnbalanced /\
    readFileSync (fs w1) (fx_file (sf_fix exUnbalancedStored))
    = Some (if truthy (ap_backupPath (ar_application r))
               && existsSync (fs w1) (tmpl (ap_backupPath (ar_application r)))
            then exContent else newContentOf exUnbalancedStored exContent) /\
    (default true (pp_backup exUnbalancedParams) = true ->
     backupDirOf (fx_file (sf_fix exUnbalancedStored)) ∉ readonly (fs exUnbalanced) ->
     backupPathOf (fx_file (sf_fix exUnbalancedStored)) 20 ∉ readonly (fs exUnbalanced) ->
     readFileSync (fs w1) (fx_file (sf_fix exUnbalancedStored)) = Some exContent /\
     readFileSync (fs w1) (backupPathOf (fx_file (sf_fix exUnbalancedStored)) 20)
     = Some exContent) /\
    (default true (pp_backup exUnbalancedParams) = false ->
     ap_backupPath (ar_application r) = None /\
     readFileSync (fs w1) (fx_file (sf_fix exUnbalancedStored))
     = Some (newContentOf exUnbalancedStored exContent)).
Proof.
  apply (applyFix_invalid_content_is_rolled_back exUnbalancedParams 20 exUnbalanced
           exUnbalancedStored exContent "Unbalanced braces").
  - reflexivity.
  - left. reflexivity.
  - reflexivity.
  - reflexivity.
  - reflexivity.
  - reflexivity.
  - apply examples_writable.
Defined.

(** C5 as stated fails: with [backup: false] the unbalanced content stays
    in the file although [applyFix] reports the failed validation. *)
Lemma applyFix_leaves_invalid_content_without_backup :
  exists r w1,
    applyFix (ApplyFixParams_ "fix-2" (Some false) None None) 20 exUnbalanced
      = Returned r w1 /\
    ar_success r = false /\
    ar_error r = Some (validationError "Unbalanced braces") /\
    readFileSync (fs exUnbalanced) exFile = Some exContent /\
    readFileSync (fs w1) exFile
      = Some ("const a = load();" +:+ nl +:+ "if (a) { const b = a.value;" +:+ nl
              +:+ "render(b);").
Proof.
  eexists _, _. split; [vm_compute; reflexivity|].
  repeat split.
Qed.

(** ** A fix whose original code is gone (C6) *)

Lemma find_none_intro {A} (f : A -> bool) (l : list A) :
  (forall x, In x l -> f x = false) -> List.find f l = None.
Proof.
  induction l as [|a l IH]; intros H; [done|]. cbn [find].
  rewrite (H a) by (by left). apply IH. intros x Hx. apply H. by right.
Qed.

Lemma findStartLine_no_window (lines originalCodeLines : list string) :
  (forall i, i < length lines -> windowMatches lines originalCodeLines i = false) ->
  findStartLine lines originalCodeLines = (-1)%Z.
Proof.
  intros H. unfold findStartLine. rewrite find_none_intro; [done|].
  intros i Hi%in_seq. apply H. lia.
Qed.

Lemma spliceContent_at_anchor originalCode line code content :
  findStartLine (split_lines content) (split_lines originalCode) = (-1)%Z ->
  spliceContent originalCode line code content =
  join_lines
    (take (Z.to_nat (Z.max 0 (line - 2))) (split_lines content)
     ++ split_lines code
     ++ drop (Z.to_nat (Z.max 0 (line - 2)) + length (split_lines originalCode))
             (split_lines content)).
Proof.
  intros H. unfold spliceContent. rewrite H, Z.eqb_refl.
  destruct (Z.leb_spec 0 (Z.max 0 (line - 2))); [done|lia].
Qed.

(** C6, as the code has it: for a confirmed fix whose original code
    matches no window of the current content, [applyFix] (not a dry run,
    target writable) returns without an exception; what it writes is the
    new code spliced in at line index [max(0, line - 2)] over as many lines
    as the original code had, whatever those lines are; the lines before
    and after that window are kept. The commented manual-action block is
    never written. After a reported success the target holds that splice,
    after a reported failure it holds the splice or the old content. *)
Theorem applyFix_drifted_fix_splices_at_reported_line params now w sf c0 :
  getFixById (fixes w) (pp_fixId params) = Some sf ->
  fx_status (sf_fix sf) = confirmed ->
  readFileSync (fs w) (fx_file (sf_fix sf)) = Some c0 ->
  (forall i, i < length (split_lines c0) ->
     windowMatches (split_lines c0)
                   (split_lines (fx_originalCode (sf_fix sf))) i = false) ->
  default false (pp_dryRun params) = false ->
  fx_file (sf_fix sf) ∉ readonly (fs w) ->
  let anchor := Z.to_nat (Z.max 0 (fx_line (sf_fix sf) - 2)) in
  let spliced :=
    join_lines
      (take anchor (split_lines c0)
       ++ split_lines (codeToApply sf)
       ++ drop (anchor + length (split_lines (fx_originalCode (sf_fix sf))))
               (split_lines c0)) in
  exists r w1,
    applyFix params now w = Returned r w1 /\
    (ar_success r = true -> readFileSync (fs w1) (fx_file (sf_fix sf)) = Some spliced) /\
    (ar_success r = false ->
       readFileSync (fs w1) (fx_file (sf_fix sf)) = Some spliced \/
       readFileSync (fs w1) (fx_file (sf_fix sf)) = Some c0).
Proof.
  intros Hget Hst Hread Hno Hdry Hfile anchor spliced.
  assert (newContentOf sf c0 = spliced) as Hnew.
  { unfold newContentOf. rewrite spliceContent_at_anchor; [done|].
    by apply findStartLine_no_window. }
  unfold applyFix. rewrite Hget, (guard_confirmed _ Hst), Hread, Hdry, Hnew.
  destruct (if default true (pp_backup params) then _ else _) as [fs1 bp] eqn:Hbk.
  assert (readonly fs1 = readonly (fs w)) as Hro.
  { destruct (default true (pp_backup params)).
    - by apply createBackup_spec in Hbk as (? & _ & _).
    - by injection Hbk as <- <-. }
  destruct (write_succeeds fs1 (fx_file (sf_fix sf)) spliced) as [fs2 Hw];
    [by rewrite Hro|].
  rewrite Hw.
  destruct (if default true (pp_validate params) then _ else _) as [e|].
  - unfold restoreFromBackup.
    destruct (truthy bp && existsSync fs2 (tmpl bp)).
    + destruct (write_succeeds fs2 (fx_file (sf_fix sf)) c0) as [fs3 Hw3].
      { by rewrite (write_readonly _ _ _ _ Hw), Hro. }
      rewrite Hw3. eexists _, _. split; [done|]. cbn [ar_success failure fs].
      split; [done|]. intros _. right. by eapply read_write_same.
    + eexists _, _. split; [done|]. cbn [ar_success failure fs].
      split; [done|]. intros _. left. by eapply read_write_same.
  - destruct (updateFixApplication _ _ _ _) as [fixes' b].
    eexists _, _. split; [done|]. cbn [ar_success fs].
    split; [|done]. intros _. by eapply read_write_same.
Qed.

Lemma applyFix_drifted_fix_splices_at_reported_line_witness :
  let sf := exDriftedStored in
  let spliced :=
    join_lines
      (take (Z.to_nat (Z.max 0 (fx_line (sf_fix sf) - 2))) (split_lines exDriftedContent)
       ++ split_lines (codeToApply sf)
       ++ drop (Z.to_nat (Z.max 0 (fx_line (sf_fix sf) - 2))
                + length (split_lines (fx_originalCode (sf_fix sf))))
               (split_lines exDriftedContent)) in
  exists r w1,
    applyFix exParams 20 exDrifted = Returned r w1 /\
    (ar_success r = true -> readFileSync (fs w1) (fx_file (sf_fix sf)) = Some spliced) /\
    (ar_success r = false ->
       readFileSync (fs w1) (fx_file (sf_fix sf)) = Some spliced \/
       readFileSync (fs w1) (fx_file (sf_fix sf)) = Some exDriftedContent).
Proof.
  apply (applyFix_drifted_fix_splices_at_reported_line exParams 20 exDrifted
           exDriftedStored exDriftedContent).
  - reflexivity.
  - reflexivity.
  - reflexivity.
  - intros i Hi. change (length (split_lines exDriftedContent)) with 3 in Hi.
    destruct i as [|[|[|i]]]; [reflexivity..|lia].
  - reflexivity.
  - apply examples_writable.
Defined.

(** C6 as stated fails: the splice overwrites a line that has nothing to
    do with the fix. The import on line 1 of the rewritten file is not the
    original code of the fix, and it is gone after [applyFix]. *)
Lemma applyFix_overwrites_unrelated_line :
  findStartLine (split_lines exDriftedContent)
                (split_lines (fx_originalCode exFix)) = (-1)%Z /\
  exists r w1,
    applyFix exParams 20 exDrifted = Returned r w1 /\
    ar_success r = true /\
    readFileSync (fs exDrifted) exFile
      = Some ("import { load } from './api';" +:+ nl +:+ "const c = load();" +:+ nl
              +:+ "render(c);") /\
    readFileSync (fs w1) exFile
      = Some ("const b = a?.value;" +:+ nl +:+ "const c = load();" +:+ nl
              +:+ "render(c);").
Proof.
  split; [reflexivity|].
  eexists _, _. split; [vm_compute; reflexivity|]. repeat split.
Qed.

(** ** Modified fixes (C9) *)

Lemma confirmFix_world params now w sf :
  getFixById (fixes w) (cp_fixId params) = Some sf ->
  snd (confirmFix params now w) =
  World_ (fs w)
    (fst (updateFixConfirmation (fixes w) (cp_fixId params)
            (FixConfirmation_ (cp_fixId params) (cp_action params)
               (cp_modifiedCode params) (cp_reason params) (toISOString now)) now)).
Proof.
  intros H. destruct params as [id action code reason]. cbn [cp_fixId] in *.
  unfold confirmFix. rewrite H. cbn [cp_action cp_modifiedCode cp_reason].
  unfold updateFixConfirmation. rewrite H. cbn [negb fst snd]. done.
Qed.

Lemma truthy_nonempty s : s <> "" -> truthy (Some s) = true.
Proof. by destruct s. Qed.

Lemma find_seq_first (f : nat -> bool) : forall n a i,
  List.find f (seq a n) = Some i ->
  a <= i < a + n /\ f i = true /\ forall j, a <= j < i -> f j = false.
Proof.
  induction n as [|n IH]; intros a i; [done|]. cbn [seq find].
  destruct (f a) eqn:E.
  - intros [= <-]. split; [lia|]. split; [done|]. intros j Hj. lia.
  - intros H. apply IH in H as (H1 & H2 & H3). split; [lia|]. split; [done|].
    intros j Hj. destruct (decide (j = a)) as [->|Hne]; [done|]. apply H3. lia.
Qed.

(** Where [spliceContent] puts the new code: at the first window of the
    content that matches the original code, or, when there is none, at the
    line index [max(0, line - 2)]. *)
Lemma spliceContent_explicit originalCode line code content :
  let lines := split_lines content in
  let originalCodeLines := split_lines originalCode in
  exists start,
    spliceContent originalCode line code content
    = join_lines (take start lines ++ split_lines code
                  ++ drop (start + length originalCodeLines) lines) /\
    ((start < length lines /\
      windowMatches lines originalCodeLines start = true /\
      forall i, i < start -> windowMatches lines originalCodeLines i = false)
     \/ ((forall i, i < length lines -> windowMatches lines originalCodeLines i = false) /\
         start = Z.to_nat (Z.max 0 (line - 2)))).
Proof.
  intros lines originalCodeLines. unfold spliceContent, findStartLine.
  fold lines originalCodeLines.
  destruct (List.find _ _) as [i|] eqn:F.
  - apply find_seq_first in F as (H1 & H2 & H3).
    exists i. destruct (Z.eqb_spec (Z.of_nat i) (-1)) as [?|_]; [lia|].
    destruct (Z.leb_spec 0 (Z.of_nat i)); [|lia]. rewrite Nat2Z.id.
    split; [done|]. left. split; [lia|]. split; [done|]. intros j Hj. apply H3. lia.
  - exists (Z.to_nat (Z.max 0 (line - 2))). rewrite Z.eqb_refl.
    destruct (Z.leb_spec 0 (Z.max 0 (line - 2))); [|lia].
    split; [done|]. right. split; [|done].
    intros i Hi. eapply find_none in F; [exact F|]. apply in_seq. lia.
Qed.

Lemma includes_spliced (before code after : list string) :
  code <> [] -> includes (join_lines (before ++ code ++ after)) (join_lines code) = true.
Proof.
  intros H. destruct (join_lines_middle before code after H) as (x & y & ->).
  apply includes_middle.
Qed.

(** C9, as the code has it: [confirmFix] with the action [modify] leaves
    the stored fix with
    the status [rejected] and with the confirmation; [applyFix] on it does
    not refuse it. With the target readable and writable and no dry run,
    [applyFix] writes the file with the lines of the code to apply in the
    place of the original code (at the first window that matches it, or
    else at the line index [max(0, line - 2)]); the code to apply is the
    [modifiedCode] of the confirmation when that is present and not empty,
    and the suggested code otherwise. [applyFix] succeeds exactly when the
    text written passes the syntax check or the check is switched off, and
    then the target holds that text, which contains the code. *)
Theorem confirmFix_modify_then_applyFix w sf modifiedCode reason now1 params now2 c0 :
  getFixById (fixes w) (pp_fixId params) = Some sf ->
  readFileSync (fs w) (fx_file (sf_fix sf)) = Some c0 ->
  default false (pp_dryRun params) = false ->
  fx_file (sf_fix sf) ∉ readonly (fs w) ->
  let w1 := snd (confirmFix (ConfirmFixParams_ (pp_fixId params) modify
                               modifiedCode reason) now1 w) in
  let code :=
    match modifiedCode with
    | Some (String c s) => String c s
    | _ => fx_suggestedCode (sf_fix sf)
    end in
  let lines := split_lines c0 in
  let originalCodeLines := split_lines (fx_originalCode (sf_fix sf)) in
  (exists sf1, getFixById (fixes w1) (pp_fixId params) = Some sf1 /\
               fx_status (sf_fix sf1) = rejected /\
               (cf_action <$> sf_confirmation sf1) = Some modify) /\
  exists r w2 start,
    let written :=
      join_lines (take start lines ++ split_lines code
                  ++ drop (start + length originalCodeLines) lines) in
    applyFix params now2 w1 = Returned r w2 /\
    ((start < length lines /\
      windowMatches lines originalCodeLines start = true /\
      forall i, i < start -> windowMatches lines originalCodeLines i = false)
     \/ ((forall i, i < length lines -> windowMatches lines originalCodeLines i = false) /\
         start = Z.to_nat (Z.max 0 (fx_line (sf_fix sf) - 2)))) /\
    includes written code = true /\
    (ar_success r = true <->
     (if default true (pp_validate params)
      then validateSyntax (fx_file (sf_fix sf)) written else None) = None) /\
    (ar_success r = true ->
     readFileSync (fs w2) (fx_file (sf_fix sf)) = Some written) /\
    (ar_success r = false ->
     exists e, validateSyntax (fx_file (sf_fix sf)) written = Some e /\
               ar_error r = Some (validationError e)).
Proof.
  intros Hget Hread Hdry Hfile w1 code lines originalCodeLines.
  set (c := FixConfirmation_ (pp_fixId params) modify modifiedCode reason
              (toISOString now1)).
  assert (w1 = World_ (fs w)
                 (fst (updateFixConfirmation (fixes w) (pp_fixId params) c now1)))
    as Hw1 by (by apply (confirmFix_world (ConfirmFixParams_ _ _ _ _) now1 w sf)).
  destruct (updateFixConfirmation_found (fixes w) (pp_fixId params) c now1 sf Hget)
    as (sf1 & Hget1 & _ & Hconf & Hstatus & Hf & Hl & Ho & Hs).
  cbn [cf_action c] in Hstatus. rewrite decide_False in Hstatus by done.
  split; [exists sf1; rewrite Hw1; by rewrite Hconf|].
  assert (codeToApply sf1 = code) as Hcode.
  { unfold codeToApply, code. rewrite Hconf, Hs. cbn [cf_action cf_modifiedCode c].
    rewrite bool_decide_eq_true_2 by done. by destruct modifiedCode as [[|? ?]|]. }
  destruct (spliceContent_explicit (fx_originalCode (sf_fix sf)) (fx_line (sf_fix sf))
              code c0) as (start & Hsplice & Hstart).
  fold lines originalCodeLines in Hsplice, Hstart.
  set (written := join_lines (take start lines ++ split_lines code
                              ++ drop (start + length originalCodeLines) lines)) in *.
  assert (newContentOf sf1 c0 = written) as Hnew.
  { unfold newContentOf. by rewrite Hcode, Ho, Hl. }
  assert (includes written code = true) as Hinc.
  { replace (includes written code)
      with (includes written (join_lines (split_lines code)))
      by (by rewrite join_split).
    apply includes_spliced, split_lines_not_nil. }
  unfold applyFix. rewrite Hw1. cbn [fixes fs].
  rewrite Hget1, (guard_confirmation _ _ Hconf), Hf, Hread, Hdry, Hnew.
  destruct (if default true (pp_backup params) then _ else _) as [fs1 bp] eqn:Hbk.
  assert (readonly fs1 = readonly (fs w)) as Hro.
  { destruct (default true (pp_backup params)).
    - by apply createBackup_spec in Hbk as (? & _ & _).
    - by injection Hbk as <- <-. }
  destruct (write_succeeds fs1 (fx_file (sf_fix sf)) written) as [fs2 Hw];
    [by rewrite Hro|].
  rewrite Hw.
  destruct (if default true (pp_validate params) then _ else _) as [e|] eqn:Hval.
  - assert (validateSyntax (fx_file (sf_fix sf)) written = Some e) as Hve.
    { by destruct (default true (pp_validate params)). }
    unfold restoreFromBackup.
    destruct (truthy bp && existsSync fs2 (tmpl bp)).
    + destruct (write_succeeds fs2 (fx_file (sf_fix sf)) c0) as [fs3 Hw3].
      { by rewrite (write_readonly _ _ _ _ Hw), Hro. }
      rewrite Hw3. eexists _, _, start. cbv zeta. fold written. rewrite Hval.
      split; [done|]. split; [done|].
      split; [done|]. cbn [failure ar_success ar_error].
      split; [by split|]. split; [done|]. intros _. eauto.
    + eexists _, _, start. cbv zeta. fold written. rewrite Hval.
      split; [done|]. split; [done|].
      split; [done|]. cbn [failure ar_success ar_error].
      split; [by split|]. split; [done|]. intros _. eauto.
  - destruct (updateFixApplication _ _ _ _) as [fixes' b].
    eexists _, _, start. cbv zeta. fold written. rewrite Hval.
    split; [done|]. split; [done|]. split; [done|].
    cbn [ar_success]. split; [by split|]. split; [|done].
    intros _. cbn [fs]. by eapply read_write_same.
Qed.

Lemma confirmFix_modify_then_applyFix_witness :
  let w1 := snd (confirmFix (ConfirmFixParams_ (pp_fixId exParams) modify
                               (Some "const b = a ? a.value : 0;") None) 10 exWorld) in
  let code := "const b = a ? a.value : 0;" in
  let lines := split_lines exContent in
  let originalCodeLines := split_lines (fx_originalCode (sf_fix exStored)) in
  (exists sf1, getFixById (fixes w1) (pp_fixId exParams) = Some sf1 /\
               fx_status (sf_fix sf1) = rejected /\
               (cf_action <$> sf_confirmation sf1) = Some modify) /\
  exists r w2 start,
    let written :=
      join_lines (take start lines ++ split_lines code
                  ++ drop (start + length originalCodeLines) lines) in
    applyFix exParams 20 w1 = Returned r w2 /\
    ((start < length lines /\
      windowMatches lines originalCodeLines start = true /\
      forall i, i < start -> windowMatches lines originalCodeLines i = false)
     \/ ((forall i, i < length lines -> windowMatches lines originalCodeLines i = false) /\
         start = Z.to_nat (Z.max 0 (fx_line (sf_fix exStored) - 2)))) /\
    includes written code = true /\
    (ar_success r = true <->
     (if default true (pp_validate exParams)
      then validateSyntax (fx_file (sf_fix exStored)) written else None) = None) /\
    (ar_success r = true ->
     readFileSync (fs w2) (fx_file (sf_fix exStored)) = Some written) /\
    (ar_success r = false ->
     exists e, validateSyntax (fx_file (sf_fix exStored)) written = Some e /\
               ar_error r = Some (validationError e)).
Proof.
  apply (confirmFix_modify_then_applyFix exWorld exStored
           (Some "const b = a ? a.value : 0;") None 10 exParams 20 exContent).
  - reflexivity.
  - reflexivity.
  - reflexivity.
  - apply examples_writable.
Defined.

(** C9 as stated fails for a [modify] confirmation whose [modifiedCode] is
    the empty text, which asks for the line to be taken out: [applyFix]
    succeeds and writes the suggested code, not the modified code. The
    same happens when the confirmation carries no [modifiedCode]. *)
Lemma applyFix_ignores_empty_modifiedCode :
  let w1 := snd (confirmFix (ConfirmFixParams_ "fix-1" modify (Some "") None) 10
                   exWorld) in
  let w1' := snd (confirmFix (ConfirmFixParams_ "fix-1" modify None None) 10 exWorld) in
  (exists sf1, getFixById (fixes w1) "fix-1" = Some sf1 /\
               fx_status (sf_fix sf1) = rejected /\
               (sf_confirmation sf1 ≫= cf_modifiedCode) = Some "") /\
  (exists r w2,
     applyFix exParams 20 w1 = Returned r w2 /\
     ar_success r = true /\
     readFileSync (fs w2) exFile
     = Some ("const a = load();" +:+ nl +:+ "const b = a?.value;" +:+ nl
             +:+ "render(b);") /\
     readFileSync (fs w2) exFile
     <> Some ("const a = load();" +:+ nl +:+ "" +:+ nl +:+ "render(b);")) /\
  (exists r w2,
     applyFix exParams 20 w1' = Returned r w2 /\
     ar_success r = true /\
     readFileSync (fs w2) exFile
     = Some ("const a = load();" +:+ nl +:+ "const b = a?.value;" +:+ nl
             +:+ "render(b);")).
Proof.
  split; [eexists; split; [vm_compute; reflexivity|]; split; reflexivity|].
  split.
  - eexists _, _. split; [vm_compute; reflexivity|]. split; [reflexivity|].
    split; [vm_compute; reflexivity|]. vm_compute. discriminate.
  - eexists _, _. split; [vm_compute; reflexivity|]. split; [reflexivity|].
    vm_compute. reflexivity.
Qed.

(** ** Statuses in the store (C10) *)

Lemma applyFix_store params now w :
  fixes (world_of (applyFix params now w)) = fixes w \/
  exists bp,
    fixes (world_of (applyFix params now w)) =
    fst (updateFixApplication (fixes w) (pp_fixId params)
           (FixApplication_ (pp_fixId params) true bp None (toISOString now)) now).
Proof.
  unfold applyFix.
  destruct (getFixById (fixes w) (pp_fixId params)) as [sf|]; [|by left].
  destruct (_ && _); [by left|].
  destruct (readFileSync (fs w) (fx_file (sf_fix sf))) as [c0|]; [|by left].
  destruct (default false (pp_dryRun params)); [by left|].
  destruct (if default true (pp_backup params) then _ else _) as [fs1 bp].
  destruct (writeFileSync fs1 _ _) as [fs2|].
  - destruct (if default true (pp_validate params) then _ else _) as [e|].
    + destruct (restoreFromBackup fs2 _ _ _); by left.
    + right. exists bp. by destruct (updateFixApplication _ _ _ _).
  - destruct (restoreFromBackup fs1 _ _ _); by left.
Qed.

Lemma applyFix_failure_keeps_store params now w r w1 :
  applyFix params now w = Returned r w1 -> ar_success r = false -> fixes w1 = fixes w.
Proof.
  unfold applyFix.
  destruct (getFixById (fixes w) (pp_fixId params)) as [sf|]; [|by intros [= <- <-]].
  destruct (_ && _); [by intros [= <- <-]|].
  destruct (readFileSync (fs w) (fx_file (sf_fix sf))) as [c0|]; [|by intros [= <- <-]].
  destruct (default false (pp_dryRun params)); [by intros [= <- <-]|].
  destruct (if default true (pp_backup params) then _ else _) as [fs1 bp].
  destruct (writeFileSync fs1 _ _) as [fs2|].
  - destruct (if default true (pp_validate params) then _ else _) as [e|].
    + destruct (restoreFromBackup fs2 _ _ _); [by intros [= <- <-]|done].
    + destruct (updateFixApplication _ _ _ _). by intros [= <- <-].
  - destruct (restoreFromBackup fs1 _ _ _); [by intros [= <- <-]|done].
Qed.

Lemma applyFix_exception_keeps_store params now w w1 :
  applyFix params now w = Threw w1 -> fixes w1 = fixes w.
Proof.
  unfold applyFix.
  destruct (getFixById (fixes w) (pp_fixId params)) as [sf|]; [|done].
  destruct (_ && _); [done|].
  destruct (readFileSync (fs w) (fx_file (sf_fix sf))) as [c0|]; [|done].
  destruct (default false (pp_dryRun params)); [done|].
  destruct (if default true (pp_backup params) then _ else _) as [fs1 bp].
  destruct (writeFileSync fs1 _ _) as [fs2|].
  - destruct (if default true (pp_validate params) then _ else _) as [e|].
    + destruct (restoreFromBackup fs2 _ _ _); [done|by intros [= <-]].
    + by destruct (updateFixApplication _ _ _ _).
  - destruct (restoreFromBackup fs1 _ _ _); [done|by intros [= <-]].
Qed.

Lemma rollbackFix_keeps_store fixId w : fixes (snd (rollbackFix fixId w)) = fixes w.
Proof.
  unfold rollbackFix.
  destruct (getFixById (fixes w) fixId) as [sf|]; [|done].
  destruct (sf_application sf) as [a|]; [|done].
  destruct (negb (truthy (ap_backupPath a))); [done|].
  destruct (readFileSync _ _); [|done].
  by destruct (writeFileSync _ _ _).
Qed.

Lemma confirmFix_reachable params now w :
  reachable_store (fixes w) -> reachable_store (fixes (snd (confirmFix params now w))).
Proof.
  intros H. destruct params as [id action code reason].
  unfold confirmFix.
  destruct (getFixById (fixes w) id) as [sf|] eqn:Hget; [|done].
  unfold updateFixConfirmation. rewrite Hget. cbn [negb fixes snd].
  apply update_found_Forall; [|done].
  intros f _. cbn [sf_fix fx_status set_confirmedAt set_status cf_action].
  unfold reachable_status. destruct (decide (action = approve)); auto.
Qed.

Lemma applyFix_reachable params now w :
  reachable_store (fixes w) -> reachable_store (fixes (world_of (applyFix params now w))).
Proof.
  intros H. destruct (applyFix_store params now w) as [-> | [bp ->]]; [done|].
  unfold updateFixApplication.
  destruct (getFixById (fixes w) (pp_fixId params)); [|done]. cbn [fst].
  apply update_found_Forall; [|done].
  intros f _. cbn [sf_fix fx_status set_appliedAt set_status ap_success].
  unfold reachable_status. auto.
Qed.

Lemma step_reachable w op :
  reachable_store (fixes w) -> reachable_store (fixes (step w op)).
Proof.
  destruct op as [params now|params now|fixId]; cbn [step].
  - apply confirmFix_reachable.
  - apply applyFix_reachable.
  - by rewrite rollbackFix_keeps_store.
Qed.

(** C10: from a store in which every status is [pending], [confirmed],
    [rejected] or [applied], every sequence of [confirmFix], [applyFix] and
    [rollbackFix] calls leaves a store of that kind: the status [failed] is
    never assigned (and the type has no status for a rolled-back fix).
    An [applyFix] that reports a failure or throws leaves the store as it
    was, and so does every [rollbackFix]. *)
Theorem statuses_stay_reachable ops w :
  reachable_store (fixes w) ->
  reachable_store (fixes (runOps ops w)) /\
  Forall (fun sf => fx_status (sf_fix sf) <> failed) (fixes (runOps ops w)) /\
  (forall params now w0 r w1,
     applyFix params now w0 = Returned r w1 -> ar_success r = false ->
     fixes w1 = fixes w0) /\
  (forall params now w0 w1, applyFix params now w0 = Threw w1 -> fixes w1 = fixes w0) /\
  (forall fixId w0, fixes (snd (rollbackFix fixId w0)) = fixes w0).
Proof.
  intros H.
  assert (reachable_store (fixes (runOps ops w))) as Hr.
  { unfold runOps. revert w H. induction ops as [|op ops IH]; intros w H; [done|].
    cbn [fold_left]. apply IH. by apply step_reachable. }
  split; [done|]. split.
  - eapply Forall_impl; [exact Hr|]. intros sf [E|[E|[E|E]]]; cbn beta in *; congruence.
  - split; [apply applyFix_failure_keeps_store|].
    split; [apply applyFix_exception_keeps_store|apply rollbackFix_keeps_store].
Qed.

Lemma statuses_stay_reachable_witness :
  reachable_store (fixes (runOps exOps exWorld)) /\
  Forall (fun sf => fx_status (sf_fix sf) <> failed) (fixes (runOps exOps exWorld)) /\
  (forall params now w0 r w1,
     applyFix params now w0 = Returned r w1 -> ar_success r = false ->
     fixes w1 = fixes w0) /\
  (forall params now w0 w1, applyFix params now w0 = Threw w1 -> fixes w1 = fixes w0) /\
  (forall fixId w0, fixes (snd (rollbackFix fixId w0)) = fixes w0).
Proof.
  apply (statuses_stay_reachable exOps exWorld).
  repeat constructor.
Defined.

(** ** Determinism of the rules (C8) *)

Import RegexOps Leaks Rules.

Section Determinism.

Lemma agree_ret (a1 a2 : list DetectedIssue) :
  map erase a1 = map erase a2 -> agree (ret a1) (ret a2).
Proof. intros H e1 e2. by exists a1, e1, a2, e2. Qed.

Lemma agree_bind (m1 m2 : M (list DetectedIssue)) f1 f2 :
  agree m1 m2 ->
  (forall a1 a2, map erase a1 = map erase a2 -> agree (f1 a1) (f2 a2)) ->
  agree (bind m1 f1) (bind m2 f2).
Proof.
  intros Hm Hf e1 e2. unfold bind.
  destruct (Hm e1 e2) as (a1 & e1' & a2 & e2' & -> & -> & Ha).
  apply (Hf a1 a2 Ha).
Qed.

Lemma agree_uuid f1 f2 :
  (forall id1 id2, agree (f1 id1) (f2 id2)) -> agree (bind uuidv4 f1) (bind uuidv4 f2).
Proof. intros Hf e1 e2. unfold bind, uuidv4. apply Hf. Qed.

Lemma agree_date f1 f2 :
  (forall d1 d2, agree (f1 d1) (f2 d2)) -> agree (bind newDateISO f1) (bind newDateISO f2).
Proof. intros Hf e1 e2. unfold bind, newDateISO. apply Hf. Qed.

Lemma agree_matches r content f1 f2 :
  1 <= minlen r ->
  (forall ms, agree (f1 ms) (f2 ms)) ->
  agree (bind (allMatches r content) f1) (bind (allMatches r content) f2).
Proof.
  intros Hr Hf e1 e2. unfold bind, allMatches.
  destruct (matches_total r content Hr) as [ms ->]. apply Hf.
Qed.

Lemma agree_if (b : bool) m1 m2 m1' m2' :
  agree m1 m1' -> agree m2 m2' ->
  agree (if b then m1 else m2) (if b then m1' else m2').
Proof. by destruct b. Qed.

Lemma agree_forEach {A} (body1 body2 : A -> M (list DetectedIssue)) xs :
  (forall x, agree (body1 x) (body2 x)) ->
  agree (forEach body1 xs) (forEach body2 xs).
Proof.
  intros Hb. induction xs as [|x xs IH]; cbn [forEach].
  - by apply agree_ret.
  - apply agree_bind; [apply Hb|]. intros a1 a2 Ha.
    apply agree_bind; [apply IH|]. intros b1 b2 Hb'.
    apply agree_ret. by rewrite !map_app, Ha, Hb'.
Qed.

(** An issue built from a fresh id and the current time. *)
Lemma agree_issue (mk : string -> string -> DetectedIssue) :
  (forall id1 d1 id2 d2, erase (mk id1 d1) = erase (mk id2 d2)) ->
  agree (bind uuidv4 (fun id => bind newDateISO (fun d => ret [mk id d])))
        (bind uuidv4 (fun id => bind newDateISO (fun d => ret [mk id d]))).
Proof.
  intros H. apply agree_uuid. intros id1 id2. apply agree_date. intros d1 d2.
  apply agree_ret. cbn [map]. by rewrite (H id1 d1 id2 d2).
Qed.

Ltac agree_step :=
  first
    [ apply agree_issue; intros; reflexivity
    | apply agree_ret; reflexivity
    | apply agree_if
    | apply agree_forEach; intros ?
    | apply agree_matches; [vm_compute; lia|intros ?]
    | apply agree_bind; [|intros ? ? ?] ].

Lemma effectIssue_agree filePath content m :
  agree (effectIssue filePath content m) (effectIssue filePath content m).
Proof. unfold effectIssue. repeat agree_step. Qed.

Lemma analyzeReactMemoryLeaks_agree filePath content lines :
  agree (analyzeReactMemoryLeaks filePath content lines)
        (analyzeReactMemoryLeaks filePath content lines).
Proof.
  unfold analyzeReactMemoryLeaks.
  apply agree_matches; [vm_compute; lia|intros ms].
  apply agree_bind; [apply agree_forEach, effectIssue_agree|intros a1 a2 Ha].
  apply agree_bind; [repeat agree_step|intros b1 b2 Hb].
  apply agree_bind; [repeat agree_step|intros c1 c2 Hc].
  apply agree_ret. by rewrite !map_app, Ha, Hb, Hc.
Qed.

Lemma detectNullReferences_agree filePath content platform :
  agree (detectNullReferences filePath content platform)
        (detectNullReferences filePath content platform).
Proof.
  unfold detectNullReferences.
  apply agree_bind; [|intros a1 a2 Ha].
  { apply agree_if; [|by apply agree_ret].
    apply agree_matches; [vm_compute; lia|intros ms].
    apply agree_bind; [repeat agree_step|intros u1 u2 Hu].
    apply agree_matches; [vm_compute; lia|intros _].
    apply agree_matches; [vm_compute; lia|intros ms'].
    apply agree_bind; [repeat agree_step|intros v1 v2 Hv].
    apply agree_ret. by rewrite !map_app, Hu, Hv. }
  apply agree_bind; [|intros b1 b2 Hb].
  { apply agree_if; [|by apply agree_ret].
    apply agree_matches; [vm_compute; lia|intros ms]. repeat agree_step. }
  apply agree_bind; [|intros c1 c2 Hc].
  { apply agree_if; [|by apply agree_ret].
    apply agree_matches; [vm_compute; lia|intros ms]. repeat agree_step. }
  apply agree_ret. by rewrite !map_app, Ha, Hb, Hc.
Qed.

Lemma analyzeKotlinMemoryLeaks_agree filePath content lines :
  agree (analyzeKotlinMemoryLeaks filePath content lines)
        (analyzeKotlinMemoryLeaks filePath content lines).
Proof.
  unfold analyzeKotlinMemoryLeaks.
  apply agree_bind; [repeat agree_step|intros a1 a2 Ha].
  apply agree_bind; [repeat agree_step|intros b1 b2 Hb].
  apply agree_bind; [repeat agree_step|intros c1 c2 Hc].
  apply agree_ret. by rewrite !map_app, Ha, Hb, Hc.
Qed.

Lemma analyzeDartMemoryLeaks_agree filePath content lines :
  agree (analyzeDartMemoryLeaks filePath content lines)
        (analyzeDartMemoryLeaks filePath content lines).
Proof.
  unfold analyzeDartMemoryLeaks.
  apply agree_bind; [repeat agree_step|intros a1 a2 Ha].
  apply agree_bind; [repeat agree_step|intros b1 b2 Hb].
  apply agree_bind; [repeat agree_step|intros c1 c2 Hc].
  apply agree_ret. by rewrite !map_app, Ha, Hb, Hc.
Qed.

Lemma analyzeSwiftMemoryLeaks_agree filePath content lines :
  agree (analyzeSwiftMemoryLeaks filePath content lines)
        (analyzeSwiftMemoryLeaks filePath content lines).
Proof.
  unfold analyzeSwiftMemoryLeaks.
  apply agree_bind; [repeat agree_step|intros a1 a2 Ha].
  apply agree_bind; [repeat agree_step|intros b1 b2 Hb].
  apply agree_matches; [vm_compute; lia|intros ms].
  apply agree_bind; [repeat agree_step|intros c1 c2 Hc].
  apply agree_matches; [vm_compute; lia|intros ms'].
  apply agree_bind; [repeat agree_step|intros d1 d2 Hd].
  apply agree_ret. by rewrite !map_app, Ha, Hb, Hc, Hd.
Qed.

Lemma analyzeFileForMemoryLeaks_agree filePath content platform :
  agree (analyzeFileForMemoryLeaks filePath content platform)
        (analyzeFileForMemoryLeaks filePath content platform).
Proof.
  unfold analyzeFileForMemoryLeaks. destruct platform.
  - apply analyzeSwiftMemoryLeaks_agree.
  - apply analyzeKotlinMemoryLeaks_agree.
  - apply analyzeDartMemoryLeaks_agree.
  - apply analyzeReactMemoryLeaks_agree.
  - apply analyzeReactMemoryLeaks_agree.
Qed.

Lemma detectRaceConditions_agree filePath content platform :
  agree (detectRaceConditions filePath content platform)
        (detectRaceConditions filePath content platform).
Proof.
  unfold detectRaceConditions.
  apply agree_matches; [vm_compute; lia|intros ms].
  apply agree_bind; [repeat agree_step|intros a1 a2 Ha].
  apply agree_bind; [|intros b1 b2 Hb].
  { apply agree_if; [|by apply agree_ret].
    apply agree_matches; [vm_compute; lia|intros ms']. repeat agree_step. }
  apply agree_matches; [vm_compute; lia|intros ms'].
  apply agree_bind; [repeat agree_step|intros c1 c2 Hc].
  apply agree_ret. by rewrite !map_app, Ha, Hb, Hc.
Qed.

Lemma detectStateInconsistencies_agree filePath content platform :
  agree (detectStateInconsistencies filePath content platform)
        (detectStateInconsistencies filePath content platform).
Proof.
  unfold detectStateInconsistencies.
  apply agree_bind; [|intros a1 a2 Ha].
  { apply agree_if; [|by apply agree_ret].
    apply agree_matches; [vm_compute; lia|intros ms].
    apply agree_bind; [repeat agree_step|intros u1 u2 Hu].
    apply agree_matches; [vm_compute; lia|intros ms'].
    apply agree_bind; [repeat agree_step|intros v1 v2 Hv].
    apply agree_ret. by rewrite !map_app, Hu, Hv. }
  apply agree_bind; [|intros b1 b2 Hb].
  { apply agree_if; [|by apply agree_ret].
    apply agree_matches; [vm_compute; lia|intros ms]. repeat agree_step. }
  apply agree_ret. by rewrite !map_app, Ha, Hb.
Qed.

Lemma detectTypeMismatches_agree filePath content platform :
  agree (detectTypeMismatches filePath content platform)
        (detectTypeMismatches filePath content platform).
Proof.
  unfold detectTypeMismatches.
  apply agree_if; [|by apply agree_ret].
  apply agree_matches; [cbn; lia|intros ms].
  apply agree_bind; [repeat agree_step|intros a1 a2 Ha].
  apply agree_matches; [vm_compute; lia|intros _].
  by apply agree_ret.
Qed.

Lemma detectAdvancedLogicErrors_agree filePath content platform :
  agree (detectAdvancedLogicErrors filePath content platform)
        (detectAdvancedLogicErrors filePath content platform).
Proof.
  unfold detectAdvancedLogicErrors.
  apply agree_matches; [cbn; lia|intros ms].
  apply agree_bind; [repeat agree_step|intros a1 a2 Ha].
  apply agree_matches; [vm_compute; lia|intros ms'].
  apply agree_bind; [repeat agree_step|intros b1 b2 Hb].
  apply agree_ret. by rewrite !map_app, Ha, Hb.
Qed.

Lemma detectLogicErrorsInFile_agree analysisDepth checkTypes file content platform :
  agree (detectLogicErrorsInFile analysisDepth checkTypes file content platform)
        (detectLogicErrorsInFile analysisDepth checkTypes file content platform).
Proof.
  unfold detectLogicErrorsInFile.
  apply agree_bind; [|intros a1 a2 Ha].
  { apply agree_if; [apply detectRaceConditions_agree|by apply agree_ret]. }
  apply agree_bind; [|intros b1 b2 Hb].
  { apply agree_if; [apply detectStateInconsistencies_agree|by apply agree_ret]. }
  apply agree_bind; [|intros c1 c2 Hc].
  { apply agree_if; [apply detectNullReferences_agree|by apply agree_ret]. }
  apply agree_bind; [|intros d1 d2 Hd].
  { apply agree_if; [apply detectTypeMismatches_agree|by apply agree_ret]. }
  apply agree_bind; [|intros e1 e2 He].
  { apply agree_if; [apply detectAdvancedLogicErrors_agree|by apply agree_ret]. }
  apply agree_ret. by rewrite !map_app, Ha, Hb, Hc, Hd, He.
Qed.

Lemma erased_same_shape (a b : list DetectedIssue) :
  map erase a = map erase b ->
  length a = length b /\ map is_type a = map is_type b /\ map is_line a = map is_line b.
Proof.
  intros H. split; [|split].
  - apply (f_equal length) in H. by rewrite !length_map in H.
  - apply (f_equal (map is_type)) in H. by rewrite !map_map in H.
  - apply (f_equal (map is_line)) in H. by rewrite !map_map in H.
Qed.

Lemma agree_sameIssues rule env1 env2 : agree rule rule -> sameIssues rule env1 env2.
Proof.
  intros H. destruct (H env1 env2) as (a & e1' & b & e2' & H1 & H2 & Hab).
  exists a, e1', b, e2'. repeat split; try done; by apply erased_same_shape.
Qed.

End Determinism.

(** C8: every detection rule, run twice on the same content, ends both
    times and reports the same issues up to the generated ids and
    timestamps, whatever ids and times the two runs are given: the same
    number of issues, of the same kinds, on the same lines (and with the
    same other fields). This holds for the five rule functions of
    [detectLogicErrors], for the four of [detectMemoryLeaks], and for what
    the two tools do with one file: [analyzeFileForMemoryLeaks] and the
    body of the loop of [detectLogicErrors], whatever the platform, the
    analysis depth and the check types. *)
Theorem detection_is_deterministic filePath content lines platform
    analysisDepth checkTypes env1 env2 :
  Forall (fun rule => sameIssues rule env1 env2)
    [ detectRaceConditions filePath content platform;
      detectStateInconsistencies filePath content platform;
      detectNullReferences filePath content platform;
      detectTypeMismatches filePath content platform;
      detectAdvancedLogicErrors filePath content platform;
      analyzeSwiftMemoryLeaks filePath content lines;
      analyzeKotlinMemoryLeaks filePath content lines;
      analyzeDartMemoryLeaks filePath content lines;
      analyzeReactMemoryLeaks filePath content lines;
      analyzeFileForMemoryLeaks filePath content platform;
      detectLogicErrorsInFile analysisDepth checkTypes filePath content platform ].
Proof.
  repeat apply Forall_cons_2; [..|apply Forall_nil_2]; apply agree_sameIssues.
  - apply detectRaceConditions_agree.
  - apply detectStateInconsistencies_agree.
  - apply detectNullReferences_agree.
  - apply detectTypeMismatches_agree.
  - apply detectAdvancedLogicErrors_agree.
  - apply analyzeSwiftMemoryLeaks_agree.
  - apply analyzeKotlinMemoryLeaks_agree.
  - apply analyzeDartMemoryLeaks_agree.
  - apply analyzeReactMemoryLeaks_agree.
  - apply analyzeFileForMemoryLeaks_agree.
  - apply detectLogicErrorsInFile_agree.
Qed.

(** ** Scenario 1: an effect that subscribes and never cleans up *)

(** On the file that consists of the effect, and on a component that has
    it on line 3, the React leak rule reports exactly one issue, of the
    kind [memory_leak], on the line of the [useEffect] call; the fix made
    for it from the lines around the issue inserts the template's
    [return () => subscription.unsubscribe();], which the original code
    does not contain. *)
Lemma useEffect_subscription_examples filePath env :
  (exists issue env',
     analyzeFileForReactLeaks filePath exEffect env = Some ([issue], env') /\
     is_type issue = memory_leak /\
     is_line issue = 1%Z /\
     exists fc,
       generateMemoryLeakFix issue web (originalCodeAround exEffect (is_line issue))
         = Some fc /\
       fc_original fc = exEffect /\
       includes (fc_suggested fc) "return () => subscription.unsubscribe();" = true /\
       includes (fc_original fc) "return () => subscription.unsubscribe();" = false) /\
  (exists issue env',
     analyzeFileForReactLeaks filePath exComponent env = Some ([issue], env') /\
     is_type issue = memory_leak /\
     is_line issue = 3%Z /\
     exists fc,
       generateMemoryLeakFix issue web (originalCodeAround exComponent (is_line issue))
         = Some fc /\
       fc_original fc = exComponent /\
       includes (fc_suggested fc) "return () => subscription.unsubscribe();" = true /\
       includes (fc_original fc) "return () => subscription.unsubscribe();" = false).
Proof.
  destruct env as [uuids dates nu nd]. split.
  - eexists _, _. split; [vm_compute; reflexivity|].
    split; [reflexivity|]. split; [reflexivity|].
    eexists. split; [vm_compute; reflexivity|].
    split; [reflexivity|]. split; vm_compute; reflexivity.
  - eexists _, _. split; [vm_compute; reflexivity|].
    split; [reflexivity|]. split; [reflexivity|].
    eexists. split; [vm_compute; reflexivity|].
    split; [vm_compute; reflexivity|]. split; vm_compute; reflexivity.
Qed.

(** The suggested code calls [unsubscribe] on the name [subscription],
    which the effect does not declare; the subscription [s] of the effect
    is not mentioned in the cleanup. *)
Lemma useEffect_fix_does_not_unsubscribe_s :
  exists issue env' fc,
    analyzeFileForReactLeaks "src/Feed.tsx" exEffect exEnv = Some ([issue], env') /\
    generateMemoryLeakFix issue web (originalCodeAround exEffect (is_line issue))
      = Some fc /\
    fc_suggested fc =
      "useEffect(() => { const s = api.subscribe(); " +:+ nl
      +:+ "    return () => subscription.unsubscribe();" +:+ nl +:+ "  }, [])" /\
    includes (fc_suggested fc) "return () => s.unsubscribe();" = false /\
    includes (fc_suggested fc) "s.unsubscribe()" = false.
Proof.
  eexists _, _, _. split; [vm_compute; reflexivity|].
  split; [vm_compute; reflexivity|].
  split; [reflexivity|]. split; vm_compute; reflexivity.
Qed.

(** ** The positional preview diff (C2) *)

(** C2 fails on [generateDiff]: an empty line counts as an absent line.
    The diff of a text against itself without its final line break ends
    in a [+ undefined] line; a blank line appended after the last line of
    the original comes with a [- undefined] line; and two different
    modified texts have the same diff against one original, so no way of
    applying the diff can give back both. *)
Theorem generateDiff_loses_empty_lines :
  generateDiff ("a" +:+ nl) "a" = "  a" +:+ nl +:+ "- " +:+ nl +:+ "+ undefined" /\
  generateDiff "a" ("a" +:+ nl +:+ nl +:+ "b")
    = "  a" +:+ nl +:+ "- undefined" +:+ nl +:+ "+ " +:+ nl +:+ "+ b" /\
  generateDiff ("a" +:+ nl +:+ "b") "a" = "  a" +:+ nl +:+ "- b" /\
  generateDiff ("a" +:+ nl +:+ "b") ("a" +:+ nl) = "  a" +:+ nl +:+ "- b" /\
  "a" <> "a" +:+ nl.
Proof. repeat split; try reflexivity. discriminate. Qed.

(** ** Small runs of the model *)

Example unified_diff_of_one_changed_line :
  generateUnifiedDiff ("a" +:+ nl +:+ "b" +:+ nl +:+ "c")
                      ("a" +:+ nl +:+ "x" +:+ nl +:+ "c") "f.ts"
  = "--- a/f.ts" +:+ nl +:+ "+++ b/f.ts" +:+ nl +:+ "@@ -2,1 +2,1 @@" +:+ nl
    +:+ "-b" +:+ nl +:+ "+x".
Proof. reflexivity. Qed.

Example unified_diff_of_appended_lines :
  unifiedDiffLines ["a"] ["a"; "b"; "c"; "d"; "e"] "f.ts"
  = ["--- a/f.ts"; "+++ b/f.ts"; "@@ -2 +2 @@"; "+b"; "+c"; "+d"; "+e"].
Proof. reflexivity. Qed.

Example force_unwrap_match :
  matches forceUnwrapPattern "foo!.bar" = Some [Matched 0 "foo!." [(1, "foo")] 5].
Proof. reflexivity. Qed.

Example greedy_body_stops_at_first_closing_brace :
  (map m_text <$> matches effectPattern "useEffect(() => { if (a) { b } c }, [])")
  = Some ["useEffect(() => { if (a) { b }"].
Proof. reflexivity. Qed.

Example lazy_quantifiers_and_backreference :
  (map m_text <$> matches unsafeAccessPattern "if (foo) { bar(); } baz; foo.x")
  = Some ["if (foo) { bar(); } baz; foo."].
Proof. reflexivity. Qed.

Example null_reference_rule_on_a_force_unwrap :
  (map (fun i => (is_type i, is_line i, is_code i)) <$>
     (fst <$> detectNullReferences exFile exContent web exEnv))
  = Some [(null_reference, 2%Z, Some "const b = a!.value;")].
Proof. vm_compute. reflexivity. Qed.

Example extname_of_paths :
  extname "/app/src/Feed.ts" = ".ts" /\ extname "/app/.env" = "" /\
  extname "/app.d/Makefile" = "" /\ extname "a.test.tsx" = ".tsx".
Proof. repeat split. Qed.

(** The batch path [applyConfirmedFixes] starts from [getConfirmedFixes]:
    a fix whose confirmation was [modify] or [reject] is not among them. *)
Example batch_apply_skips_modified_and_rejected_fixes :
  getConfirmedFixes
    (fixes (snd (confirmFix (ConfirmFixParams_ "fix-1" modify
                               (Some "const b = a ? a.value : 0;") None) 10 exWorld)))
    None = [] /\
  getConfirmedFixes
    (fixes (snd (confirmFix (ConfirmFixParams_ "fix-1" reject None None) 10 exWorld)))
    None = [] /\
  map (fun sf => fx_id (sf_fix sf)) (getConfirmedFixes (fixes exApproved) None)
  = ["fix-1"].
Proof. repeat split. Qed.

Import RegexOps StoreOps FixBatch Suggest Leaks MoreExamples MoreNotions.

(** An alternation, a word boundary and a negative look-ahead. *)
Example word_boundary_before_for :
  m_text <$> exec (infiniteLoopPattern "xfor(;;)") "xfor(;;)" 0 = None /\
  m_text <$> exec (infiniteLoopPattern "a.for (;;)") "a.for (;;)" 0 = Some "for (;;)" /\
  m_text <$> exec (infiniteLoopPattern "while ( true )") "while ( true )" 0
  = Some "while ( true )".
Proof. vm_compute. repeat split. Qed.

Example word_boundary_after_any :
  m_text <$> exec (anyPattern "x: anything") "x: anything" 0 = None /\
  m_text <$> exec (anyPattern "f(x: any)") "f(x: any)" 0 = Some ": any".
Proof. vm_compute. repeat split. Qed.

Example look_ahead_and_case :
  m_text <$> exec conditionalStatePattern "if (a) { setState(1) } else {}" 0 = None /\
  m_text <$> exec conditionalStatePattern "if (a) { setState(1) }" 0
  = Some "if (a) { setState(1) }" /\
  m_text <$> exec delegatePattern "VAR xDelegate : Baz = weak" 0
  = Some "VAR xDelegate : Baz" /\
  m_text <$> exec delegatePattern "var delegate: Foo?" 0 = Some "var delegate: Foo?".
Proof. vm_compute. repeat split. Qed.

Example swift_rule_on_a_delegate :
  (fun r => map (fun i => (is_type i, is_line i, is_code i, is_retainCycle i)) r.1)
    <$> analyzeFileForMemoryLeaks "App.swift" "var delegate: Foo?" ios exEnv
  = Some [(retain_cycle, 1%Z, Some "var delegate: Foo?", Some ["self"; "delegate"])].
Proof. vm_compute. reflexivity. Qed.

Example logic_rules_on_one_file :
  (fun r => map (fun i => (is_type i, is_line i, is_title i)) r.1)
    <$> detectLogicErrorsInFile (Some deep) None "a.ts"
          "let a: any = x!.y; for(;;){}" web exEnv
  = Some [(null_reference, 1%Z, "Non-null assertion operator");
          (type_mismatch, 1%Z, "Usage of any type");
          (state_inconsistency, 1%Z, "Potential infinite loop")].
Proof. vm_compute. reflexivity. Qed.

(** ** The store: saving, listing and clearing *)

Section StoreOpsFacts.

Lemma findEntry_None {A} (p : A -> bool) l :
  findEntry p l = None <-> List.find p l = None.
Proof.
  induction l as [|x l IH]; [done|]. cbn [findEntry find].
  destruct (p x); [done|]. destruct (findEntry p l) as [[k y]|].
  - split; [done|]. intros H. apply IH in H. done.
  - split; [intros _; by apply IH|done].
Qed.

Lemma findEntry_Some {A} (p : A -> bool) l k x :
  findEntry p l = Some (k, x) ->
  l !! k = Some x /\ p x = true /\ List.find p l = Some x /\
  forall y, p y = true -> List.find p (<[k := y]> l) = Some y.
Proof.
  revert k. induction l as [|a l IH]; intros k; [done|]. cbn [findEntry find].
  destruct (p a) eqn:E.
  - intros [= <- <-]. repeat split; [done|]. intros y Hy. cbn. by rewrite Hy.
  - destruct (findEntry p l) as [[k' y']|] eqn:F; [|done]. intros [= <- <-].
    destruct (IH _ eq_refl) as (H1 & H2 & H3 & H4). repeat split; try done.
    intros y Hy. cbn. rewrite E. by apply H4.
Qed.

Lemma find_insert_other {A} (p : A -> bool) l k x y :
  l !! k = Some x -> p x = false -> p y = false ->
  List.find p (<[k := y]> l) = List.find p l.
Proof.
  revert k. induction l as [|a l IH]; intros k; [done|]. destruct k as [|k].
  - intros [= ->] Hx Hy. cbn. by rewrite Hx, Hy.
  - intros Hk Hx Hy. cbn. destruct (p a); [done|]. by apply IH.
Qed.

Lemma find_app {A} (p : A -> bool) l1 l2 :
  List.find p (l1 ++ l2) =
  match List.find p l1 with Some x => Some x | None => List.find p l2 end.
Proof. induction l1 as [|a l1 IH]; [done|]. cbn. by destruct (p a). Qed.

Lemma eqb_other (a b c : string) :
  a <> c -> String.eqb b a = true -> String.eqb b c = false.
Proof.
  intros Hac Hba. apply String.eqb_eq in Hba as ->. by apply String.eqb_neq.
Qed.

End StoreOpsFacts.

Lemma saveFix_spec fixes fix_ projectPath e :
  exists fixes' e' sf,
    saveFix fixes fix_ projectPath e = Some (fixes', e') /\
    getFixById fixes' (fx_id fix_) = Some sf /\
    sf_fix sf = fix_ /\
    sf_projectPath sf = projectPath /\
    sf_confirmation sf = getFixById fixes (fx_id fix_) ≫= sf_confirmation /\
    sf_application sf = getFixById fixes (fx_id fix_) ≫= sf_application /\
    (forall id, id <> fx_id fix_ -> getFixById fixes' id = getFixById fixes id) /\
    length fixes' =
      match getFixById fixes (fx_id fix_) with
      | Some _ => length fixes
      | None => length fixes + 1
      end.
Proof.
  unfold saveFix, getFixById, has_id.
  destruct (findEntry _ fixes) as [[k old]|] eqn:F.
  - apply findEntry_Some in F as (Hk & Hp & Hf & Hins).
    cbn. do 3 eexists. split; [reflexivity|]. rewrite Hf. cbn.
    split; [apply Hins; cbn; apply String.eqb_refl|].
    repeat split; try done.
    + intros id Hid. apply find_insert_other with old; [done| |].
      * apply eqb_other with (fx_id fix_); [congruence|done].
      * cbn. apply String.eqb_neq. congruence.
    + by rewrite length_insert.
  - apply findEntry_None in F. cbn. do 3 eexists. split; [reflexivity|].
    rewrite F. cbn. rewrite find_app, F. cbn. rewrite String.eqb_refl.
    repeat split; try done.
    + intros id Hid. rewrite find_app. cbn.
      assert (String.eqb (fx_id fix_) id = false) as ->
        by (apply String.eqb_neq; congruence).
      by case_match.
    + rewrite length_app. cbn. lia.
Qed.

Lemma find_None_ids fixes id :
  List.find (fun f => String.eqb (fx_id (sf_fix f)) id) fixes = None -> (id ∉ ids fixes).
Proof.
  induction fixes as [|f fixes IH]; cbn; [intros _; apply not_elem_of_nil|].
  destruct (String.eqb_spec (fx_id (sf_fix f)) id) as [|Hne]; [done|].
  intros H. apply not_elem_of_cons. split; [congruence|by apply IH].
Qed.

Lemma saveFix_ids fixes fix_ projectPath e fixes' e' :
  saveFix fixes fix_ projectPath e = Some (fixes', e') ->
  (fx_id fix_ ∈ ids fixes /\ ids fixes' = ids fixes) \/
  ((fx_id fix_ ∉ ids fixes) /\ ids fixes' = ids fixes ++ [fx_id fix_]).
Proof.
  unfold saveFix. destruct (findEntry _ fixes) as [[k old]|] eqn:F.
  - apply findEntry_Some in F as (Hk & Hp & _ & _). cbn. intros [= <- _]. left.
    apply String.eqb_eq in Hp.
    assert (ids fixes !! k = Some (fx_id fix_)) as Hid.
    { unfold ids. by rewrite list_lookup_fmap, Hk, <- Hp. }
    split; [by eapply list_elem_of_lookup_2|].
    unfold ids. rewrite list_fmap_insert. cbn. by apply list_insert_id.
  - apply findEntry_None in F. cbn. intros [= <- _]. right.
    split; [by apply find_None_ids|]. unfold ids. by rewrite map_app.
Qed.

Lemma saveFix_total fixes fix_ projectPath e :
  exists fixes' e', saveFix fixes fix_ projectPath e = Some (fixes', e').
Proof. destruct (saveFix_spec fixes fix_ projectPath e) as (? & ? & ? & ? & _). eauto. Qed.

Lemma saveFixes_ids fixList : forall fixes projectPath e,
  exists fixes' e',
    saveFixes fixes fixList projectPath e = Some (fixes', e') /\
    (forall id, id ∈ ids fixes' <-> id ∈ ids fixes \/ id ∈ map fx_id fixList).
Proof.
  induction fixList as [|f fixList IH]; intros fixes projectPath e.
  - cbn. do 2 eexists. split; [reflexivity|]. intros id. rewrite elem_of_nil. tauto.
  - cbn [saveFixes]. unfold bind at 1.
    destruct (saveFix_total fixes f projectPath e) as (fixes1 & e1 & E). rewrite E.
    assert (forall id, id ∈ ids fixes1 <-> id ∈ ids fixes \/ id = fx_id f) as Hids.
    { apply saveFix_ids in E as [[Hold E]|[Hnew E]]; rewrite E.
      - intros id. split; [by left|]. by intros [?| ->].
      - intros id. rewrite elem_of_app, list_elem_of_singleton. tauto. }
    destruct (IH fixes1 projectPath e1) as (fixes' & e' & E' & Hids').
    exists fixes', e'. split; [done|].
    intros id. rewrite Hids', Hids. cbn [map]. rewrite elem_of_cons. tauto.
Qed.

Lemma saveFixes_spec fixList : forall fixes projectPath e,
  NoDup (ids fixes) ->
  exists fixes' e',
    saveFixes fixes fixList projectPath e = Some (fixes', e') /\
    NoDup (ids fixes') /\
    (forall id, id ∈ ids fixes' <-> id ∈ ids fixes \/ id ∈ map fx_id fixList).
Proof.
  induction fixList as [|f fixList IH]; intros fixes projectPath e Hnd.
  - cbn. do 2 eexists. split; [reflexivity|]. split; [done|].
    intros id. rewrite elem_of_nil. tauto.
  - cbn [saveFixes]. unfold bind at 1.
    destruct (saveFix_total fixes f projectPath e) as (fixes1 & e1 & E). rewrite E.
    assert (NoDup (ids fixes1) /\
            forall id, id ∈ ids fixes1 <-> id ∈ ids fixes \/ id = fx_id f) as [Hnd1 Hids].
    { apply saveFix_ids in E as [[Hold E]|[Hnew E]]; rewrite E.
      - split; [done|]. intros id. split; [by left|]. by intros [?| ->].
      - split.
        + apply NoDup_app. split; [done|]. split; [|apply NoDup_singleton].
          intros x Hx ->%list_elem_of_singleton. done.
        + intros id. rewrite elem_of_app, list_elem_of_singleton. tauto. }
    destruct (IH fixes1 projectPath e1 Hnd1) as (fixes' & e' & E' & Hnd' & Hids').
    exists fixes', e'. split; [done|]. split; [done|].
    intros id. rewrite Hids', Hids. cbn [map]. rewrite elem_of_cons. tauto.
Qed.

(** X1: [saveFix] is an upsert keyed on the fix id. It always answers; the
    fix saved is then what [getFixById] returns for its id, under the
    project path given, with the confirmation and the application of the
    record that was there before (none if there was none); every other id
    is looked up as before; and the store grows by one record exactly when
    the id was new. *)
Theorem saveFix_then_getFixById fixes fix_ projectPath e :
  exists fixes' e' sf,
    saveFix fixes fix_ projectPath e = Some (fixes', e') /\
    getFixById fixes' (fx_id fix_) = Some sf /\
    sf_fix sf = fix_ /\
    sf_projectPath sf = projectPath /\
    sf_confirmation sf = getFixById fixes (fx_id fix_) ≫= sf_confirmation /\
    sf_application sf = getFixById fixes (fx_id fix_) ≫= sf_application /\
    (forall id, id <> fx_id fix_ -> getFixById fixes' id = getFixById fixes id) /\
    length fixes' =
      match getFixById fixes (fx_id fix_) with
      | Some _ => length fixes
      | None => length fixes + 1
      end.
Proof. apply saveFix_spec. Qed.

(** X2: [saveFixes] never leaves two records with the same id: if the ids
    of the store are pairwise different before, they are so after, also
    when the list saved repeats an id or brings one the store has. The ids
    of the store afterwards are those it had and those of the list. *)
Theorem saveFixes_keeps_ids_unique fixes fixList projectPath e :
  NoDup (ids fixes) ->
  exists fixes' e',
    saveFixes fixes fixList projectPath e = Some (fixes', e') /\
    NoDup (ids fixes') /\
    (forall id, id ∈ ids fixes' <-> id ∈ ids fixes \/ id ∈ map fx_id fixList).
Proof. apply saveFixes_spec. Qed.

Lemma saveFixes_keeps_ids_unique_witness :
  exists fixes' e',
    saveFixes [exStored] [exOtherFix; exFix; exOtherFix] "/app" exEnv
    = Some (fixes', e') /\
    NoDup (ids fixes') /\
    (forall id, id ∈ ids fixes' <->
                id ∈ ids [exStored] \/ id ∈ map fx_id [exOtherFix; exFix; exOtherFix]).
Proof.
  apply (saveFixes_keeps_ids_unique [exStored] [exOtherFix; exFix; exOtherFix]
           "/app" exEnv).
  apply NoDup_singleton.
Defined.

(** X3: [saveTestResult] appends the result with the project path and the
    time of the call, and then keeps the last 1000 records only: the store
    never holds more than 1000 results after a save, the record just saved
    is the last one, and the records kept are the most recent ones in
    their order. *)
Theorem saveTestResult_keeps_last_1000 {TR} (results : list (StoredTestResult TR))
    (result : TR) projectPath e :
  exists results' e',
    saveTestResult results result projectPath e = Some (results', e') /\
    length results' = Nat.min 1000 (length results + 1) /\
    last results'
      = Some (StoredTestResult_ result projectPath (dateSource e (dateCalls e))) /\
    results' `suffix_of`
      (results ++ [StoredTestResult_ result projectPath (dateSource e (dateCalls e))]).
Proof.
  unfold saveTestResult, bind, newDateISO, ret.
  set (new := StoredTestResult_ result projectPath (dateSource e (dateCalls e))).
  assert (length (results ++ [new]) = length results + 1) as Hlen
    by (rewrite length_app; reflexivity).
  do 2 eexists. split; [reflexivity|].
  destruct (Nat.ltb_spec 1000 (length (results ++ [new]))) as [Hgt|Hle].
  - split; [rewrite length_drop; lia|]. split; [|apply suffix_drop].
    rewrite Hlen. replace (length results + 1 - 1000) with (length results - 999) by lia.
    rewrite drop_app_le by lia. apply last_snoc.
  - split; [lia|]. split; [apply last_snoc|done].
Qed.

Lemma getTestResults_drop {TR} (results : list (StoredTestResult TR))
    projectPath n :
  let all :=
    if truthy projectPath
    then List.filter (fun r => strict_eq (Some (tr_projectPath r)) projectPath) results
    else results in
  getTestResults results projectPath (Some (Z.of_nat (S n)))
    = drop (length all - S n) all /\
  getTestResults results projectPath None = drop (length all - 100) all /\
  getTestResults results projectPath (Some 0%Z) = all.
Proof.
  intros all. unfold getTestResults. fold all.
  assert (forall k : Z,
    slice all k (Z.of_nat (length all))
    = drop (slice_index (length all) k) all) as Hs.
  { intros k. unfold slice. set (s := slice_index _ k).
    assert (slice_index (length all) (Z.of_nat (length all)) = length all) as ->.
    { unfold slice_index. destruct (Z.ltb_spec (Z.of_nat (length all)) 0); [lia|].
      rewrite Nat2Z.id. lia. }
    apply take_ge. rewrite length_drop. lia. }
  rewrite !Hs. unfold default, from_option, id. split; [|split].
  - f_equal. unfold slice_index.
    destruct (Z.ltb_spec (- Z.of_nat (S n)) 0); lia.
  - f_equal. unfold slice_index. change (Z.opp 100 <? 0)%Z with true. cbv iota. lia.
  - unfold slice_index. cbn. by rewrite drop_0.
Qed.

(** X4: [getTestResults] returns the last [limit] results of the project,
    oldest first, for a positive [limit] (100 when none is given); with the
    limit 0 it returns all of them, not none. *)
Theorem getTestResults_last_results {TR} (results : list (StoredTestResult TR))
    projectPath n :
  let all :=
    if truthy projectPath
    then List.filter (fun r => strict_eq (Some (tr_projectPath r)) projectPath) results
    else results in
  getTestResults results projectPath (Some (Z.of_nat (S n)))
    = drop (length all - S n) all /\
  getTestResults results projectPath None = drop (length all - 100) all /\
  getTestResults results projectPath (Some 0%Z) = all.
Proof. apply getTestResults_drop. Qed.

Lemma filter_disjoint_length {A} (p q : A -> bool) l :
  (forall x, p x = true -> q x = false) ->
  length (List.filter p l) + length (List.filter q l) <= length l.
Proof.
  intros H. induction l as [|x l IH]; [done|]. cbn.
  destruct (p x) eqn:E; [rewrite (H _ E)|destruct (q x)]; cbn; lia.
Qed.

Lemma getTestResults_length {TR} (results : list (StoredTestResult TR)) projectPath :
  length (getTestResults results projectPath None) <= 100 /\
  length (getTestResults results projectPath None) <= length results.
Proof.
  destruct (getTestResults_drop results projectPath 0) as (_ & -> & _).
  rewrite length_drop. split; [lia|].
  destruct (truthy projectPath); [|lia].
  pose proof (filter_length_le
    (fun r => strict_eq (Some (tr_projectPath r)) projectPath) results). lia.
Qed.

(** X5: what [getStats] reports: never more than 100 results, however
    many are stored, since it counts what [getTestResults] returns with
    its default limit; and the pending and the applied fixes together are
    never more than the fixes counted. *)
Theorem getStats_counts {TS TR TP} (store : Store TS TR TP) projectPath :
  totalResults (getStats store projectPath) <= 100 /\
  totalResults (getStats store projectPath) <= length (st_results store) /\
  pendingFixes (getStats store projectPath) + appliedFixes (getStats store projectPath)
    <= totalFixes (getStats store projectPath) /\
  totalFixes (getStats store projectPath) <= length (st_fixes store).
Proof.
  unfold getStats. cbn [totalResults pendingFixes appliedFixes totalFixes].
  destruct (getTestResults_length (st_results store) projectPath) as [H1 H2].
  repeat split; [done|done| |].
  - unfold getPendingFixes. apply filter_disjoint_length.
    intros f Hf. apply bool_decide_eq_true in Hf. apply bool_decide_eq_false. congruence.
  - unfold getFixes. destruct (truthy projectPath); [apply filter_length_le|done].
Qed.

Lemma find_filter_same {A} (p : A -> bool) l :
  List.find p (List.filter (fun x => negb (p x)) l) = None.
Proof.
  induction l as [|x l IH]; [done|]. cbn. destruct (p x) eqn:E; cbn; [done|].
  by rewrite E.
Qed.

Lemma find_filter_other {A} (p q : A -> bool) l :
  (forall x, q x = true -> p x = false) ->
  List.find q (List.filter (fun x => negb (p x)) l) = List.find q l.
Proof.
  intros H. induction l as [|x l IH]; [done|]. cbn.
  destruct (p x) eqn:E; cbn.
  - destruct (q x) eqn:Q; [|done]. apply H in Q. congruence.
  - by rewrite IH.
Qed.

Lemma filter_length_lt_find {A} (p : A -> bool) l :
  (length (List.filter (fun x => negb (p x)) l) <? length l)
  = bool_decide (is_Some (List.find p l)).
Proof.
  induction l as [|x l IH]; [done|]. cbn [List.filter find].
  pose proof (filter_length_le (fun x => negb (p x)) l) as Hle.
  destruct (p x); cbn [negb length].
  - rewrite bool_decide_eq_true_2 by eauto. apply Nat.ltb_lt. lia.
  - rewrite <- IH. destruct (Nat.ltb_spec (length (List.filter (fun x => negb (p x)) l))
                                         (length l)).
    + apply Nat.ltb_lt. lia.
    + apply Nat.ltb_ge. lia.
Qed.

(** X6: [deleteIssue] answers [true] exactly when an issue with the id
    was stored; afterwards no issue with that id is found, whether one or
    several were stored, and every other id is looked up as before. *)
Theorem deleteIssue_removes_id issues id :
  snd (deleteIssue issues id) = bool_decide (is_Some (getIssueById issues id)) /\
  getIssueById (fst (deleteIssue issues id)) id = None /\
  (forall id', id' <> id ->
     getIssueById (fst (deleteIssue issues id)) id' = getIssueById issues id').
Proof.
  unfold deleteIssue, getIssueById.
  set (p := fun i => String.eqb (is_id (si_issue i)) id).
  pose proof (filter_length_lt_find p issues) as Hlt. fold p.
  change (fun i => negb (String.eqb (is_id (si_issue i)) id))
    with (fun i => negb (p i)).
  rewrite Hlt. destruct (List.find p issues) as [i|] eqn:F.
  - rewrite bool_decide_eq_true_2 by eauto. cbn [fst snd].
    split; [by rewrite bool_decide_eq_true_2 by (cbn; eauto)|].
    split; [by rewrite find_filter_same|].
    intros id' Hne. rewrite find_filter_other; [done|].
    intros x Hx. unfold p. apply eqb_other with id'; [congruence|done].
  - rewrite bool_decide_eq_false_2 by (intros [? ?]; done). cbn [fst snd].
    split; [by rewrite bool_decide_eq_false_2 by (cbn; intros [? ?]; done)|].
    by rewrite F.
Qed.

Lemma filter_cleared {A} (key : A -> string) p l :
  List.filter (fun x => strict_eq (Some (key x)) (Some p))
              (List.filter (fun x => negb (String.eqb (key x) p)) l) = [].
Proof.
  induction l as [|x l IH]; [done|]. cbn.
  destruct (String.eqb (key x) p) eqn:E; cbn; [done|]. by rewrite E.
Qed.

Lemma filter_not_cleared {A} (key : A -> string) p q l :
  q <> p ->
  List.filter (fun x => strict_eq (Some (key x)) (Some q))
              (List.filter (fun x => negb (String.eqb (key x) p)) l)
  = List.filter (fun x => strict_eq (Some (key x)) (Some q)) l.
Proof.
  intros Hne. induction l as [|x l IH]; [done|]. cbn [List.filter].
  destruct (String.eqb_spec (key x) p) as [E|Hx]; cbn [negb List.filter].
  - rewrite IH. cbn [strict_eq]. rewrite E.
    assert (String.eqb p q = false) as -> by (apply String.eqb_neq; congruence). done.
  - by rewrite IH.
Qed.

(** X7: after [clearProject] of a project path that is not the empty
    text, [getStats] for that path is zero on every count, and for every
    other non-empty project path it is what it was. *)
Theorem clearProject_then_getStats {TS TR TP} (store : Store TS TR TP) projectPath :
  projectPath <> "" ->
  getStats (clearProject store projectPath) (Some projectPath) = Stats_ 0 0 0 0 0 0 /\
  (forall other, other <> "" -> other <> projectPath ->
     getStats (clearProject store projectPath) (Some other)
     = getStats store (Some other)).
Proof.
  intros Hp. destruct projectPath as [|c p]; [done|]. split.
  - unfold getStats, clearProject, getScenarios, getTestResults, getIssues,
      getPendingFixes, getFixes.
    cbn [st_scenarios st_results st_fixes st_plans st_issues truthy].
    rewrite (filter_cleared ss_projectPath), (filter_cleared tr_projectPath),
      (filter_cleared sf_projectPath), (filter_cleared si_projectPath).
    reflexivity.
  - intros other Ho Hne. destruct other as [|c' o]; [done|].
    unfold getStats, clearProject, getScenarios, getTestResults, getIssues,
      getPendingFixes, getFixes.
    cbn [st_scenarios st_results st_fixes st_plans st_issues truthy].
    rewrite (filter_not_cleared ss_projectPath), (filter_not_cleared tr_projectPath),
      (filter_not_cleared sf_projectPath), (filter_not_cleared si_projectPath) by done.
    reflexivity.
Qed.

Lemma clearProject_then_getStats_witness :
  getStats (clearProject exStore "/app") (Some "/app") = Stats_ 0 0 0 0 0 0 /\
  (forall other, other <> "" -> other <> "/app" ->
     getStats (clearProject exStore "/app") (Some other)
     = getStats exStore (Some other)).
Proof. apply (clearProject_then_getStats exStore "/app"). discriminate. Defined.

(** ** Batches, dry runs and rollbacks *)

Section BatchFacts.

Lemma getFixById_ids fixes id : is_Some (getFixById fixes id) <-> id ∈ ids fixes.
Proof.
  unfold getFixById, ids, has_id. induction fixes as [|f fixes IH]; cbn.
  - rewrite elem_of_nil. split; [by intros [? ?]|done].
  - rewrite elem_of_cons. destruct (String.eqb_spec (fx_id (sf_fix f)) id) as [E|E].
    + split; [by left|eauto].
    + rewrite IH. split; [by right|]. intros [?|?]; [congruence|done].
Qed.










Lemma applyFix_result_fixId params now w r w1 :
  applyFix params now w = Returned r w1 ->
  ap_fixId (ar_application r) = pp_fixId params.
Proof.
  unfold applyFix.
  destruct (getFixById _ _) as [sf|]; [|by intros [= <- _]].
  destruct (_ && _); [by intros [= <- _]|].
  destruct (readFileSync _ _) as [c0|]; [|by intros [= <- _]].
  destruct (default false (pp_dryRun params)); [by intros [= <- _]|].
  destruct (if default true (pp_backup params) then _ else _) as [fs1 bp].
  destruct (writeFileSync fs1 _ _) as [fs2|].
  - destruct (if default true (pp_validate params) then _ else _) as [e|].
    + destruct (restoreFromBackup fs2 _ _ _); [by intros [= <- _]|done].
    + destruct (updateFixApplication _ _ _ _). by intros [= <- _].
  - destruct (restoreFromBackup fs1 _ _ _); [by intros [= <- _]|done].
Qed.

Lemma applyEach_spec fixIds : forall backup validate stopOnError clock k w results0
    backups0 results backups w',
  applyEach fixIds backup validate stopOnError clock k w results0 backups0
  = Returned (results, backups) w' ->
  exists new,
    results = results0 ++ new /\
    length new <= length fixIds /\
    map fixIdOf new = take (length new) fixIds /\
    (stopOnError = false -> length new = length fixIds) /\
    (stopOnError = true ->
     forall i r, new !! i = Some r -> S i < length new -> ar_success r = true) /\
    (length new < length fixIds ->
     exists r, last new = Some r /\ ar_success r = false).
Proof.
  induction fixIds as [|fixId fixIds IH];
    intros backup validate stopOnError clock k w results0 backups0 results backups w'.
  - cbn. intros [= <- <- <-]. exists []. rewrite app_nil_r. cbn.
    repeat split; try done; lia.
  - cbn [applyEach].
    destruct (applyFix _ (clock k) w) as [r w1|w1] eqn:Happly; [|done].
    apply applyFix_result_fixId in Happly. cbn [pp_fixId] in Happly.
    destruct (negb (ar_success r) && stopOnError) eqn:Hstop.
    + intros [= <- <- <-]. exists [r].
      apply andb_true_iff in Hstop as [Hr ->]. apply negb_true_iff in Hr.
      cbn. unfold fixIdOf at 1. rewrite Happly.
      split; [done|]. split; [lia|]. split; [done|]. split; [done|]. split.
      * intros _ [|i] r' Hi Hlt; cbn in Hlt; lia.
      * intros _. eauto.
    + intros Hrest. apply IH in Hrest as (new & -> & Hlen & Hids & Hall & Hok & Hlast).
      exists (r :: new). rewrite <- app_assoc. cbn [app length map take].
      unfold fixIdOf at 1. rewrite Happly, Hids.
      split; [done|]. split; [lia|]. split; [done|]. split; [intros H; by rewrite Hall|].
      split.
      * intros -> [|i] r' Hi Hlt.
        -- injection Hi as <-. rewrite andb_true_r in Hstop.
           by apply negb_false_iff in Hstop.
        -- cbn in Hi. apply (Hok eq_refl i r' Hi). lia.
      * intros Hlt. destruct Hlast as (r' & Hr' & Hf); [lia|].
        exists r'. split; [|done]. destruct new as [|r0 new]; [done|].
        by rewrite last_cons_cons.
Qed.

Lemma filter_success_partition (results : list ApplyFixResult) :
  length (List.filter ar_success results)
  + length (List.filter (fun r => negb (ar_success r)) results) = length results.
Proof. apply filter_length. Qed.

Lemma update_found_twice id g1 g2 fixes :
  (forall f, has_id id f = true -> has_id id (g1 f) = true) ->
  update_found id g2 (update_found id g1 fixes)
  = update_found id (fun f => g2 (g1 f)) fixes.
Proof.
  intros Hg. induction fixes as [|f fixes IH]; [done|]. cbn [update_found].
  destruct (has_id id f) eqn:E; cbn [update_found].
  - by rewrite (Hg _ E).
  - by rewrite E, IH.
Qed.

Lemma update_found_ext id g1 g2 fixes :
  (forall f, g1 f = g2 f) -> update_found id g1 fixes = update_found id g2 fixes.
Proof.
  intros Hg. induction fixes as [|f fixes IH]; [done|]. cbn [update_found].
  destruct (has_id id f); [by rewrite Hg|by rewrite IH].
Qed.

Lemma spliceContent_includes originalCode line code originalContent :
  includes (spliceContent originalCode line code originalContent) code = true.
Proof.
  unfold spliceContent.
  set (start := if (findStartLine _ _ =? -1)%Z then _ else _).
  assert ((0 <=? start)%Z = true) as ->.
  { apply Z.leb_le. subst start. unfold findStartLine.
    destruct (List.find _ _); [|cbn; lia].
    destruct (Z.eqb_spec (Z.of_nat n) (-1)); lia. }
  destruct (join_lines_middle
              (take (Z.to_nat start) (split_lines originalContent))
              (split_lines code)
              (drop (Z.to_nat start + length (split_lines originalCode))
                    (split_lines originalContent)))
    as (x & y & ->); [apply split_lines_not_nil|].
  rewrite join_split. apply includes_middle.
Qed.

Lemma applyFixes_summary_aux fixIds backup validate clock w results summary w' :
  applyFixes fixIds (Some (ApplyOptions_ backup validate (Some false))) clock w
  = Returned (results, summary) w' ->
  length results = length fixIds /\
  map fixIdOf results = take (length results) fixIds /\
  as_successful summary + as_failed summary = length results.
Proof.
  unfold applyFixes.
  destruct (applyEach _ _ _ _ _ _ _ _ _) as [[results0 backups] w1|w1] eqn:E; [|done].
  intros [= <- <- <-]. cbn [as_successful as_failed].
  apply applyEach_spec in E as (new & -> & H1 & H2 & H3 & H4 & H5). cbn [app].
  split; [by apply H3|]. split; [done|apply filter_success_partition].
Qed.

End BatchFacts.


(** X9: what [applyFixes] returns: one result per fix id tried, in the
    order of the ids; [successful] and [failed] add up to the number of
    results; when it stops on errors every result but the last is a
    success, and if fewer results than ids are returned the last one is a
    failure; when it does not stop on errors every id has its result. *)
Theorem applyFixes_summary fixIds options clock w results summary w' :
  applyFixes fixIds options clock w = Returned (results, summary) w' ->
  length results <= length fixIds /\
  map fixIdOf results = take (length results) fixIds /\
  as_successful summary + as_failed summary = length results /\
  (default true (options ≫= ao_stopOnError) = true ->
   forall i r, results !! i = Some r -> S i < length results -> ar_success r = true) /\
  (default true (options ≫= ao_stopOnError) = false ->
   length results = length fixIds) /\
  (length results < length fixIds ->
   exists r, last results = Some r /\ ar_success r = false).
Proof.
  unfold applyFixes.
  destruct (applyEach _ _ _ _ _ _ _ _ _) as [[results0 backups] w1|w1] eqn:E; [|done].
  intros [= <- <- <-]. cbn [as_successful as_failed].
  apply applyEach_spec in E as (new & -> & H1 & H2 & H3 & H4 & H5). cbn [app].
  split; [done|]. split; [done|]. split; [apply filter_success_partition|done].
Qed.

Lemma applyFixes_summary_witness :
  length exBatchResults <= length ["fix-1"; "fix-9"] /\
  map fixIdOf exBatchResults = take (length exBatchResults) ["fix-1"; "fix-9"] /\
  as_successful exBatchSummary + as_failed exBatchSummary = length exBatchResults /\
  (default true (None ≫= ao_stopOnError) = true ->
   forall i r, exBatchResults !! i = Some r -> S i < length exBatchResults ->
               ar_success r = true) /\
  (default true (None ≫= ao_stopOnError) = false ->
   length exBatchResults = length ["fix-1"; "fix-9"]) /\
  (length exBatchResults < length ["fix-1"; "fix-9"] ->
   exists r, last exBatchResults = Some r /\ ar_success r = false).
Proof.
  apply (applyFixes_summary ["fix-1"; "fix-9"] None exClock exTwoFixes
           exBatchResults exBatchSummary exTwoFixes).
  reflexivity.
Defined.

Lemma filter_both {A} (p q : A -> bool) l :
  List.filter p (List.filter q l) = List.filter (fun x => p x && q x) l.
Proof.
  induction l as [|x l IH]; [done|]. cbn [List.filter].
  destruct (q x); cbn [List.filter]; rewrite ?andb_true_r, ?andb_false_r;
    destruct (p x); by rewrite IH.
Qed.

(** The fixes [getConfirmedFixes] selects for a project path: those with
    the status [confirmed] that are stored under that path; for the empty
    path no fix is left out for its project. *)
Lemma confirmed_of_project fixes projectPath :
  getConfirmedFixes fixes (Some projectPath)
  = List.filter (fun sf => bool_decide (fx_status (sf_fix sf) = confirmed
                             /\ (projectPath = "" \/ sf_projectPath sf = projectPath)))
                fixes.
Proof.
  unfold getConfirmedFixes, getFixes.
  destruct (truthy (Some projectPath)) eqn:T.
  - rewrite filter_both. apply List.filter_ext. intros sf. cbn [strict_eq].
    destruct (String.eqb_spec (sf_projectPath sf) projectPath) as [E|E];
      repeat case_bool_decide; try done; try tauto.
    destruct H0 as [_ [->|?]]; [done|tauto].
  - destruct projectPath; [|done].
    apply List.filter_ext. intros sf. repeat case_bool_decide; try done; tauto.
Qed.

(** X10: [applyConfirmedFixes] tries, in the order of the store, exactly
    the stored fixes whose status is [confirmed] and whose project path is
    the one given; when the project path given is the empty text, the
    confirmed fixes of every project are tried. Every one of them gets a
    result, and the number reported as skipped is always 0. *)
Theorem applyConfirmedFixes_skips_nothing projectPath options clock w results summary w' :
  applyConfirmedFixes projectPath options clock w = Returned (results, summary) w' ->
  fs_skipped summary = 0%Z /\
  map fixIdOf results
  = map (fun sf => fx_id (sf_fix sf))
      (List.filter (fun sf => bool_decide (fx_status (sf_fix sf) = confirmed
                                /\ (projectPath = "" \/ sf_projectPath sf = projectPath)))
                   (fixes w)) /\
  fs_successful summary + fs_failed summary = length results.
Proof.
  unfold applyConfirmedFixes.
  destruct (applyFixes _ _ _ _) as [[results0 summary0] w1|w1] eqn:E; [|done].
  intros [= <- <- <-]. cbn [fs_skipped fs_successful fs_failed].
  apply applyFixes_summary_aux in E as (H1 & H2 & H3).
  rewrite <- confirmed_of_project.
  fold (ids (getConfirmedFixes (fixes w) (Some projectPath))) in *.
  unfold ids in H1 at 1. rewrite length_map in H1.
  split; [lia|]. split; [|done].
  rewrite H2. apply take_ge. unfold ids. rewrite length_map. lia.
Qed.

Lemma applyConfirmedFixes_skips_nothing_witness :
  fs_skipped exConfirmedSummary = 0%Z /\
  map fixIdOf exConfirmedResults
  = map (fun sf => fx_id (sf_fix sf))
      (List.filter (fun sf => bool_decide (fx_status (sf_fix sf) = confirmed
                                /\ ("/app" = "" \/ sf_projectPath sf = "/app")))
                   (fixes exApproved)) /\
  fs_successful exConfirmedSummary + fs_failed exConfirmedSummary
    = length exConfirmedResults.
Proof.
  apply (applyConfirmedFixes_skips_nothing "/app" None exClock exApproved
           exConfirmedResults exConfirmedSummary (world_of exConfirmedBatch)).
  reflexivity.
Defined.

(** X11: a dry run of [applyFix] changes nothing: whatever the fix and the
    files, it returns, and the files and the store are what they were; no
    backup is taken. When it succeeds it reports the diff between the
    content of the file and the content that would be written. *)
Theorem applyFix_dry_run_changes_nothing params now w :
  pp_dryRun params = Some true ->
  exists r,
    applyFix params now w = Returned r w /\
    ar_backupPath r = None /\
    (ar_success r = true ->
     exists sf c0,
       getFixById (fixes w) (pp_fixId params) = Some sf /\
       readFileSync (fs w) (fx_file (sf_fix sf)) = Some c0 /\
       ar_diff r = Some (generateUnifiedDiff c0 (newContentOf sf c0)
                           (fx_file (sf_fix sf)))).
Proof.
  intros Hdry. unfold applyFix. rewrite Hdry. cbn [default from_option id].
  destruct (getFixById _ _) as [sf|]; [|by eexists].
  destruct (_ && _); [by eexists|].
  destruct (readFileSync _ _) as [c0|] eqn:Hread; [|by eexists].
  eexists. split; [reflexivity|]. split; [done|]. intros _.
  exists sf, c0. by repeat split.
Qed.

Lemma applyFix_dry_run_changes_nothing_witness :
  exists r,
    applyFix exDryParams 20 exApproved = Returned r exApproved /\
    ar_backupPath r = None /\
    (ar_success r = true ->
     exists sf c0,
       getFixById (fixes exApproved) (pp_fixId exDryParams) = Some sf /\
       readFileSync (fs exApproved) (fx_file (sf_fix sf)) = Some c0 /\
       ar_diff r = Some (generateUnifiedDiff c0 (newContentOf sf c0)
                           (fx_file (sf_fix sf)))).
Proof. apply (applyFix_dry_run_changes_nothing exDryParams 20 exApproved). reflexivity. Defined.

(** X12: after an [applyFix] that succeeds and is not a dry run, the
    target file contains the code that was applied (the suggested code, or
    the modified code of a [modify] confirmation) as one piece of its
    text. *)
Theorem applyFix_success_contains_code params now w sf r w1 :
  getFixById (fixes w) (pp_fixId params) = Some sf ->
  default false (pp_dryRun params) = false ->
  applyFix params now w = Returned r w1 ->
  ar_success r = true ->
  exists content,
    readFileSync (fs w1) (fx_file (sf_fix sf)) = Some content /\
    includes content (codeToApply sf) = true.
Proof.
  intros Hget Hdry Happly Hok.
  destruct (readFileSync (fs w) (fx_file (sf_fix sf))) as [c0|] eqn:Hread.
  - destruct (applyFix_success_inv _ _ _ _ _ _ _ Hget Hread Hdry Happly Hok)
      as (fs1 & bp & fs2 & _ & Hw & _ & ->).
    exists (newContentOf sf c0). split; [by eapply read_write_same|].
    apply spliceContent_includes.
  - exfalso. revert Happly Hok. unfold applyFix. rewrite Hget, Hread.
    destruct (_ && _); by intros [= <- _].
Qed.

Lemma applyFix_success_contains_code_witness :
  exists content,
    readFileSync (fs exApplied) (fx_file (sf_fix exApprovedStored)) = Some content /\
    includes content (codeToApply exApprovedStored) = true.
Proof.
  apply (applyFix_success_contains_code exParams 20 exApproved exApprovedStored
           exApplyResult exApplied); reflexivity.
Defined.

(** X13: [rollbackFix] is idempotent: rolling the same fix back a second
    time gives the same answer and leaves the files and the store as the
    first rollback left them. *)
Theorem rollbackFix_idempotent fixId w :
  rollbackFix fixId (snd (rollbackFix fixId w)) = rollbackFix fixId w.
Proof.
  unfold rollbackFix at 2 3.
  destruct (getFixById (fixes w) fixId) as [sf|] eqn:Hget;
    [|cbn [snd]; unfold rollbackFix; by rewrite Hget].
  destruct (sf_application sf) as [a|] eqn:Happ;
    [|cbn [snd]; unfold rollbackFix; by rewrite Hget, Happ].
  destruct (negb (truthy (ap_backupPath a))) eqn:Hbp;
    [cbn [snd]; unfold rollbackFix; by rewrite Hget, Happ, Hbp|].
  destruct (readFileSync (fs w) (tmpl (ap_backupPath a))) as [c|] eqn:Hread;
    [|cbn [snd]; unfold rollbackFix; by rewrite Hget, Happ, Hbp, Hread].
  destruct (writeFileSync (fs w) (fx_file (sf_fix sf)) c) as [fs1|] eqn:Hw;
    [|cbn [snd]; unfold rollbackFix; by rewrite Hget, Happ, Hbp, Hread, Hw].
  cbn [snd]. unfold rollbackFix. cbn [fixes fs]. rewrite Hget, Happ, Hbp.
  revert Hw. unfold writeFileSync. case_bool_decide as Hro; [done|]. intros [= <-].
  cbn [readonly files dirs]. rewrite bool_decide_eq_false_2 by done.
  assert (readFileSync
            (FileSystem_ (<[fx_file (sf_fix sf) := c]> (files (fs w)))
                         (dirs (fs w)) (readonly (fs w)))
            (tmpl (ap_backupPath a)) = Some c) as ->.
  { unfold readFileSync. cbn [files].
    destruct (decide (fx_file (sf_fix sf) = tmpl (ap_backupPath a))) as [<-|Hne].
    - apply lookup_insert_eq.
    - by rewrite lookup_insert_ne. }
  by rewrite insert_insert_eq.
Qed.

(** X14: of two confirmations of the same fix the later one wins: the
    store after both is the store the later one alone would have left. *)
Theorem confirmFix_last_wins p1 now1 p2 now2 w :
  cp_fixId p1 = cp_fixId p2 ->
  snd (confirmFix p2 now2 (snd (confirmFix p1 now1 w))) = snd (confirmFix p2 now2 w).
Proof.
  destruct p1 as [id a1 m1 r1], p2 as [id2 a2 m2 r2]. cbn [cp_fixId]. intros <-.
  unfold confirmFix at 2 3.
  destruct (getFixById (fixes w) id) as [sf|] eqn:Hget;
    [|cbn [snd]; unfold confirmFix; by rewrite Hget].
  unfold updateFixConfirmation. rewrite Hget. cbn [negb snd].
  unfold confirmFix. cbn [fixes fs].
  apply getFixById_has_id in Hget as Hid.
  erewrite getFixById_update; [|exact Hget|exact Hid].
  unfold updateFixConfirmation. erewrite getFixById_update; [|exact Hget|exact Hid].
  cbn [negb snd]. f_equal.
  rewrite update_found_twice by done. by apply update_found_ext.
Qed.

Lemma confirmFix_last_wins_witness :
  snd (confirmFix exApprove 30 (snd (confirmFix exReject 10 exWorld)))
  = snd (confirmFix exApprove 30 exWorld).
Proof. apply (confirmFix_last_wins exReject 10 exApprove 30 exWorld). reflexivity. Defined.

(** ** The two diffs *)

Section DiffFacts.

Lemma loop_same l : forall fuel i hunkStart diff,
  ls_hunk (loop fuel l l (LoopState i i hunkStart [] diff)) = [] /\
  ls_diff (loop fuel l l (LoopState i i hunkStart [] diff)) = diff.
Proof.
  induction fuel as [|fuel IH]; intros i hunkStart diff; [done|].
  cbn [loop]. destruct (loopCond l l _); [|done].
  unfold loopBody. rewrite (proj2 (strict_eq_true (l !! i) (l !! i)) eq_refl).
  apply IH.
Qed.

Lemma rows_S ol ml n :
  rows ol ml (S n) = generateDiff_row (head ol) (head ml) ++ rows (tail ol) (tail ml) n.
Proof.
  unfold rows. cbn [seq flat_map]. rewrite !head_lookup. f_equal.
  rewrite <- seq_shift, flat_map_concat_map, map_map, <- flat_map_concat_map.
  apply flat_map_ext. intros i. by rewrite !lookup_tail.
Qed.

Lemma row_noLF a b :
  (forall x, a = Some x -> noLF x) -> (forall x, b = Some x -> noLF x) ->
  Forall noLF (generateDiff_row a b).
Proof.
  intros Ha Hb. unfold generateDiff_row.
  assert (noLF (tmpl a)) as Hta by (destruct a; [by apply Ha|done]).
  assert (noLF (tmpl b)) as Htb by (destruct b; [by apply Hb|done]).
  assert (noLF (default "" a)) as Hda by (destruct a; [by apply Ha|done]).
  repeat case_match; repeat constructor; by apply noLF_app.
Qed.

Lemma rows_noLF ol ml n :
  Forall noLF ol -> Forall noLF ml -> Forall noLF (rows ol ml n).
Proof.
  intros Ho Hm. unfold rows. apply Forall_flat_map. apply Forall_forall.
  intros i _. apply row_noLF; intros x Hx.
  - by eapply Forall_lookup_1 in Ho.
  - by eapply Forall_lookup_1 in Hm.
Qed.

Lemma row_not_nil a b : generateDiff_row a b <> [].
Proof. unfold generateDiff_row. by repeat case_match. Qed.

Lemma rows_not_nil ol ml n : 0 < n -> rows ol ml n <> [].
Proof.
  destruct n as [|n]; [lia|]. intros _. rewrite rows_S.
  pose proof (row_not_nil (head ol) (head ml)). by destruct (generateDiff_row _ _).
Qed.

Lemma truthy_Some x : x <> "" -> truthy (Some x) = true.
Proof. by destruct x. Qed.

Lemma rows_original_only ol :
  Forall (fun l => l <> "") ol ->
  rows ol [] (length ol) = map (fun x => "- " +:+ x) ol.
Proof.
  induction 1 as [|a ol Ha _ IH]; [done|]. cbn [length]. rewrite rows_S. cbn [head tail].
  rewrite IH. unfold generateDiff_row. cbn [strict_eq]. rewrite truthy_Some by done.
  reflexivity.
Qed.

Lemma rows_modified_only ml :
  Forall (fun l => l <> "") ml ->
  rows [] ml (length ml) = map (fun x => "+ " +:+ x) ml.
Proof.
  induction 1 as [|b ml Hb _ IH]; [done|]. cbn [length]. rewrite rows_S. cbn [head tail].
  rewrite IH. unfold generateDiff_row. cbn [strict_eq]. rewrite truthy_Some by done.
  reflexivity.
Qed.

Lemma readDiff_original_only ol : readDiff (map (fun x => "- " +:+ x) ol) = (ol, []).
Proof.
  induction ol as [|a ol IH]; [done|]. cbn [map].
  change (readDiff (("- " +:+ a) :: map (fun x => "- " +:+ x) ol))
    with (match map (fun x => "- " +:+ x) ol with
          | String "+" (String " " y) :: rest' =>
              let '(o, m) := readDiff rest' in (a :: o, y :: m)
          | _ => let '(o, m) := readDiff (map (fun x => "- " +:+ x) ol) in (a :: o, m)
          end).
  rewrite IH. by destruct ol.
Qed.

Lemma readDiff_modified_only ml : readDiff (map (fun x => "+ " +:+ x) ml) = ([], ml).
Proof.
  induction ml as [|b ml IH]; [done|]. cbn [map].
  change (readDiff (("+ " +:+ b) :: map (fun x => "+ " +:+ x) ml))
    with (let '(o, m) := readDiff (map (fun x => "+ " +:+ x) ml) in (o, b :: m)).
  by rewrite IH.
Qed.

Lemma readDiff_rows ol : forall ml,
  Forall (fun l => l <> "") ol -> Forall (fun l => l <> "") ml ->
  readDiff (rows ol ml (Nat.max (length ol) (length ml))) = (ol, ml).
Proof.
  induction ol as [|a ol IH]; intros ml Ho Hm.
  - cbn [length Nat.max]. rewrite rows_modified_only by done.
    apply readDiff_modified_only.
  - destruct ml as [|b ml].
    + cbn [length]. rewrite Nat.max_0_r.
      change (S (length ol)) with (length (a :: ol)).
      rewrite rows_original_only by done. apply readDiff_original_only.
    + apply Forall_cons in Ho as [Ha Ho]. apply Forall_cons in Hm as [Hb Hm].
      cbn [length]. rewrite <- Nat.succ_max_distr, rows_S. cbn [head tail].
      specialize (IH ml Ho Hm). unfold generateDiff_row. cbn [strict_eq].
      destruct (String.eqb_spec a b) as [<-|Hab].
      * cbn [default from_option id app].
        change (readDiff (("  " +:+ a) :: ?r))
          with (let '(o, m) := readDiff r in (a :: o, a :: m)).
        by rewrite IH.
      * rewrite !truthy_Some by done. cbn [andb negb app tmpl].
        change (readDiff (("- " +:+ a) :: ("+ " +:+ b) :: ?r))
          with (let '(o, m) := readDiff r in (a :: o, b :: m)).
        by rewrite IH.
Qed.

Lemma generateDiff_rows original modified :
  generateDiff original modified
  = join_lines (rows (split_lines original) (split_lines modified)
                     (Nat.max (length (split_lines original))
                              (length (split_lines modified)))).
Proof. reflexivity. Qed.

Lemma split_generateDiff original modified :
  split_lines (generateDiff original modified)
  = rows (split_lines original) (split_lines modified)
         (Nat.max (length (split_lines original)) (length (split_lines modified))).
Proof.
  rewrite generateDiff_rows. apply split_join.
  - apply rows_not_nil. pose proof (split_lines_not_nil original).
    destruct (split_lines original); [done|]. cbn [length]. lia.
  - apply rows_noLF; apply split_lines_all_noLF.
Qed.

Lemma generateDiff_read original modified :
  noEmptyLine original -> noEmptyLine modified ->
  readDiff (split_lines (generateDiff original modified))
  = (split_lines original, split_lines modified).
Proof. intros Ho Hm. rewrite split_generateDiff. by apply readDiff_rows. Qed.

End DiffFacts.

(** X15: the unified diff of a text with itself is the two header lines
    and nothing else, whatever the text; this is what a dry run reports
    for a fix that changes nothing. *)
Theorem generateUnifiedDiff_same text filename :
  generateUnifiedDiff text text filename
  = "--- a/" +:+ filename +:+ nl +:+ "+++ b/" +:+ filename.
Proof.
  unfold generateUnifiedDiff, unifiedDiffLines.
  destruct (loop_same (split_lines text)
              (length (split_lines text) + length (split_lines text)) 0 (-1)%Z
              ["--- a/" +:+ filename; "+++ b/" +:+ filename]) as [-> ->].
  unfold join_lines. cbn [String.concat]. by rewrite !append_assoc.
Qed.

(** X16: for a given original and a file name without a line break, two
    different modified texts never have the same unified diff. *)
Theorem generateUnifiedDiff_tells_modified_apart original modified1 modified2 filename :
  noLF filename ->
  modified1 <> modified2 ->
  generateUnifiedDiff original modified1 filename
  <> generateUnifiedDiff original modified2 filename.
Proof.
  intros Hf Hne Heq.
  pose proof (generateUnifiedDiff_round_trip original modified1 filename Hf) as H1.
  pose proof (generateUnifiedDiff_round_trip original modified2 filename Hf) as H2.
  rewrite Heq in H1. congruence.
Qed.

Lemma generateUnifiedDiff_tells_modified_apart_witness :
  generateUnifiedDiff exContent exDriftedContent exFile
  <> generateUnifiedDiff exContent exContent exFile.
Proof.
  apply (generateUnifiedDiff_tells_modified_apart exContent exDriftedContent exContent
           exFile).
  - reflexivity.
  - discriminate.
Defined.

(** X17: on texts without an empty line [generateDiff] loses nothing: two
    pairs of an original and a modified text that differ have different
    preview diffs. *)
Theorem generateDiff_tells_texts_apart original modified original' modified' :
  noEmptyLine original -> noEmptyLine modified ->
  noEmptyLine original' -> noEmptyLine modified' ->
  (original, modified) <> (original', modified') ->
  generateDiff original modified <> generateDiff original' modified'.
Proof.
  intros Ho Hm Ho' Hm' Hne Heq. apply Hne.
  pose proof (generateDiff_read original modified Ho Hm) as H1.
  pose proof (generateDiff_read original' modified' Ho' Hm') as H2.
  rewrite Heq, H2 in H1. injection H1 as E1 E2.
  rewrite <- (join_split original), <- (join_split modified),
    <- (join_split original'), <- (join_split modified'). by rewrite E1, E2.
Qed.

Lemma generateDiff_tells_texts_apart_witness :
  generateDiff exContent exDriftedContent <> generateDiff exContent exContent.
Proof.
  apply (generateDiff_tells_texts_apart exContent exDriftedContent exContent exContent).
  - repeat constructor; discriminate.
  - repeat constructor; discriminate.
  - repeat constructor; discriminate.
  - repeat constructor; discriminate.
  - discriminate.
Defined.

(** X18: the preview diff of a text with itself is the text with two
    blanks in front of every line, empty lines included. *)
Theorem generateDiff_same text :
  generateDiff text text = join_lines (map (fun l => "  " +:+ l) (split_lines text)).
Proof.
  rewrite generateDiff_rows, Nat.max_id. f_equal.
  induction (split_lines text) as [|l ls IH]; [done|].
  cbn [length]. rewrite rows_S. cbn [head tail map]. rewrite IH.
  unfold generateDiff_row. cbn [strict_eq]. by rewrite String.eqb_refl.
Qed.

(** ** Fix templates and suggestions *)

Section SuggestFacts.

Lemma changed_or_none suggested originalCode confidence fc :
  (if String.eqb suggested originalCode then None
   else Some (FixCode_ originalCode suggested confidence)) = Some fc ->
  fc_original fc = originalCode /\ fc_suggested fc <> originalCode /\
  fc_confidence fc = confidence.
Proof.
  destruct (String.eqb_spec suggested originalCode) as [|Hne]; [done|].
  by intros [= <-].
Qed.

Lemma generateMemoryLeakFix_spec issue platform code fc :
  generateMemoryLeakFix issue platform code = Some fc ->
  fc_original fc = code /\ fc_suggested fc <> code /\ fc_confidence fc = 85.
Proof. unfold generateMemoryLeakFix. cbv zeta. apply changed_or_none. Qed.

Lemma generateRetainCycleFix_spec issue platform code fc :
  generateRetainCycleFix issue platform code = Some fc ->
  fc_original fc = code /\ fc_suggested fc <> code /\ fc_confidence fc = 90 /\
  platform = ios.
Proof.
  unfold generateRetainCycleFix. cbv zeta.
  destruct (bool_decide (platform = react_native) || bool_decide (platform = web));
    [done|].
  case_bool_decide as Hios.
  - intros (? & ? & ?)%changed_or_none. done.
  - by rewrite String.eqb_refl.
Qed.

Lemma generateResourceCleanupFix_spec issue platform code fc :
  generateResourceCleanupFix issue platform code = Some fc ->
  fc_original fc = code /\ fc_suggested fc <> code /\ fc_confidence fc = 85.
Proof. unfold generateResourceCleanupFix. cbv zeta. apply changed_or_none. Qed.

Lemma generateRaceConditionFix_spec issue platform code fc :
  generateRaceConditionFix issue platform code = Some fc ->
  fc_original fc = code /\ fc_suggested fc <> code /\
  (fc_confidence fc = 70 \/ fc_confidence fc = 75).
Proof.
  unfold generateRaceConditionFix. cbv zeta.
  destruct (bool_decide (platform = react_native) || bool_decide (platform = web)).
  - destruct (includes (is_title issue) "Multiple setState");
      intros (? & ? & ?)%changed_or_none; auto.
  - intros (? & ? & ?)%changed_or_none; auto.
Qed.

Lemma generateStateConsistencyFix_spec issue platform code fc :
  generateStateConsistencyFix issue platform code = Some fc ->
  fc_original fc = code /\ fc_suggested fc <> code /\ fc_confidence fc = 70.
Proof. unfold generateStateConsistencyFix. cbv zeta. apply changed_or_none. Qed.

Lemma generateNullCheckFix_spec issue platform code fc :
  generateNullCheckFix issue platform code = Some fc ->
  fc_original fc = code /\ fc_suggested fc <> code /\ fc_confidence fc = 85.
Proof. unfold generateNullCheckFix. cbv zeta. apply changed_or_none. Qed.

Lemma generateFixCode_spec issue platform code fc :
  generateFixCode issue platform code = Some fc ->
  fc_original fc = code /\
  fc_suggested fc <> code /\
  (fc_confidence fc = 70 \/ fc_confidence fc = 75 \/
   fc_confidence fc = 85 \/ fc_confidence fc = 90) /\
  (90 <= fc_confidence fc -> is_type issue = retain_cycle /\ platform = ios) /\
  (fc_confidence fc < 80 ->
   is_type issue = race_condition \/ is_type issue = state_inconsistency).
Proof.
  unfold generateFixCode. destruct (is_type issue); try done.
  - intros (? & ? & ?)%generateMemoryLeakFix_spec. repeat split; auto; lia.
  - intros (? & ? & ? & ?)%generateRetainCycleFix_spec. repeat split; auto; lia.
  - intros (? & ? & ?)%generateResourceCleanupFix_spec. repeat split; auto; lia.
  - intros (? & ? & [?|?])%generateRaceConditionFix_spec; repeat split; auto; lia.
  - intros (? & ? & ?)%generateStateConsistencyFix_spec. repeat split; auto; lia.
  - intros (? & ? & ?)%generateNullCheckFix_spec. repeat split; auto; lia.
Qed.

Lemma bind_Some {A B} (m : M A) (f : A -> M B) e a e1 :
  m e = Some (a, e1) -> bind m f e = f a e1.
Proof. unfold bind. by intros ->. Qed.

Lemma generateFixSuggestion_spec fs issue platform projectPath e :
  exists r e',
    generateFixSuggestion fs issue platform projectPath e = Some (r, e') /\
    forall s, r = Some s -> suggested_for issue (sg_fix s).
Proof.
  unfold generateFixSuggestion.
  set (originalCode := match readFileSync fs (is_file issue) with
                       | Some _ => _ | None => _ end).
  destruct (generateFixCode issue platform originalCode) as [fc|] eqn:E.
  - cbn. do 2 eexists. split; [reflexivity|]. intros s [= <-]. cbn [sg_fix].
    apply generateFixCode_spec in E as (E1 & E2 & E3 & _).
    unfold suggested_for. cbn. repeat split; try done; try congruence; lia.
  - cbn. do 2 eexists. split; [reflexivity|]. done.
Qed.

Lemma suggestEach_spec fs platform projectPath issues : forall e,
  exists l e',
    suggestEach fs issues platform projectPath e = Some (l, e') /\
    length l <= length issues /\
    Forall (fun s => exists issue, issue ∈ issues /\ suggested_for issue (sg_fix s)) l.
Proof.
  induction issues as [|issue issues IH]; intros e.
  - cbn. do 2 eexists. split; [reflexivity|]. split; [done|constructor].
  - cbn [suggestEach].
    destruct (generateFixSuggestion_spec fs issue platform projectPath e)
      as (r & e1 & E1 & Hr).
    rewrite (bind_Some _ _ _ _ _ E1).
    destruct (IH e1) as (l & e2 & E2 & Hlen & Hall).
    rewrite (bind_Some _ _ _ _ _ E2). cbn.
    assert (Forall (fun s => exists issue0,
                      issue0 ∈ issue :: issues /\ suggested_for issue0 (sg_fix s)) l)
      as Hall'.
    { eapply Forall_impl; [exact Hall|]. intros s (i & Hi & Hs).
      exists i. split; [by apply elem_of_cons; right|done]. }
    destruct r as [s|].
    + do 2 eexists. split; [reflexivity|]. split; [cbn; lia|].
      constructor; [|done]. exists issue. split; [apply elem_of_cons; by left|by apply Hr].
    + do 2 eexists. split; [reflexivity|]. split; [cbn; lia|done].
Qed.

Lemma countConfidence_spec l : forall h m lo,
  Forall (fun s => 50 <= fx_confidence (sg_fix s)) l ->
  exists h' m',
    fold_left countConfidence l (ByConfidence_ h m lo) = ByConfidence_ h' m' lo /\
    h' + m' = h + m + length l.
Proof.
  induction l as [|s l IH]; intros h m lo Hl.
  - exists h, m. cbn. split; [done|lia].
  - apply Forall_cons in Hl as [Hs Hl]. cbn [fold_left countConfidence].
    destruct (Nat.leb_spec 80 (fx_confidence (sg_fix s))).
    + destruct (IH (h + 1) m lo Hl) as (h' & m' & -> & ?).
      exists h', m'. split; [done|]. cbn [length]. lia.
    + destruct (Nat.leb_spec 50 (fx_confidence (sg_fix s))); [|lia].
      destruct (IH h (m + 1) lo Hl) as (h' & m' & -> & ?).
      exists h', m'. split; [done|]. cbn [length]. lia.
Qed.

Lemma countAll_bump (counts : gmap string nat) key :
  countAll (<[key := default 0 (counts !! key) + 1]> counts) = countAll counts + 1.
Proof.
  unfold countAll.
  destruct (counts !! key) as [v|] eqn:E.
  - cbn [default from_option id].
    rewrite <- (insert_delete_id counts key v E) at 2.
    rewrite <- (insert_delete_eq counts).
    rewrite !map_fold_insert_L;
      [lia| |apply lookup_delete_eq| |apply lookup_delete_eq]; intros; lia.
  - cbn [default from_option id]. rewrite map_fold_insert_L; [lia| |done].
    intros; lia.
Qed.

Lemma countSeverity_spec issues l : forall counts,
  countAll (fold_left (countSeverity issues) l counts) = countAll counts + length l.
Proof.
  induction l as [|s l IH]; intros counts; [cbn; lia|].
  cbn [fold_left length]. rewrite IH. unfold countSeverity. rewrite countAll_bump. lia.
Qed.

Lemma slice_length {A} (l : list A) (n : Z) :
  length (slice l 0 n) <= length l /\
  (0 <= n -> Z.of_nat (length (slice l 0 n)) <= n)%Z.
Proof.
  unfold slice. rewrite length_take, length_drop. unfold slice_index.
  change (0 <? 0)%Z with false. cbv iota. rewrite Z2Nat.inj_0, Nat.min_0_l.
  split; [lia|]. intros Hn. destruct (Z.ltb_spec n 0); lia.
Qed.

Lemma slice_elem_of {A} (l : list A) (a b : Z) x : x ∈ slice l a b -> x ∈ l.
Proof.
  unfold slice. intros H%elem_of_take. destruct H as (i & Hi & _).
  rewrite lookup_drop in Hi. by eapply list_elem_of_lookup_2.
Qed.

Lemma saveFixes_pending (newIds : list string) fixList :
  forall fixes projectPath e fixes' e',
  Forall (fun f => fx_id f ∈ newIds /\ fx_status f = pending) fixList ->
  Forall (fun sf => fx_id (sf_fix sf) ∈ newIds ->
                    sf_confirmation sf = None /\ fx_status (sf_fix sf) = pending) fixes ->
  saveFixes fixes fixList projectPath e = Some (fixes', e') ->
  Forall (fun sf => fx_id (sf_fix sf) ∈ newIds ->
                    sf_confirmation sf = None /\ fx_status (sf_fix sf) = pending) fixes'.
Proof.
  induction fixList as [|f fixList IH]; intros fixes projectPath e fixes' e' Hl Hf.
  - cbn. by intros [= <- _].
  - apply Forall_cons in Hl as [[Hid Hst] Hl]. cbn [saveFixes]. unfold bind at 1.
    destruct (saveFix fixes f projectPath e) as [[fixes1 e1]|] eqn:E; [|done].
    apply IH; [done|]. revert E. unfold saveFix.
    destruct (findEntry _ fixes) as [[k old]|] eqn:F.
    + apply findEntry_Some in F as (Hk & Hp & _ & _). cbn. intros [= <- _].
      apply Forall_insert; [done|]. cbn. intros _. split; [|done].
      apply String.eqb_eq in Hp. eapply Forall_lookup_1 in Hf; [|exact Hk].
      apply Hf. by rewrite Hp.
    + cbn. intros [= <- _]. apply Forall_app. split; [done|].
      constructor; [|constructor]. by intros _.
Qed.

End SuggestFacts.

(** X19: what [generateFixCode] can return. A fix it returns keeps the
    code it was given as its original and suggests a different text; its
    confidence is 70, 75, 85 or 90; it is 90 only for a retain cycle on
    iOS, and below 80 only for a race condition or a state inconsistency.
    So no fix has a low confidence (below 50), and the automatic mode of
    the pipeline, which applies fixes of confidence 90 and more, applies
    retain-cycle fixes on iOS and nothing else. *)
Theorem generateFixCode_confidence issue platform originalCode fc :
  generateFixCode issue platform originalCode = Some fc ->
  fc_original fc = originalCode /\
  fc_suggested fc <> originalCode /\
  (fc_confidence fc = 70 \/ fc_confidence fc = 75 \/
   fc_confidence fc = 85 \/ fc_confidence fc = 90) /\
  (90 <= fc_confidence fc -> is_type issue = retain_cycle /\ platform = ios) /\
  (fc_confidence fc < 80 ->
   is_type issue = race_condition \/ is_type issue = state_inconsistency).
Proof. apply generateFixCode_spec. Qed.

Lemma generateFixCode_confidence_witness :
  fc_original exFixCode = exContent /\
  fc_suggested exFixCode <> exContent /\
  (fc_confidence exFixCode = 70 \/ fc_confidence exFixCode = 75 \/
   fc_confidence exFixCode = 85 \/ fc_confidence exFixCode = 90) /\
  (90 <= fc_confidence exFixCode -> is_type exIssue = retain_cycle /\ web = ios) /\
  (fc_confidence exFixCode < 80 ->
   is_type exIssue = race_condition \/ is_type exIssue = state_inconsistency).
Proof. apply (generateFixCode_confidence exIssue web exContent exFixCode). reflexivity. Defined.

(** X20: [suggestFixes] always answers. Its total is the number of
    suggestions; none of them counts as of low confidence, so the high and
    the medium counts add up to the total, and so do the counts by
    severity. There are no more suggestions than issues, and no more than
    [maxSuggestions] when that is not negative (50 if it is not given).
    Every suggestion is pending
    and is about one of the issues given, and the store holds afterwards
    the ids it had and the ids of the suggestions. *)
Theorem suggestFixes_summary params fs fixes e :
  exists result fixes' e',
    suggestFixes params fs fixes e = Some (result, fixes', e') /\
    su_totalSuggestions (sr_summary result) = length (sr_suggestions result) /\
    bc_low (su_byConfidence (sr_summary result)) = 0 /\
    bc_high (su_byConfidence (sr_summary result))
      + bc_medium (su_byConfidence (sr_summary result))
      = length (sr_suggestions result) /\
    countAll (su_bySeverity (sr_summary result)) = length (sr_suggestions result) /\
    length (sr_suggestions result) <= length (sp_issues params) /\
    (0 <= default 50 (sp_maxSuggestions params) ->
     Z.of_nat (length (sr_suggestions result))
     <= default 50 (sp_maxSuggestions params))%Z /\
    Forall (fun s => exists issue,
                       issue ∈ sp_issues params /\ suggested_for issue (sg_fix s))
           (sr_suggestions result) /\
    (forall id, id ∈ ids fixes' <->
                id ∈ ids fixes \/ id ∈ map fx_id (map sg_fix (sr_suggestions result))).
Proof.
  unfold suggestFixes.
  set (maxSuggestions := default 50%Z (sp_maxSuggestions params)).
  destruct (suggestEach_spec fs (sp_platform params) (sp_projectPath params)
              (slice (sp_issues params) 0 maxSuggestions) e)
    as (l & e1 & E1 & Hlen & Hall).
  rewrite (bind_Some _ _ _ _ _ E1).
  destruct (saveFixes_ids (map sg_fix l) fixes (sp_projectPath params) e1)
    as (fixes' & e2 & E2 & Hids).
  rewrite (bind_Some _ _ _ _ _ E2). cbn [ret].
  destruct (countConfidence_spec l 0 0 0) as (h & m & Hfold & Hsum).
  { eapply Forall_impl; [exact Hall|]. intros s (i & _ & Hs).
    destruct Hs as (_ & _ & _ & _ & _ & _ & Hc & _). lia. }
  do 3 eexists. split; [reflexivity|].
  cbn [sr_summary sr_suggestions su_totalSuggestions su_byConfidence su_bySeverity].
  rewrite Hfold. cbn [bc_low bc_high bc_medium].
  destruct (slice_length (sp_issues params) maxSuggestions) as [Hs1 Hs2].
  split; [done|]. split; [done|]. split; [lia|].
  split; [by rewrite countSeverity_spec|]. split; [lia|]. split; [lia|].
  split; [|done].
  eapply Forall_impl; [exact Hall|]. intros s (i & Hi & Hs).
  exists i. split; [by eapply slice_elem_of|done].
Qed.

(** X21: a fix that [suggestFixes] has just stored cannot be applied
    before it is confirmed. If the ids of the suggestions were not in the
    store before, then for each of them [applyFix] answers "Fix must be
    confirmed before applying", whatever its options and the files, and
    changes nothing. *)
Theorem suggestFixes_then_applyFix_is_refused params fs fixes e result fixes' e' :
  suggestFixes params fs fixes e = Some (result, fixes', e') ->
  (forall s, s ∈ sr_suggestions result -> (fx_id (sg_fix s) ∉ ids fixes)) ->
  forall s backup validate dryRun now fs',
    s ∈ sr_suggestions result ->
    applyFix (ApplyFixParams_ (fx_id (sg_fix s)) backup validate dryRun) now
             (World_ fs' fixes')
    = Returned (failure (fx_id (sg_fix s)) None notConfirmedError now)
               (World_ fs' fixes').
Proof.
  intros Hrun Hfresh s backup validate dryRun now fs' Hs.
  revert Hrun. unfold suggestFixes.
  set (maxSuggestions := default 50%Z (sp_maxSuggestions params)).
  destruct (suggestEach_spec fs (sp_platform params) (sp_projectPath params)
              (slice (sp_issues params) 0 maxSuggestions) e)
    as (l & e1 & E1 & Hlen & Hall).
  rewrite (bind_Some _ _ _ _ _ E1).
  destruct (saveFixes_ids (map sg_fix l) fixes (sp_projectPath params) e1)
    as (fixes1 & e2 & E2 & Hids).
  rewrite (bind_Some _ _ _ _ _ E2). cbn [ret]. intros [= <- <- <-].
  cbn [sr_suggestions] in *.
  set (newIds := map fx_id (map sg_fix l)).
  assert (Forall (fun sf => fx_id (sf_fix sf) ∈ newIds ->
                            sf_confirmation sf = None /\
                            fx_status (sf_fix sf) = pending) fixes1) as Hinv.
  { eapply (saveFixes_pending newIds); [| |exact E2].
    - apply Forall_fmap. apply Forall_forall. intros s' Hs'. cbn. split.
      + subst newIds. apply (list_elem_of_fmap_2 fx_id).
        by apply (list_elem_of_fmap_2 sg_fix).
      + eapply Forall_forall in Hall; [|exact Hs']. by destruct Hall as (_ & _ & ? & _).
    - apply Forall_forall. intros sf Hsf Hin. exfalso.
      subst newIds. apply list_elem_of_fmap in Hin as (f & Hid & Hf).
      apply list_elem_of_fmap in Hf as (s' & -> & Hs').
      apply (Hfresh s' Hs'). rewrite <- Hid.
      unfold ids. by apply (list_elem_of_fmap_2 (fun f => fx_id (sf_fix f))). }
  assert (fx_id (sg_fix s) ∈ newIds) as Hnew.
  { subst newIds. apply (list_elem_of_fmap_2 fx_id).
    by apply (list_elem_of_fmap_2 sg_fix). }
  assert (is_Some (getFixById fixes1 (fx_id (sg_fix s)))) as [sf Hget].
  { apply getFixById_ids, Hids. by right. }
  apply find_some in Hget as Hfound. destruct Hfound as [Hin Hid].
  apply String.eqb_eq in Hid.
  eapply Forall_forall in Hinv; [|by apply list_elem_of_In].
  destruct Hinv as [Hc Hst]; [by rewrite Hid|].
  apply applyFix_unconfirmed with sf; [done| |done]. cbn. by rewrite Hst.
Qed.

Lemma suggestFixes_then_applyFix_is_refused_witness :
  length (sr_suggestions exSuggestedResult) = 1 /\
  Forall (fun s =>
            applyFix (ApplyFixParams_ (fx_id (sg_fix s)) None None (Some true)) 20
                     (World_ exFs exSuggestedStore)
            = Returned (failure (fx_id (sg_fix s)) None notConfirmedError 20)
                       (World_ exFs exSuggestedStore))
         (sr_suggestions exSuggestedResult).
Proof.
  split; [reflexivity|]. apply list.Forall_forall. intros s Hs.
  apply (suggestFixes_then_applyFix_is_refused exSuggestParams exFs [] exEnv
           exSuggestedResult exSuggestedStore exSuggestedEnv).
  - reflexivity.
  - intros s' _. apply not_elem_of_nil.
  - exact Hs.
Defined.

(** ** Where the rules point *)

Section LineFacts.

Lemma split_lines_length s : length (split_lines s) = S (count_char LF s).
Proof.
  induction s as [|c s IH]; [done|]. cbn [split_lines count_char].
  destruct (Ascii.eqb_spec c LF) as [->|Hc].
  - rewrite Ascii.eqb_refl. cbn [length]. by rewrite IH.
  - assert (Ascii.eqb LF c = false) as -> by (apply Ascii.eqb_neq; congruence).
    destruct (split_lines s); [done|]. cbn [length] in *. lia.
Qed.

Lemma count_take n : forall s, count_char LF (take_string n s) <= count_char LF s.
Proof.
  induction n as [|n IH]; intros [|c s]; cbn [take_string count_char]; try lia.
  specialize (IH s). lia.
Qed.

Lemma lineOf_range content index :
  (1 <= lineOf content index <= Z.of_nat (length (split_lines content)))%Z.
Proof.
  unfold lineOf. rewrite !split_lines_length.
  pose proof (count_take index content). lia.
Qed.

Lemma findIndex_bounds p lines :
  (-1 <= findIndex p lines < Z.of_nat (length lines))%Z.
Proof.
  induction lines as [|l lines IH]; [cbn; lia|]. cbn [findIndex length].
  destruct (p l); [lia|]. destruct (findIndex p lines); lia.
Qed.

Lemma findIndex_found p lines l :
  l ∈ lines -> p l = true -> (0 <= findIndex p lines)%Z.
Proof.
  induction lines as [|l0 lines IH]; [by intros ?%elem_of_nil|].
  intros [->|Hin]%elem_of_cons Hp; cbn [findIndex].
  - by rewrite Hp.
  - destruct (p l0); [done|]. specialize (IH Hin Hp).
    destruct (findIndex p lines); lia.
Qed.

Lemma prefix_nil s : String.prefix "" s = true.
Proof. by destruct s. Qed.

Lemma prefix_includes t s : String.prefix t s = true -> includes s t = true.
Proof. intros H. destruct s; cbn [includes]; by rewrite H. Qed.

Lemma includes_cons c s t : includes s t = true -> includes (String c s) t = true.
Proof. intros H. cbn [includes]. by destruct (String.prefix t _). Qed.

Lemma prefix_first_line t : forall s,
  noLF t -> String.prefix t s = true ->
  exists l ls, split_lines s = l :: ls /\ String.prefix t l = true.
Proof.
  induction t as [|a t IH]; intros s Ht Hp.
  - destruct (split_lines s) as [|l ls] eqn:E; [by apply split_lines_not_nil in E|].
    exists l, ls. split; [done|apply prefix_nil].
  - destruct s as [|b s]; [done|]. rewrite prefix_cons in Hp.
    destruct (ascii_dec a b) as [<-|]; [|done].
    apply noLF_cons in Ht as [Ha Ht]. destruct (IH s Ht Hp) as (l & ls & E & Hl).
    cbn [split_lines]. destruct (Ascii.eqb_spec a LF); [done|]. rewrite E.
    exists (String a l), ls. split; [done|]. rewrite prefix_cons.
    by destruct (ascii_dec a a).
Qed.

Lemma includes_some_line t : forall content,
  noLF t -> includes content t = true ->
  exists l, l ∈ split_lines content /\ includes l t = true.
Proof.
  intros content Ht. induction content as [|c s IH].
  - intros H. exists "". split; [apply list_elem_of_here|done].
  - cbn [includes]. destruct (String.prefix t (String c s)) eqn:Hp.
    + intros _. destruct (prefix_first_line t _ Ht Hp) as (l & ls & E & Hl).
      exists l. rewrite E. split; [apply list_elem_of_here|by apply prefix_includes].
    + intros H. destruct (IH H) as (l & Hin & Hl). cbn [split_lines].
      destruct (Ascii.eqb c LF).
      * exists l. split; [by apply list_elem_of_further|done].
      * destruct (split_lines s) as [|l0 ls]; [by apply elem_of_nil in Hin|].
        apply elem_of_cons in Hin as [->|Hin].
        -- exists (String c l0). split; [apply list_elem_of_here|by apply includes_cons].
        -- exists l. split; [by apply list_elem_of_further|done].
Qed.

Lemma prefix_app_l t u : forall s, String.prefix (t +:+ u) s = true -> String.prefix t s = true.
Proof.
  induction t as [|a t IH]; intros s; [intros _; apply prefix_nil|].
  destruct s as [|b s]; [done|]. rewrite append_cons, !prefix_cons.
  destruct (ascii_dec a b); [apply IH|done].
Qed.

Lemma includes_shorter t u s : includes s (t +:+ u) = true -> includes s t = true.
Proof.
  induction s as [|c s IH]; cbn [includes].
  - destruct (String.prefix (t +:+ u) "") eqn:E; [|done].
    intros _. by rewrite (prefix_app_l _ _ _ E).
  - destruct (String.prefix (t +:+ u) (String c s)) eqn:E.
    + intros _. by rewrite (prefix_app_l _ _ _ E).
    + intros H. rewrite (IH H). by destruct (String.prefix t _).
Qed.

(** The line a keyword rule reports is a line of the file. *)
Lemma keyword_line content keyword :
  noLF keyword -> includes content keyword = true ->
  (1 <= findIndex (fun l => includes l keyword) (split_lines content) + 1
     <= Z.of_nat (length (split_lines content)))%Z.
Proof.
  intros Hk Hc. destruct (includes_some_line keyword content Hk Hc) as (l & Hin & Hl).
  pose proof (findIndex_found (fun l => includes l keyword) _ l Hin Hl).
  pose proof (findIndex_bounds (fun l => includes l keyword) (split_lines content)).
  lia.
Qed.

Lemma produces_ret {A} (a : A) (P : A -> Prop) : P a -> produces (ret a) P.
Proof. intros H e a' e'. unfold ret. by intros [= <- _]. Qed.

Lemma produces_bind {A B} (m : M A) (f : A -> M B) (P : A -> Prop) (Q : B -> Prop) :
  produces m P -> (forall a, P a -> produces (f a) Q) -> produces (bind m f) Q.
Proof.
  intros Hm Hf e b e'. unfold bind. destruct (m e) as [[a e1]|] eqn:E; [|done].
  intros H. eapply Hf; [|exact H]. by eapply Hm.
Qed.

Lemma produces_any {A} (m : M A) : produces m (fun _ => True).
Proof. by intros e a e' _. Qed.

Lemma produces_forEach {A B} (body : A -> M (list B)) (P : B -> Prop) xs :
  (forall x, produces (body x) (Forall P)) -> produces (forEach body xs) (Forall P).
Proof.
  intros Hb. induction xs as [|x xs IH]; cbn [forEach].
  - by apply produces_ret.
  - eapply produces_bind; [apply Hb|]. intros ys Hys.
    eapply produces_bind; [apply IH|]. intros zs Hzs.
    apply produces_ret. by apply Forall_app.
Qed.

Lemma produces_issue (P : DetectedIssue -> Prop) (mk : string -> string -> DetectedIssue) :
  (forall id detectedAt, P (mk id detectedAt)) ->
  produces (perform id <- uuidv4 ; perform detectedAt <- newDateISO ;
            ret [mk id detectedAt]) (Forall P).
Proof.
  intros H. eapply produces_bind; [apply produces_any|]. intros id _.
  eapply produces_bind; [apply produces_any|]. intros detectedAt _.
  apply produces_ret. by repeat constructor.
Qed.

Lemma produces_nil {B} (P : B -> Prop) : produces (ret []) (Forall P).
Proof. apply produces_ret. constructor. Qed.

Lemma produces_append3 (P : DetectedIssue -> Prop) (m1 m2 m3 : M (list DetectedIssue)) :
  produces m1 (Forall P) -> produces m2 (Forall P) -> produces m3 (Forall P) ->
  produces (perform a <- m1 ; perform b <- m2 ; perform c <- m3 ; ret (a ++ b ++ c))
           (Forall P).
Proof.
  intros H1 H2 H3. eapply produces_bind; [exact H1|]. intros a Ha.
  eapply produces_bind; [exact H2|]. intros b Hb.
  eapply produces_bind; [exact H3|]. intros c Hc.
  apply produces_ret. rewrite !Forall_app. by repeat split.
Qed.

Lemma analyzeReactMemoryLeaks_produces filePath content :
  produces (analyzeFileForReactLeaks filePath content) (Forall (inFile filePath content)).
Proof.
  unfold analyzeFileForReactLeaks, analyzeReactMemoryLeaks.
  eapply produces_bind; [apply produces_any|]. intros ms _.
  apply produces_append3.
  - apply produces_forEach. intros m. unfold effectIssue.
    destruct (_ && _); [|apply produces_nil].
    apply (produces_issue _ (fun id detectedAt => DetectedIssue_ id _ _ _ _ _ _ _ _ _ _ _ _ _ detectedAt)).
    intros id detectedAt. split; [done|]. cbn [is_line]. apply lineOf_range.
  - destruct (includes content "addEventListener") eqn:E; cbn [andb];
      [|apply produces_nil].
    destruct (negb _); [|apply produces_nil].
    apply (produces_issue _ (fun id detectedAt => DetectedIssue_ id _ _ _ _ _ _ _ _ _ _ _ _ _ detectedAt)).
    intros id detectedAt. split; [done|]. cbn [is_line]. by apply keyword_line.
  - destruct (includes content "setInterval") eqn:E; cbn [andb];
      [|apply produces_nil].
    destruct (negb _); [|apply produces_nil].
    apply (produces_issue _ (fun id detectedAt => DetectedIssue_ id _ _ _ _ _ _ _ _ _ _ _ _ _ detectedAt)).
    intros id detectedAt. split; [done|]. cbn [is_line]. by apply keyword_line.
Qed.

Lemma detectNullReferences_produces filePath content platform :
  produces (detectNullReferences filePath content platform)
           (Forall (inFile filePath content)).
Proof.
  unfold detectNullReferences. apply produces_append3.
  - destruct (_ || _); [|apply produces_nil].
    eapply produces_bind; [apply produces_any|]. intros ms _.
    eapply produces_bind.
    { apply (produces_forEach _ (inFile filePath content)). intros m.
      apply (produces_issue _ (fun id detectedAt => logicIssue id _ _ _ _ _ _ _ _ _ _ detectedAt)).
      intros id detectedAt. split; [done|]. cbn [logicIssue is_line]. apply lineOf_range. }
    intros unwraps Hu.
    eapply produces_bind; [apply produces_any|]. intros _ _.
    eapply produces_bind; [apply produces_any|]. intros ms' _.
    eapply produces_bind.
    { apply (produces_forEach _ (inFile filePath content)). intros m.
      destruct (_ && _); [|apply produces_nil].
      apply (produces_issue _ (fun id detectedAt => logicIssue id _ _ _ _ _ _ _ _ _ _ detectedAt)).
      intros id detectedAt. split; [done|]. cbn [logicIssue is_line]. apply lineOf_range. }
    intros unsafe Hs. apply produces_ret. by apply Forall_app.
  - destruct (bool_decide (platform = ios)); [|apply produces_nil].
    eapply produces_bind; [apply produces_any|]. intros ms _.
    apply produces_forEach. intros m.
    destruct (_ || _); [apply produces_nil|].
    apply (produces_issue _ (fun id detectedAt => logicIssue id _ _ _ _ _ _ _ _ _ _ detectedAt)).
    intros id detectedAt. split; [done|]. cbn [logicIssue is_line]. apply lineOf_range.
  - destruct (bool_decide (platform = android)); [|apply produces_nil].
    eapply produces_bind; [apply produces_any|]. intros ms _.
    apply produces_forEach. intros m.
    apply (produces_issue _ (fun id detectedAt => logicIssue id _ _ _ _ _ _ _ _ _ _ detectedAt)).
    intros id detectedAt. split; [done|]. cbn [logicIssue is_line]. apply lineOf_range.
Qed.

Ltac keyword_rule :=
  apply (produces_issue _ (fun id detectedAt => leakIssue id _ _ _ _ _ _ _ _ _ detectedAt));
  intros id detectedAt; split; [done|]; cbn [leakIssue is_line].

Lemma analyzeKotlinMemoryLeaks_produces filePath content :
  produces (analyzeKotlinMemoryLeaks filePath content (split_lines content))
           (Forall (inFile filePath content)).
Proof.
  unfold analyzeKotlinMemoryLeaks. apply produces_append3.
  - destruct (includes content "registerReceiver") eqn:E; cbn [andb];
      [|apply produces_nil].
    destruct (negb _); [|apply produces_nil]. keyword_rule. by apply keyword_line.
  - destruct (includes content "Handler"); cbn [andb]; [|apply produces_nil].
    destruct (includes content "postDelayed") eqn:E; cbn [andb]; [|apply produces_nil].
    destruct (negb _); [|apply produces_nil]. keyword_rule. by apply keyword_line.
  - destruct (includes content "companion object") eqn:E; cbn [andb];
      [|apply produces_nil].
    destruct (_ || _); [|apply produces_nil]. keyword_rule. by apply keyword_line.
Qed.

Lemma analyzeDartMemoryLeaks_produces filePath content :
  produces (analyzeDartMemoryLeaks filePath content (split_lines content))
           (Forall (inFile filePath content)).
Proof.
  unfold analyzeDartMemoryLeaks. apply produces_append3.
  - destruct (includes content "StreamSubscription") eqn:E; cbn [andb];
      [|apply produces_nil].
    destruct (negb _); [|apply produces_nil]. keyword_rule. by apply keyword_line.
  - destruct (includes content "AnimationController") eqn:E; cbn [andb];
      [|apply produces_nil].
    destruct (negb _); [|apply produces_nil]. keyword_rule. by apply keyword_line.
  - destruct (includes content "TextEditingController()") eqn:E; cbn [andb];
      [|apply produces_nil].
    destruct (negb _); [|apply produces_nil]. keyword_rule.
    apply keyword_line; [done|]. by apply (includes_shorter _ "()").
Qed.

Ltac run_rules :=
  unfold bind, uuidv4, newDateISO, ret;
  repeat match goal with |- context [if ?b then _ else _] => destruct b end;
  cbn; do 2 eexists; (split; [reflexivity|cbn; lia]).

Lemma analyzeKotlinMemoryLeaks_total filePath content lines e :
  exists issues e',
    analyzeKotlinMemoryLeaks filePath content lines e = Some (issues, e') /\
    length issues <= 3.
Proof. unfold analyzeKotlinMemoryLeaks. run_rules. Qed.

Lemma analyzeDartMemoryLeaks_total filePath content lines e :
  exists issues e',
    analyzeDartMemoryLeaks filePath content lines e = Some (issues, e') /\
    length issues <= 3.
Proof. unfold analyzeDartMemoryLeaks. run_rules. Qed.

End LineFacts.

(** X22: every issue [analyzeReactMemoryLeaks] reports for a file is about
    that file and points at one of its lines: the line number is at least
    1 and at most the number of lines of the content. The analysis always
    ends. *)
Theorem analyzeFileForReactLeaks_lines filePath content e :
  exists issues e',
    analyzeFileForReactLeaks filePath content e = Some (issues, e') /\
    Forall (inFile filePath content) issues.
Proof.
  destruct (analyzeReactMemoryLeaks_agree filePath content (split_lines content) e e)
    as (issues & e' & _ & _ & E & _).
  exists issues, e'. split; [done|].
  by eapply analyzeReactMemoryLeaks_produces.
Qed.

(** X23: every issue [detectNullReferences] reports, on every platform,
    is about the file given and points at one of the lines of the
    content. The rule always ends. *)
Theorem detectNullReferences_lines filePath content platform e :
  exists issues e',
    detectNullReferences filePath content platform e = Some (issues, e') /\
    Forall (inFile filePath content) issues.
Proof.
  destruct (detectNullReferences_agree filePath content platform e e)
    as (issues & e' & _ & _ & E & _).
  exists issues, e'. split; [done|].
  by eapply detectNullReferences_produces.
Qed.

(** X24: the Kotlin and the Dart leak rules always answer, with at most
    three issues, and every issue is about the file given and points at
    one of the lines of the content. *)
Theorem keyword_leak_rules_lines filePath content e :
  (exists issues e',
     analyzeKotlinMemoryLeaks filePath content (split_lines content) e
     = Some (issues, e') /\
     length issues <= 3 /\
     Forall (inFile filePath content) issues) /\
  (exists issues e',
     analyzeDartMemoryLeaks filePath content (split_lines content) e
     = Some (issues, e') /\
     length issues <= 3 /\
     Forall (inFile filePath content) issues).
Proof.
  split.
  - destruct (analyzeKotlinMemoryLeaks_total filePath content (split_lines content) e)
      as (issues & e' & E & Hlen).
    exists issues, e'. split; [done|]. split; [done|].
    by eapply analyzeKotlinMemoryLeaks_produces.
  - destruct (analyzeDartMemoryLeaks_total filePath content (split_lines content) e)
      as (issues & e' & E & Hlen).
    exists issues, e'. split; [done|]. split; [done|].
    by eapply analyzeDartMemoryLeaks_produces.
Qed.

(** ** Global replacement as one pass over the text *)

Section ReplaceFacts.

Lemma drop_string_app n : forall a b,
  n <= String.length a -> drop_string n (a +:+ b) = drop_string n a +:+ b.
Proof.
  induction n as [|n IH]; intros a b Hn; [by destruct a|].
  destruct a as [|c a]; [cbn in Hn; lia|]. rewrite append_cons. cbn [drop_string].
  apply IH. cbn in Hn. lia.
Qed.

Lemma drop_string_all a b : drop_string (String.length a) (a +:+ b) = b.
Proof. induction a as [|c a IH]; [by destruct b|]. by rewrite append_cons. Qed.

Lemma drop_string_self a : drop_string (String.length a) a = "".
Proof. by induction a. Qed.

Lemma take_string_all a b : take_string (String.length a) (a +:+ b) = a.
Proof.
  induction a as [|c a IH]; [by destruct b|]. rewrite append_cons. cbn. by rewrite IH.
Qed.

Lemma take_string_app n : forall a b,
  n <= String.length a -> take_string n (a +:+ b) = take_string n a.
Proof.
  induction n as [|n IH]; intros a b Hn; [by destruct a, b|].
  destruct a as [|c a]; [cbn in Hn; lia|]. rewrite append_cons. cbn [take_string].
  rewrite IH; [done|]. cbn in Hn. lia.
Qed.

Lemma take_drop_string n s : take_string n s +:+ drop_string n s = s.
Proof.
  revert s. induction n as [|n IH]; intros [|c s]; try done.
  cbn [take_string drop_string]. by rewrite append_cons, IH.
Qed.

Lemma take_string_length n s : n <= String.length s -> String.length (take_string n s) = n.
Proof.
  revert s. induction n as [|n IH]; intros [|c s] Hn; try done; cbn in *; [lia|].
  rewrite IH; lia.
Qed.

Lemma substring_prefix next (pre s : string) :
  next <= String.length pre ->
  substring next (String.length pre) (pre +:+ s) = drop_string next pre.
Proof.
  intros Hn. unfold substring. rewrite Nat.max_r, Nat.min_l by lia.
  rewrite drop_string_app by done.
  rewrite <- (append_nil_r (drop_string next pre)) at 2.
  rewrite <- (take_string_all (drop_string next pre) s) at 2.
  rewrite drop_string_length. by rewrite append_nil_r.
Qed.

Lemma matchAt_text r pos rest m :
  matchAt r pos rest = Some m -> m_text m = take_string (m_lastIndex m - pos) rest.
Proof.
  unfold matchAt. destruct (run r _ _ _) as [[cur cs]|]; [|done]. by intros [= <-].
Qed.

Lemma exec_at (r : regex) (pre s : string) :
  exec r (pre +:+ s) (String.length pre) = search r (String.length pre) s.
Proof.
  unfold exec. rewrite string_length_app.
  destruct (Nat.leb_spec (String.length pre) (String.length pre + String.length s));
    [|lia].
  by rewrite drop_string_all.
Qed.

Lemma append_snoc (pre : string) c s : (pre +:+ String c "") +:+ s = pre +:+ String c s.
Proof. by rewrite append_assoc. Qed.

Lemma length_snoc (pre : string) c : String.length (pre +:+ String c "") = String.length pre + 1.
Proof. by rewrite string_length_app. Qed.

Lemma execGlobal_skip fuel r pre c s :
  matchAt r (String.length pre) (String c s) = None ->
  execGlobal fuel r (pre +:+ String c s) (String.length pre)
  = execGlobal fuel r (pre +:+ String c s) (String.length pre + 1).
Proof.
  intros Hno. destruct fuel as [|fuel]; [done|]. cbn [execGlobal].
  rewrite exec_at. rewrite <- (append_snoc pre c s), <- (length_snoc pre c), exec_at.
  cbn [search]. rewrite Hno. by rewrite length_snoc.
Qed.

(** With a pattern that never matches the empty text, [replace] with the
    [g] flag is one pass over the text. *)
Lemma replaceMatches_scan r replacement :
  1 <= minlen r ->
  forall f s, String.length s <= f ->
  forall pre next g,
    next <= String.length pre -> String.length s < g ->
    replaceMatches (pre +:+ s) replacement
      (execGlobal g r (pre +:+ s) (String.length pre)) next
    = drop_string next pre +:+ scanReplace f r replacement (String.length pre) s.
Proof.
  intros Hmin. induction f as [|f IH]; intros s Hf pre next g Hnext Hg.
  - destruct s as [|c s]; [|cbn in Hf; lia]. destruct g as [|g]; [lia|].
    cbn [execGlobal scanReplace]. rewrite exec_at. cbn [search].
    destruct (matchAt r _ "") as [m|] eqn:E.
    + apply matchAt_progress in E. cbn in E. lia.
    + cbn [replaceMatches]. by apply drop_string_app.
  - cbn [scanReplace]. destruct (matchAt r (String.length pre) s) as [m|] eqn:E.
    + pose proof (matchAt_progress _ _ _ _ E) as (Hidx & Hlo & Hhi).
      pose proof (matchAt_text _ _ _ _ E) as Htext.
      destruct g as [|g]; [lia|]. cbn [execGlobal]. rewrite exec_at.
      assert (search r (String.length pre) s = Some m) as ->
        by (destruct s; cbn [search]; by rewrite E).
      destruct (Nat.eqb_spec (m_lastIndex m) (m_index m)) as [Heq|_]; [lia|].
      cbn [replaceMatches]. rewrite Hidx.
      destruct (Nat.leb_spec next (String.length pre)); [|lia].
      rewrite substring_prefix by done. f_equal. f_equal.
      set (k := m_lastIndex m - String.length pre) in *.
      assert (String.length (m_text m) = k) as ->
        by (rewrite Htext; apply take_string_length; lia).
      rewrite <- (take_drop_string k s) at 1 2.
      rewrite <- append_assoc.
      assert (String.length (pre +:+ take_string k s) = m_lastIndex m) as Hlen
        by (rewrite string_length_app, take_string_length; lia).
      replace (String.length pre + k) with (m_lastIndex m) by lia.
      rewrite <- Hlen at 1 2.
      rewrite IH; [|rewrite drop_string_length; lia|lia|rewrite drop_string_length; lia].
      rewrite drop_string_self. by rewrite Hlen.
    + destruct s as [|c s].
      * destruct g as [|g]; [lia|]. cbn [execGlobal]. rewrite exec_at. cbn [search].
        rewrite E. cbn [replaceMatches]. by apply drop_string_app.
      * rewrite execGlobal_skip by done.
        rewrite <- (append_snoc pre c s), <- (length_snoc pre c).
        rewrite IH; [|cbn in Hf; lia|rewrite length_snoc; lia|cbn in Hg; lia].
        rewrite drop_string_app by done. rewrite length_snoc.
        by rewrite append_assoc.
Qed.

Lemma replaceAllWith_scan r replacement content :
  1 <= minlen r ->
  replaceAllWith content r replacement
  = scanReplace (String.length content) r replacement 0 content.
Proof.
  intros Hmin. unfold replaceAllWith.
  apply (replaceMatches_scan r replacement Hmin (String.length content) content
           (le_n _) "" 0 (String.length content + 1)); cbn; lia.
Qed.

(** *** The two patterns of the null-check fix *)

Variable x : ascii.

Lemma wordRun_app s : fst (wordRun s) +:+ snd (wordRun s) = s.
Proof.
  induction s as [|c s IH]; [done|]. cbn [wordRun].
  destruct (is_word c); [|done]. destruct (wordRun s) as [w rest].
  cbn [fst snd] in *. by rewrite append_cons, IH.
Qed.

Lemma wordRun_take s : take_string (String.length (fst (wordRun s))) s = fst (wordRun s).
Proof. rewrite <- (wordRun_app s) at 2. apply take_string_all. Qed.

Lemma wordRun_drop s : drop_string (String.length (fst (wordRun s))) s = snd (wordRun s).
Proof. rewrite <- (wordRun_app s) at 2. apply drop_string_all. Qed.

Lemma wordRun_first s :
  fst (wordRun s) = "" \/ (exists c, first s = Some c /\ first (fst (wordRun s)) = Some c
                                     /\ is_word c = true).
Proof.
  destruct s as [|c s]; [by left|]. cbn [wordRun].
  destruct (is_word c) eqn:E; [|by left]. right. exists c.
  by destruct (wordRun s).
Qed.

Lemma wordRun_rest s c :
  first (snd (wordRun s)) = Some c -> is_word c = false.
Proof.
  induction s as [|c0 s IH]; [done|]. cbn [wordRun].
  destruct (is_word c0) eqn:E.
  - destruct (wordRun s) as [w rest]. cbn [snd] in *. exact IH.
  - cbn. by intros [= <-].
Qed.

(** A greedy [\w+] in front of a continuation that fails in front of a
    word character takes the whole run of word characters. *)
Lemma iterate_word (k : cont) :
  (forall cur cs c, first (c_rest cur) = Some c -> is_word c = true -> k cur cs = None) ->
  forall s fuel count pos cs,
    String.length s < fuel ->
    iterate (run word) true 1 None k fuel count (Cursor pos s) cs
    = if 1 <=? count + String.length (fst (wordRun s))
      then k (Cursor (pos + String.length (fst (wordRun s))) (snd (wordRun s))) cs
      else None.
Proof.
  intros Hk. induction s as [|c s IH]; intros fuel count pos cs Hfuel.
  - destruct fuel as [|fuel]; [lia|]. cbn. by rewrite !Nat.add_0_r.
  - destruct fuel as [|fuel]; [lia|]. cbn [iterate below run word c_rest c_pos wordRun].
    destruct (is_word c) eqn:Hc.
    + assert ((pos <? pos + 1) = true) as -> by (apply Nat.ltb_lt; lia).
      cbn [orb]. rewrite IH by (cbn in Hfuel; lia).
      destruct (wordRun s) as [w rest]. cbn [fst snd String.length].
      assert ((1 <=? S count + String.length w) = true) as ->
        by (apply Nat.leb_le; lia).
      assert ((1 <=? count + S (String.length w)) = true) as ->
        by (apply Nat.leb_le; lia).
      replace (pos + 1 + String.length w) with (pos + S (String.length w)) by lia.
      destruct (k (Cursor (pos + S (String.length w)) rest) cs); [done|].
      rewrite (Hk (Cursor pos (String c s)) cs c) by done. by destruct (1 <=? count).
    + cbn [fst snd String.length]. by rewrite !Nat.add_0_r.
Qed.

Lemma not_word_bang : is_word "!" = false.
Proof. reflexivity. Qed.

Lemma matchAt_assertion pos s :
  matchAt (assertionPattern x) pos s
  = if (1 <=? String.length (fst (wordRun s))) && startsBang x (snd (wordRun s))
    then Some (Matched pos
                 (take_string (String.length (fst (wordRun s)) + 2) s)
                 [(1, fst (wordRun s))]
                 (pos + String.length (fst (wordRun s)) + 2))
    else None.
Proof.
  unfold matchAt, assertionPattern, plus. cbn [run c_rest c_pos].
  rewrite iterate_word; [|intros cur cs c Hc Hw|lia].
  - cbn [Nat.add]. destruct (1 <=? String.length (fst (wordRun s))); [|done].
    cbn [andb c_rest c_pos]. unfold startsBang.
    destruct (snd (wordRun s)) as [|b [|x' rest]] eqn:E; [done| |].
    + by destruct (Ascii.eqb "!" b).
    + destruct (Ascii.eqb "!" b); [|done]. cbn [andb].
      destruct (Ascii.eqb x x'); [|done]. cbn [c_pos].
      replace (pos + String.length (fst (wordRun s)) - pos)
        with (String.length (fst (wordRun s))) by lia.
      rewrite wordRun_take. do 2 f_equal; [|lia].
      f_equal. lia.
  - destruct (c_rest cur) as [|c' r]; [done|]. cbn in Hc. injection Hc as ->.
    destruct (Ascii.eqb_spec "!" c) as [<-|]; [|done]. by rewrite not_word_bang in Hw.
Qed.

Lemma startsBang_first t c :
  first t = Some c -> c <> "!"%char -> startsBang x t = false.
Proof.
  destruct t as [|c' [|x' t]]; [done|done|]. intros [= ->] Hc. unfold startsBang.
  destruct (Ascii.eqb_spec "!" c); [congruence|done].
Qed.

Lemma word_not_bang c : is_word c = true -> c <> "!"%char.
Proof. intros H ->. by rewrite not_word_bang in H. Qed.

Lemma startsBang_wordRun s u :
  startsBang x u = false -> startsBang x (fst (wordRun s) +:+ u) = false.
Proof.
  intros Hu. destruct (wordRun_first s) as [->|(c & _ & Hc & Hw)]; [done|].
  destruct (fst (wordRun s)) as [|c' w]; [done|]. cbn in Hc. injection Hc as ->.
  rewrite append_cons. apply (startsBang_first _ c); [done|by apply word_not_bang].
Qed.

Lemma hot_wordRun s u :
  startsBang x u = false -> hot x (fst (wordRun s) +:+ u) = hot x u.
Proof.
  intros Hu. induction s as [|c s IH]; [done|]. cbn [wordRun].
  destruct (is_word c) eqn:Hc; [|done].
  pose proof (startsBang_wordRun s u Hu) as Hs.
  destruct (wordRun s) as [w rest]. cbn [fst] in *.
  rewrite append_cons. cbn [hot]. by rewrite Hs, andb_false_r, IH.
Qed.

Lemma hot_of_match s :
  (1 <=? String.length (fst (wordRun s))) && startsBang x (snd (wordRun s)) = true ->
  hot x s = true.
Proof.
  induction s as [|c s IH]; [done|]. cbn [wordRun hot].
  destruct (is_word c) eqn:Hc; [|done].
  destruct (wordRun s) as [w rest] eqn:E. cbn [fst snd] in *.
  intros [_ Hb]%andb_true_iff. destruct w as [|c' w].
  - pose proof (wordRun_app s) as Happ. rewrite E in Happ. cbn [fst snd] in Happ.
    rewrite append_nil in Happ. subst rest.
    by rewrite Hb.
  - rewrite IH; [apply orb_true_r|]. by rewrite Hb.
Qed.

Lemma hot_tail c t : hot x (String c t) = false -> hot x t = false.
Proof. cbn [hot]. by intros [_ ?]%orb_false_iff. Qed.

Lemma cold_no_match t : forall pos,
  hot x t = false -> search (assertionPattern x) pos t = None.
Proof.
  induction t as [|c t IH]; intros pos Ht; cbn [search]; rewrite matchAt_assertion.
  - done.
  - destruct (_ && _) eqn:E; [apply hot_of_match in E; congruence|].
    apply IH. by eapply hot_tail.
Qed.

Lemma cold_matches t :
  hot x t = false -> matches (assertionPattern x) t = Some [].
Proof.
  intros Ht. unfold matches.
  assert (exec (assertionPattern x) t 0 = None) as E.
  { unfold exec. cbn [drop_string]. destruct (0 <=? String.length t); [|done].
    destruct t; by apply cold_no_match. }
  destruct (String.length t); cbn [execAll]; by rewrite E.
Qed.

(** The replacement: the name, then a text [R] that holds no exclamation
    mark and starts with a character that is not one of a word. *)
Variable R : string.
Hypothesis R_bang : forall t, startsBang x (R +:+ t) = false.
Hypothesis R_cold : forall t, hot x t = false -> hot x (R +:+ t) = false.

Lemma startsBang_same_first c t1 t2 :
  first t1 = first t2 -> startsBang x (String c t1) = startsBang x (String c t2).
Proof. destruct t1, t2; try done. cbn. by intros [= ->]. Qed.

Lemma scan_cold : forall n f s pos,
  String.length s <= n -> String.length s <= f ->
  hot x (scanReplace f (assertionPattern x) (fun m => group 1 m +:+ R) pos s) = false /\
  first (scanReplace f (assertionPattern x) (fun m => group 1 m +:+ R) pos s) = first s.
Proof.
  induction n as [|n IH]; intros f s pos Hn Hf.
  { destruct s; [|cbn in Hn; lia]. destruct f; [done|].
    cbn [scanReplace]. by rewrite matchAt_assertion. }
  destruct f as [|f]; [destruct s; [done|cbn in Hf; lia]|].
  cbn [scanReplace]. rewrite matchAt_assertion.
  destruct (_ && _) eqn:E.
  - cbn [m_lastIndex m_groups]. unfold group at 1 3.
    cbn [m_groups capture Nat.eqb default from_option id].
    apply andb_true_iff in E as [Hw Hb]. apply Nat.leb_le in Hw.
    set (t := scanReplace f _ _ _ _).
    assert (hot x t = false) as Ht.
    { apply IH; rewrite drop_string_length; lia. }
    rewrite append_assoc. split.
    + rewrite hot_wordRun by apply R_bang. by apply R_cold.
    + destruct (wordRun_first s) as [E0|(c & Hc & Hc' & _)];
        [rewrite E0 in Hw; cbn in Hw; lia|].
      rewrite Hc. destruct (fst (wordRun s)) as [|c' w]; [done|]. by rewrite append_cons.
  - destruct s as [|c s]; [done|]. cbn [first]. split; [|done].
    destruct (IH f s (pos + 1)) as [Hcold Hfirst]; [cbn in Hn; lia|cbn in Hf; lia|].
    cbn [hot]. rewrite Hcold, orb_false_r.
    destruct (is_word c) eqn:Hc; [|done]. cbn [andb].
    cbn [wordRun] in E. rewrite Hc in E.
    destruct (wordRun s) as [w rest] eqn:Ew. cbn [fst snd String.length] in E.
    cbn [Nat.leb andb] in E.
    set (t := scanReplace f _ _ _ _) in *.
    destruct w as [|c' w].
    + pose proof (wordRun_app s) as Happ. rewrite Ew in Happ. cbn [fst snd] in Happ.
      rewrite append_nil in Happ. subst rest.
      (* [s] does not start with a word character *)
      destruct s as [|b s]; [by destruct t|].
      destruct f as [|f']; [cbn in Hf; lia|].
      subst t. cbn [scanReplace]. rewrite matchAt_assertion.
      cbn [wordRun] in Ew |- *.
      destruct (is_word b) eqn:Hb; [by destruct (wordRun s)|].
      cbn [fst snd String.length Nat.leb andb].
      destruct (IH f' s (pos + 1 + 1)) as [_ Hfirst2];
        [cbn in Hn; lia|cbn in Hf; lia|].
      rewrite <- E. by apply startsBang_same_first.
    + pose proof (wordRun_first s) as [E0|(c0 & Hc0 & _ & Hw0)];
        [by rewrite Ew in E0|].
      apply (startsBang_first _ c0); [by rewrite Hfirst|by apply word_not_bang].
Qed.

Lemma replaceAll_cold code :
  hot x (replaceAllWith code (assertionPattern x) (fun m => group 1 m +:+ R)) = false.
Proof.
  rewrite replaceAllWith_scan by (cbn; lia).
  by apply (scan_cold (String.length code)).
Qed.

End ReplaceFacts.

Lemma forceUnwrap_replaced code :
  matches forceUnwrapPattern
    (replaceAllWith code forceUnwrapPattern (fun m => group 1 m +:+ "?.")) = Some [].
Proof.
  apply (cold_matches "."), (replaceAll_cold "." "?.").
  - done.
  - intros t Ht. change ("?." +:+ t) with (String "?" (String "." t)).
    cbn [hot]. rewrite Ht. reflexivity.
Qed.

Lemma notNull_replaced code :
  matches notNullPattern
    (replaceAllWith code notNullPattern (fun m => group 1 m +:+ "?")) = Some [].
Proof.
  apply (cold_matches "!"), (replaceAll_cold "!" "?").
  - by intros [|c t].
  - intros t Ht. change ("?" +:+ t) with (String "?" t).
    cbn [hot]. rewrite Ht. reflexivity.
Qed.

Lemma produces_no_match r content :
  matches r content = Some [] -> produces (allMatches r content) (fun ms => ms = []).
Proof. intros E e ms e'. unfold allMatches. rewrite E. by intros [= <- _]. Qed.

(** X25: on Android the null-check fix leaves no not-null assertion
    behind: on the code a fix of [generateNullCheckFix] suggests,
    [detectNullReferences] reports nothing, and draws no id and no
    timestamp. *)
Theorem generateNullCheckFix_android_clears_detector issue code fc filePath e :
  generateNullCheckFix issue android code = Some fc ->
  detectNullReferences filePath (fc_suggested fc) android e = Some ([], e).
Proof.
  unfold generateNullCheckFix.
  repeat (case_bool_decide; try done). cbn [orb].
  destruct (String.eqb _ code); [done|]. intros [= <-]. cbn [fc_suggested].
  unfold detectNullReferences.
  repeat (case_bool_decide; try done). cbn [orb].
  unfold bind at 1. cbn [ret]. unfold bind at 1. cbn [ret]. unfold bind at 1.
  unfold bind at 1. unfold allMatches. by rewrite notNull_replaced.
Qed.

Lemma generateNullCheckFix_android_clears_detector_witness :
  detectNullReferences "/app/Main.kt" "val n = user?.name?!.length ?: a?.b" android exEnv
  = Some ([], exEnv).
Proof.
  apply (generateNullCheckFix_android_clears_detector exIssue
           "val n = user!!.name!!!.length ?: a!!.b"
           (FixCode_ "val n = user!!.name!!!.length ?: a!!.b"
                     "val n = user?.name?!.length ?: a?.b" 85)).
  reflexivity.
Defined.

Lemma detectNullReferences_unwraps_replaced filePath code platform :
  platform = web \/ platform = react_native ->
  produces (detectNullReferences filePath
              (replaceAllWith code forceUnwrapPattern (fun m => group 1 m +:+ "?."))
              platform)
           (Forall (fun i => is_title i = "Potential unsafe access after null check")).
Proof.
  intros Hp.
  unfold detectNullReferences. apply produces_append3.
  - destruct (_ || _); [|apply produces_nil].
    eapply produces_bind; [apply produces_no_match, forceUnwrap_replaced|].
    intros ms ->. cbn [forEach].
    eapply produces_bind; [apply produces_nil|]. intros unwraps Hu.
    eapply produces_bind; [apply produces_any|]. intros _ _.
    eapply produces_bind; [apply produces_any|]. intros ms' _.
    eapply produces_bind.
    { apply (produces_forEach _
               (fun i => is_title i = "Potential unsafe access after null check")).
      intros m. destruct (_ && _); [|apply produces_nil].
      by apply (produces_issue _
                  (fun id detectedAt => logicIssue id _ _ _ _ _ _ _ _ _ _ detectedAt)). }
    intros unsafe Hs. apply produces_ret. by apply Forall_app.
  - destruct Hp as [-> | ->]; case_bool_decide; try done; apply produces_nil.
  - destruct Hp as [-> | ->]; case_bool_decide; try done; apply produces_nil.
Qed.

(** X26: on the web and on React Native the null-check fix leaves no
    force unwrap behind: on the code a fix of [generateNullCheckFix]
    suggests, [detectNullReferences] answers, and whatever it still
    reports is an access after a null check, never a non-null assertion. *)
Theorem generateNullCheckFix_web_clears_force_unwraps issue platform code fc filePath e :
  platform = web \/ platform = react_native ->
  generateNullCheckFix issue platform code = Some fc ->
  exists issues e',
    detectNullReferences filePath (fc_suggested fc) platform e = Some (issues, e') /\
    Forall (fun i => is_title i = "Potential unsafe access after null check") issues.
Proof.
  intros Hp Hfix.
  destruct (detectNullReferences_agree filePath (fc_suggested fc) platform e e)
    as (issues & e' & _ & _ & E & _).
  exists issues, e'. split; [done|].
  assert (fc_suggested fc
          = replaceAllWith code forceUnwrapPattern (fun m => group 1 m +:+ "?.")) as Hs.
  { revert Hfix. unfold generateNullCheckFix.
    destruct Hp as [-> | ->]; repeat (case_bool_decide; try done); cbn [orb];
      (destruct (String.eqb _ code); [done|]); by intros [= <-]. }
  rewrite Hs in E. by eapply detectNullReferences_unwraps_replaced.
Qed.

Lemma generateNullCheckFix_web_clears_force_unwraps_witness :
  exists issues e',
    detectNullReferences exFile
      "if (a) { use(a); }
a.run(b?.c!);" web exEnv = Some (issues, e') /\
    Forall (fun i => is_title i = "Potential unsafe access after null check") issues.
Proof.
  apply (generateNullCheckFix_web_clears_force_unwraps exIssue web
           "if (a) { use(a); }
a.run(b!.c!);"
           (FixCode_ "if (a) { use(a); }
a.run(b!.c!);" "if (a) { use(a); }
a.run(b?.c!);" 85)).
  - by left.
  - reflexivity.
Defined.

(** ** Scenario 1 in any file (C7) *)

(** *** A pattern matches a text in the same way wherever the text starts *)

Section ShiftFacts.









End ShiftFacts.


(** *** Where the pattern of the effect can match *)

Section OtherCalls.
















End OtherCalls.

(** *** The lines cut out around the issue *)

Section WindowFacts.












End WindowFacts.

(** *** The effect of scenario 1 inside a file *)








